(** * Shellsort gap-sequence benchmark: a shallow embedding of the experiment engine

    The development follows the C sources file by file:
    - [shellsort.h], [shellsort.c]: gap sequences, the two sorting entry
      points and the validator;
    - [rng.h]: splitmix64, xoshiro256**, rejection sampling, Fisher-Yates;
    - [permgen.c]: the generation of one dataset row, and of the two files
      of a dataset;
    - [gaps_baselines.h], [gaps_candidate.h]: the gap-sequence generators;
    - [bench.c], [validate.c], [full_bench.c], [all_baselines_bench.c]: the
      dataset loaders, the statistics of the two drivers, the means of
      [evaluate] and [benchmark], and the trimmed sequences of
      [full_bench.c].

    Unsigned 64-bit integers ([uint64_t], [size_t]) are integers of [Z] in
    [0, 2^64) whose wrap-around is written with [wrap64] wherever the C
    arithmetic can wrap; [int32_t] array elements are integers of [Z];
    [double] is Rocq's primitive binary64 [float]. An array is the list of
    its elements, read with [!!!] and written with [<[i := v]>]; a loop is
    a recursion on the number of iterations it has left, or on fuel where
    the C loop has no bound of its own.

    The embedding comes first, then the vocabulary of the properties, then
    the properties with their proofs. *)

From Stdlib Require Import ZArith Lia String Ascii Floats.
From stdpp Require Import list sorting pretty.

Open Scope Z_scope.

(** ** Machine integers *)

Definition wrap64 (z : Z) : Z := z mod 2 ^ 64.

(** The implementation-defined conversion to [int32_t], as GCC and Clang
    define it: reduction modulo 2^32 into [-2^31, 2^31). *)
Definition to_int32 (z : Z) : Z := (z + 2 ^ 31) mod 2 ^ 32 - 2 ^ 31.

(** ** shellsort.h *)

Definition MAX_GAPS : Z := 64.

(** [gap_sequence_t]: the populated entries [gaps[0 .. num_gaps)] are kept as
    a list, so [num_gaps] is its length and [seq->gaps[seq->num_gaps++] = x]
    appends [x]. *)
Record gap_sequence_t := mk_gap_sequence {
  name : string;
  gaps : list Z
}.

Definition num_gaps (seq : gap_sequence_t) : Z := Z.of_nat (length (gaps seq)).

Record sort_stats_t := mk_sort_stats {
  comparisons : Z;
  moves : Z
}.

(** ** shellsort.c *)

Module Sort.

(** The inner [while (j >= gap)] loop of [shellsort]. The loop leaves through
    its guard or through [break]; [None] is an exhausted fuel. The guard
    [j >= gap] keeps [j - gap] from wrapping. *)
Fixpoint shift_loop (fuel : nat) (gap : Z) (temp : Z)
    (arr : list Z) (j : Z) (comps : Z) : option (list Z * Z * Z) :=
  match fuel with
  | O => None
  | S fuel' =>
      if gap <=? j then
        let comps := wrap64 (comps + 1) in
        if temp <? arr !!! Z.to_nat (j - gap) then
          shift_loop fuel' gap temp
            (<[Z.to_nat j := arr !!! Z.to_nat (j - gap)]> arr) (j - gap) comps
        else Some (arr, j, comps)
      else Some (arr, j, comps)
  end.

(** [for (size_t i = gap; i < n; i++)]: [todo] is the number [n - i] of
    iterations that remain. The walk from [j = i] shifts at most [i] times
    when the gap is at least 1, and one more iteration ends it: the fuel
    [i + 1] is enough for it. *)
Fixpoint pass_loop (todo : nat) (gap : Z) (arr : list Z) (i : Z) (comps : Z)
    : option (list Z * Z) :=
  match todo with
  | O => Some (arr, comps)
  | S todo' =>
      let temp := arr !!! Z.to_nat i in
      '(arr1, j, comps1) ← shift_loop (S (Z.to_nat i)) gap temp arr i comps;
      pass_loop todo' gap (<[Z.to_nat j := temp]> arr1) (i + 1) comps1
  end.

(** [for (size_t g = seq->num_gaps; g > 0; g--)] with [gap = seq->gaps[g - 1]]. *)
Fixpoint gap_loop (g : nat) (seq : gap_sequence_t) (n : Z)
    (arr : list Z) (comps : Z) : option (list Z * Z) :=
  match g with
  | O => Some (arr, comps)
  | S g' =>
      let gap := gaps seq !!! g' in
      if n <=? gap then gap_loop g' seq n arr comps
      else
        '(arr1, comps1) ← pass_loop (Z.to_nat (n - gap)) gap arr gap comps;
        gap_loop g' seq n arr1 comps1
  end.

(** The same three loops in [shellsort_stats], which also counts moves. *)
Fixpoint shift_loop_stats (fuel : nat) (gap : Z) (temp : Z)
    (arr : list Z) (j : Z) (stats : sort_stats_t)
    : option (list Z * Z * sort_stats_t) :=
  match fuel with
  | O => None
  | S fuel' =>
      if gap <=? j then
        let stats := mk_sort_stats (wrap64 (comparisons stats + 1)) (moves stats) in
        if temp <? arr !!! Z.to_nat (j - gap) then
          let arr := <[Z.to_nat j := arr !!! Z.to_nat (j - gap)]> arr in
          let stats := mk_sort_stats (comparisons stats) (wrap64 (moves stats + 1)) in
          shift_loop_stats fuel' gap temp arr (j - gap) stats
        else Some (arr, j, stats)
      else Some (arr, j, stats)
  end.

Fixpoint pass_loop_stats (todo : nat) (gap : Z) (arr : list Z) (i : Z)
    (stats : sort_stats_t) : option (list Z * sort_stats_t) :=
  match todo with
  | O => Some (arr, stats)
  | S todo' =>
      let temp := arr !!! Z.to_nat i in
      '(arr1, j, stats1) ← shift_loop_stats (S (Z.to_nat i)) gap temp arr i stats;
      let arr2 := <[Z.to_nat j := temp]> arr1 in
      let stats2 := mk_sort_stats (comparisons stats1) (wrap64 (moves stats1 + 1)) in
      pass_loop_stats todo' gap arr2 (i + 1) stats2
  end.

Fixpoint gap_loop_stats (g : nat) (seq : gap_sequence_t) (n : Z)
    (arr : list Z) (stats : sort_stats_t) : option (list Z * sort_stats_t) :=
  match g with
  | O => Some (arr, stats)
  | S g' =>
      let gap := gaps seq !!! g' in
      if n <=? gap then gap_loop_stats g' seq n arr stats
      else
        '(arr1, stats1) ← pass_loop_stats (Z.to_nat (n - gap)) gap arr gap stats;
        gap_loop_stats g' seq n arr1 stats1
  end.

End Sort.

(** [uint64_t shellsort(int32_t *arr, size_t n, const gap_sequence_t *seq)]:
    the array after the call and the returned comparison count. *)
Definition shellsort (arr : list Z) (n : Z) (seq : gap_sequence_t)
    : option (list Z * Z) :=
  Sort.gap_loop (length (gaps seq)) seq n arr 0.

(** [sort_stats_t shellsort_stats(int32_t *arr, size_t n, const gap_sequence_t *seq)]. *)
Definition shellsort_stats (arr : list Z) (n : Z) (seq : gap_sequence_t)
    : option (list Z * sort_stats_t) :=
  Sort.gap_loop_stats (length (gaps seq)) seq n arr (mk_sort_stats 0 0).

(** [snprintf(buf, len, ...)] of a formatted text [msg]: at most [len - 1]
    characters are stored, and nothing at all when [len] is 0. *)
Definition snprintf (buf : string) (len : Z) (msg : string) : string :=
  if len =? 0 then buf else String.substring 0 (Z.to_nat (len - 1)) msg.

(** [%lu] and [%zu] of an unsigned 64-bit value. *)
Definition fmt_lu (z : Z) : string := pretty z.

Module Valid.

Definition msg_empty : string := "Empty sequence".

Definition msg_first (g0 : Z) : string :=
  "First gap must be 1, got " ++ fmt_lu g0.

Definition msg_zero (i : Z) : string :=
  "Gap " ++ fmt_lu i ++ " is zero".

Definition msg_not_increasing (i gi gp : Z) : string :=
  "Not strictly increasing: gaps[" ++ fmt_lu i ++ "]=" ++ fmt_lu gi
  ++ " <= gaps[" ++ fmt_lu (i - 1) ++ "]=" ++ fmt_lu gp.

(** [for (size_t i = 0; i < seq->num_gaps; i++)]: the text of the first
    violation met, [None] when the loop runs to its end. *)
Fixpoint check_loop (todo : nat) (seq : gap_sequence_t) (i : Z) : option string :=
  match todo with
  | O => None
  | S todo' =>
      let gi := gaps seq !!! Z.to_nat i in
      if gi =? 0 then Some (msg_zero i)
      else if (0 <? i) && (gi <=? gaps seq !!! Z.to_nat (i - 1)) then
        Some (msg_not_increasing i gi (gaps seq !!! Z.to_nat (i - 1)))
      else check_loop todo' seq (i + 1)
  end.

(** [if (reason) snprintf(reason, reason_len, ...)]: [reason] is [None] for
    a null pointer and [Some buf] for a buffer holding [buf]. *)
Definition report (reason : option string) (reason_len : Z) (msg : string)
    : option string :=
  match reason with
  | None => None
  | Some buf => Some (snprintf buf reason_len msg)
  end.

End Valid.

(** [int gap_sequence_valid(const gap_sequence_t *seq, char *reason, size_t reason_len)]:
    the returned flag and the reason buffer after the call. *)
Definition gap_sequence_valid (seq : gap_sequence_t) (reason : option string)
    (reason_len : Z) : Z * option string :=
  if num_gaps seq =? 0 then
    (0, Valid.report reason reason_len Valid.msg_empty)
  else if negb (gaps seq !!! 0%nat =? 1) then
    (0, Valid.report reason reason_len (Valid.msg_first (gaps seq !!! 0%nat)))
  else
    match Valid.check_loop (length (gaps seq)) seq 0 with
    | Some msg => (0, Valid.report reason reason_len msg)
    | None => (1, reason)
    end.

(** ** rng.h *)

(** What a run of array code comes to: a normal return, an access outside
    the array (undefined behaviour in C), or an exhausted fuel. *)
Inductive outcome (A : Type) : Type :=
  | Ok (a : A)
  | OutOfBounds (index : Z)
  | OutOfFuel.
Arguments Ok {A} a.
Arguments OutOfBounds {A} index.
Arguments OutOfFuel {A}.

#[global] Instance outcome_bind : MBind outcome := fun A B f m =>
  match m with
  | Ok a => f a
  | OutOfBounds i => OutOfBounds i
  | OutOfFuel => OutOfFuel
  end.

(** [arr[i]] read and written, for an array of [length arr] elements. *)
Definition load (arr : list Z) (i : Z) : outcome Z :=
  if (0 <=? i) && (i <? Z.of_nat (length arr)) then Ok (arr !!! Z.to_nat i)
  else OutOfBounds i.

Definition store (arr : list Z) (i : Z) (v : Z) : outcome (list Z) :=
  if (0 <=? i) && (i <? Z.of_nat (length arr)) then Ok (<[Z.to_nat i := v]> arr)
  else OutOfBounds i.

(** [splitmix64(uint64_t *state)]: the advanced state and the returned value. *)
Definition splitmix64 (state : Z) : Z * Z :=
  let state := wrap64 (state + 0x9e3779b97f4a7c15) in
  let z := state in
  let z := wrap64 (Z.lxor z (Z.shiftr z 30) * 0xbf58476d1ce4e5b9) in
  let z := wrap64 (Z.lxor z (Z.shiftr z 27) * 0x94d049bb133111eb) in
  (state, Z.lxor z (Z.shiftr z 31)).

Record rng_state_t := mk_rng { s0 : Z; s1 : Z; s2 : Z; s3 : Z }.

Definition rotl (x : Z) (k : Z) : Z :=
  Z.lor (wrap64 (Z.shiftl x k)) (Z.shiftr x (64 - k)).

(** [rng_next]: xoshiro256**, the advanced state and the returned value. *)
Definition rng_next (rng : rng_state_t) : rng_state_t * Z :=
  let result := wrap64 (rotl (wrap64 (s1 rng * 5)) 7 * 9) in
  let t := wrap64 (Z.shiftl (s1 rng) 17) in
  let x2 := Z.lxor (s2 rng) (s0 rng) in
  let x3 := Z.lxor (s3 rng) (s1 rng) in
  let x1 := Z.lxor (s1 rng) x2 in
  let x0 := Z.lxor (s0 rng) x3 in
  let x2 := Z.lxor x2 t in
  let x3 := rotl x3 45 in
  (mk_rng x0 x1 x2 x3, result).

Definition rng_seed (seed : Z) : rng_state_t :=
  let '(seed, w0) := splitmix64 seed in
  let '(seed, w1) := splitmix64 seed in
  let '(seed, w2) := splitmix64 seed in
  let '(_, w3) := splitmix64 seed in
  mk_rng w0 w1 w2 w3.

Module Uniform.

(** The [for (;;)] rejection loop of [rng_uniform]. *)
Fixpoint reject_loop (fuel : nat) (rng : rng_state_t) (n threshold : Z)
    : outcome (rng_state_t * Z) :=
  match fuel with
  | O => OutOfFuel
  | S fuel' =>
      let '(rng1, r) := rng_next rng in
      if threshold <=? r then Ok (rng1, r mod n)
      else reject_loop fuel' rng1 n threshold
  end.

End Uniform.

(** [rng_uniform(rng, n)]; [-n % n] is computed on [uint64_t]. *)
Definition rng_uniform (fuel : nat) (rng : rng_state_t) (n : Z)
    : outcome (rng_state_t * Z) :=
  if n =? 0 then Ok (rng, 0)
  else
    let threshold := wrap64 (- n) mod n in
    Uniform.reject_loop fuel rng n threshold.

(** The state of [rng_shuffle]; [draws] counts the calls of [rng_uniform]
    and is not a variable of the C code. *)
Record shuffle_state := mk_shuffle {
  sh_rng : rng_state_t;
  sh_arr : list Z;
  draws : Z
}.

Module Shuffle.

(** [for (uint64_t i = n - 1; i > 0; i--)]: the recursion is on the loop
    counter itself. *)
Fixpoint loop (fuel : nat) (i : nat) (st : shuffle_state) : outcome shuffle_state :=
  match i with
  | O => Ok st
  | S i' =>
      let iz := Z.of_nat i in
      '(rng1, j) ← rng_uniform fuel (sh_rng st) (wrap64 (iz + 1));
      tmp ← load (sh_arr st) iz;
      aj ← load (sh_arr st) j;
      arr1 ← store (sh_arr st) iz aj;
      arr2 ← store arr1 j tmp;
      loop fuel i' (mk_shuffle rng1 arr2 (draws st + 1))
  end.

End Shuffle.

(** [rng_shuffle(rng, arr, n)]; [n - 1] is computed on [uint64_t]. *)
Definition rng_shuffle (fuel : nat) (rng : rng_state_t) (arr : list Z) (n : Z)
    : outcome shuffle_state :=
  Shuffle.loop fuel (Z.to_nat (wrap64 (n - 1))) (mk_shuffle rng arr 0).

Definition derive_seed (master_seed n trial : Z) : Z :=
  let state := master_seed in
  let state := Z.lxor state (wrap64 (n * 0x517cc1b727220a95)) in
  let state := Z.lxor state (wrap64 (trial * 0x2545f4914f6cdd1d)) in
  snd (splitmix64 state).

(** ** permgen.c *)

Module Permgen.

Definition MAGIC : Z := 0x5045524D47454E31.

(** [malloc(N * sizeof(int32_t))]: the byte count wraps on [size_t], and the
    block holds as many [int32_t] as fit in it. *)
Definition alloc_row (N : Z) : list Z :=
  replicate (Z.to_nat (wrap64 (N * 4) / 4)) 0.

(** [for (uint64_t i = 0; i < N; i++) arr[i] = (int32_t)i;] *)
Fixpoint init_loop (todo : nat) (arr : list Z) (i : Z) : outcome (list Z) :=
  match todo with
  | O => Ok arr
  | S todo' =>
      arr1 ← store arr i (to_int32 i);
      init_loop todo' arr1 (i + 1)
  end.

(** The body of the trial loop of [generate_permutations]: the row of
    trial [t]. *)
Definition generate_row (fuel : nat) (master_seed N t : Z) : outcome (list Z) :=
  arr ← init_loop (Z.to_nat N) (alloc_row N) 0;
  let seed := derive_seed master_seed N t in
  let rng := rng_seed seed in
  st ← rng_shuffle fuel rng arr N;
  Ok (sh_arr st).

End Permgen.

(** ** IEEE 754 binary64 *)

#[local] Set Warnings "-inexact-float".

Module Double.

Open Scope float_scope.

#[global] Instance float_inhabited : Inhabited float := populate 0.

(** Conversion of an integer to [double], rounding to nearest even; exact
    for the [int] values and for the unsigned values below 2^53. *)
Definition of_Z (z : Z) : float := SF2Prim (binary_normalize prec emax z 0 false).

(** The integer part of a finite [double], rounded toward minus infinity,
    plus infinity and zero. *)
Definition floorZ (x : float) : option Z :=
  match Prim2SF x with
  | S754_zero _ => Some 0%Z
  | S754_finite s m e =>
      let v := if s then Z.neg m else Z.pos m in
      Some (if (0 <=? e)%Z then v * 2 ^ e else v / 2 ^ (- e))%Z
  | _ => None
  end.

Definition ceilZ (x : float) : option Z :=
  match Prim2SF x with
  | S754_zero _ => Some 0%Z
  | S754_finite s m e =>
      let v := if s then Z.neg m else Z.pos m in
      Some (if (0 <=? e)%Z then v * 2 ^ e else - ((- v) / 2 ^ (- e)))%Z
  | _ => None
  end.

Definition truncZ (x : float) : option Z :=
  match Prim2SF x with
  | S754_zero _ => Some 0%Z
  | S754_finite s m e =>
      let v := if s then Z.neg m else Z.pos m in
      Some (if (0 <=? e)%Z then v * 2 ^ e else Z.quot v (2 ^ (- e)))%Z
  | _ => None
  end.

Definition is_negative (x : float) : bool :=
  match Prim2SF x with
  | S754_zero s | S754_infinity s | S754_finite s _ _ => s
  | S754_nan => false
  end.

(** [floor] and [ceil] of [math.h]: infinities, NaN and zeros are returned
    as they are, and a zero result keeps the sign of the argument. *)
Definition floor (x : float) : float :=
  match floorZ x with
  | Some z => SF2Prim (binary_normalize prec emax z 0 (is_negative x))
  | None => x
  end.

Definition ceil (x : float) : float :=
  match ceilZ x with
  | Some z => SF2Prim (binary_normalize prec emax z 0 (is_negative x))
  | None => x
  end.

(** [(uint64_t)x]: the value is truncated toward zero; the conversion is
    undefined ([None]) when the truncated value is not below 2^64 or is
    negative, and for infinities and NaN. *)
Definition to_u64 (x : float) : option Z :=
  z ← truncZ x;
  if (0 <=? z)%Z && (z <? 2 ^ 64)%Z then Some z else None.

End Double.

(** ** The [pow] of the C library

    [pow] is not part of the sources. The generators take it as a
    parameter; [Libm.pow_reference x y] gives, for the arguments the
    generators pass, a reference value and the values a [pow] with an error
    below one unit in the last place can return there. *)

(** The constants of [gaps_lee] and [gaps_skean]; a decimal literal denotes
    the nearest [double], as in C. *)
Definition GAMMA : float := 2.243609061420001%float.
Definition SKEAN_A : float := 4.0816%float.
Definition SKEAN_B : float := 8.5714%float.
Definition SKEAN_C : float := 2.2449%float.

Module Libm.

Open Scope float_scope.

(** The exact dyadic [mk * 2^ek] compared with a finite [double]. *)
Definition compare_exact (r : float) (mk ek : Z) : option comparison :=
  match Prim2SF r with
  | S754_finite false m e =>
      let lo := Z.min e ek in
      Some (Z.pos m * 2 ^ (e - lo) ?= mk * 2 ^ (ek - lo))%Z
  | _ => None
  end.

(** [x^k] for an integer [k >= 0]: the nearest [double], and the one or two
    [double]s that enclose the exact power. *)
Definition pow_int (x : float) (k : Z) : option (float * list float) :=
  match Prim2SF x with
  | S754_finite false m e =>
      let mk := (Z.pos m ^ k)%Z in
      let ek := (e * k)%Z in
      let r := SF2Prim (binary_normalize prec emax mk ek false) in
      match compare_exact r mk ek with
      | Some Eq => Some (r, [r])
      | Some Lt => Some (r, [r; next_up r])
      | Some Gt => Some (r, [next_down r; r])
      | None => None
      end
  | _ => None
  end.

(** The integer [k] in [0, 64] that a [double] exponent stands for. *)
Definition small_exponent (y : float) : option Z :=
  match Double.truncZ y with
  | Some k =>
      if (0 <=? k)%Z && (k <=? 64)%Z && PrimFloat.Leibniz.eqb (Double.of_Z k) y
      then Some k else None
  | None => None
  end.

(** Values of [pow(8.5714, k / 2.2449)] for [k = 0 .. 31], as the GNU C
    library returns them. *)
Definition skean_pow_table : list float :=
    [0x1.0000000000000p+0;
     0x1.4d4e100d631b5p+1;
     0x1.b1f42d909cff1p+2;
     0x1.1a7f797079435p+4;
     0x1.6fcdf5850b6f2p+5;
     0x1.dedf102ef99acp+6;
     0x1.37bd1705825c2p+8;
     0x1.95e0061b4cf9ap+9;
     0x1.083815d34caa7p+11;
     0x1.5801860bd39b8p+12;
     0x1.bfe2e1664f7d6p+13;
     0x1.239159342e493p+15;
     0x1.7b9cf99a62f04p+16;
     0x1.ee3ef24f8944fp+17;
     0x1.41bf4bae88bcfp+19;
     0x1.a2e7f1e7df0c5p+20;
     0x1.10b3b94d5c6d7p+22;
     0x1.630cefe595143p+23;
     0x1.ce4418421af9ep+24;
     0x1.2cedc4a4e7946p+26;
     0x1.87cd0c1b04589p+27;
     0x1.fe1d31ca22baap+28;
     0x1.4c13c352cd6c2p+30;
     0x1.b05af7ead2362p+31;
     0x1.197515a8243cdp+33;
     0x1.6e73207e59a1ap+34;
     0x1.dd1b7f529cd38p+35;
     0x1.36972074f61d9p+37;
     0x1.94614abdb7b9ap+38;
     0x1.073eee9c63f94p+40;
     0x1.56bd220fd4b79p+41;
     0x1.be3c886cb6efep+42].

Fixpoint skean_lookup (table : list float) (k : Z) (y : float) : option float :=
  match table with
  | [] => None
  | v :: table' =>
      if PrimFloat.Leibniz.eqb (Double.of_Z k / SKEAN_C) y then Some v
      else skean_lookup table' (k + 1)%Z y
  end.

Definition pow_reference (x y : float) : option (float * list float) :=
  if PrimFloat.Leibniz.eqb x 9.0 || PrimFloat.Leibniz.eqb x 4.0
     || PrimFloat.Leibniz.eqb x GAMMA then
    match small_exponent y with
    | Some k => pow_int x k
    | None => None
    end
  else if PrimFloat.Leibniz.eqb x SKEAN_B then
    if PrimFloat.Leibniz.eqb y 0 then Some (1, [1])
    else
      match skean_lookup skean_pow_table 0 y with
      | Some v => Some (v, [next_down v; v; next_up v])
      | None => None
      end
  else None.

(** A [pow] that stays within the admissible values on the reference
    arguments. *)
Definition pow_faithful (pow : float -> float -> float) : Prop :=
  forall x y v cands, pow_reference x y = Some (v, cands) -> In (pow x y) cands.

(** The [pow] that returns the reference values. *)
Definition pow_ref (x y : float) : float :=
  match pow_reference x y with
  | Some (v, _) => v
  | None => nan
  end.

End Libm.

(** ** gaps_baselines.h

    A generator returns [None] where the C code has undefined behaviour (a
    conversion to [uint64_t] out of range, a shift by 64 or more, a read of
    [gaps[-1]]) and, for [gaps_skean], where the fuel is exhausted. *)

Module Gaps.

Open Scope float_scope.

Definition ciura_base : list Z := [1; 4; 10; 23; 57; 132; 301; 701]%Z.
Definition ciura_ext_base : list Z := [1; 4; 10; 23; 57; 132; 301; 701; 1750]%Z.

(** [for (i = 0; i < base_len && base[i] <= max_gap; i++)
       seq->gaps[seq->num_gaps++] = base[i];] *)
Fixpoint copy_base (base : list Z) (max_gap : Z) (gaps : list Z) : list Z :=
  match base with
  | [] => gaps
  | b :: base' =>
      if (b <=? max_gap)%Z then copy_base base' max_gap (gaps ++ [b]) else gaps
  end.

(** The number of iterations left to a loop guarded by
    [seq->num_gaps < MAX_GAPS] whose every iteration appends or leaves. *)
Definition room (gaps : list Z) : nat := Z.to_nat (MAX_GAPS - Z.of_nat (length gaps)).

(** [while (seq->num_gaps < MAX_GAPS)]: the 2.25x extension. *)
Fixpoint extend_loop (todo : nat) (max_gap : Z) (gaps : list Z) : option (list Z) :=
  match todo with
  | O => Some gaps
  | S todo' =>
      prev ← last gaps;
      next ← Double.to_u64 (Double.of_Z prev * 2.25);
      if (max_gap <? next)%Z || (next <=? prev)%Z then Some gaps
      else extend_loop todo' max_gap (gaps ++ [next])
  end.

Definition tokuda_gap (pow : float -> float -> float) (k : Z) : option Z :=
  let num := pow 9.0 (Double.of_Z k) - pow 4.0 (Double.of_Z k) in
  let den := 5.0 * pow 4.0 (Double.of_Z (k - 1)) in
  Double.to_u64 (Double.ceil (num / den)).

Definition lee_gap (pow : float -> float -> float) (k : Z) : option Z :=
  let gap_d := (pow GAMMA (Double.of_Z k) - 1.0) / (GAMMA - 1.0) in
  Double.to_u64 (Double.floor gap_d).

Definition skean_gap (pow : float -> float -> float) (k : Z) : option Z :=
  let gap_d := SKEAN_A * pow SKEAN_B (Double.of_Z k / SKEAN_C) in
  Double.to_u64 (Double.floor gap_d).

(** [(uint64_t)1 << s], undefined for [s] outside [0, 64). *)
Definition shl1 (s : Z) : option Z :=
  if (0 <=? s)%Z && (s <? 64)%Z then Some (wrap64 (Z.shiftl 1 s)) else None.

Definition sedgewick_gap (k : Z) : option Z :=
  a ← shl1 (2 * k);
  b ← shl1 (k - 1);
  Some (wrap64 (a + wrap64 (3 * b) + 1)).

(** The loop of [gaps_tokuda] and of [gaps_lee], which differ in the
    formula [gap_of]: a candidate that does not increase is bumped to the
    previous gap plus one. *)
Fixpoint bump_loop (gap_of : Z -> option Z) (todo : nat) (k : Z) (max_gap : Z)
    (gaps : list Z) : option (list Z) :=
  match todo with
  | O => Some gaps
  | S todo' =>
      gap ← gap_of k;
      if (max_gap <? gap)%Z then Some gaps
      else
        match last gaps with
        | Some prev =>
            if (gap <=? prev)%Z then
              let gap := wrap64 (prev + 1) in
              if (max_gap <? gap)%Z then Some gaps
              else bump_loop gap_of todo' (k + 1) max_gap (gaps ++ [gap])
            else bump_loop gap_of todo' (k + 1) max_gap (gaps ++ [gap])
        | None => bump_loop gap_of todo' (k + 1) max_gap (gaps ++ [gap])
        end
  end.

(** The loop of [gaps_skean]: a candidate that does not increase is skipped
    by [continue], so an iteration need not append. *)
Fixpoint skip_loop (gap_of : Z -> option Z) (fuel : nat) (k : Z) (max_gap : Z)
    (gaps : list Z) : option (list Z) :=
  match fuel with
  | O => None
  | S fuel' =>
      if (Z.of_nat (length gaps) <? MAX_GAPS)%Z then
        gap ← gap_of k;
        if (max_gap <? gap)%Z then Some gaps
        else
          prev ← last gaps;
          if (gap <=? prev)%Z then skip_loop gap_of fuel' (k + 1) max_gap gaps
          else skip_loop gap_of fuel' (k + 1) max_gap (gaps ++ [gap])
      else Some gaps
  end.

(** The loop of [gaps_sedgewick86]. *)
Fixpoint plain_loop (todo : nat) (k : Z) (max_gap : Z) (gaps : list Z)
    : option (list Z) :=
  match todo with
  | O => Some gaps
  | S todo' =>
      gap ← sedgewick_gap k;
      if (max_gap <? gap)%Z then Some gaps
      else plain_loop todo' (k + 1) max_gap (gaps ++ [gap])
  end.

End Gaps.

Definition gaps_ciura (max_gap : Z) : option gap_sequence_t :=
  let gaps := Gaps.copy_base Gaps.ciura_base max_gap [] in
  gaps ← Gaps.extend_loop (Gaps.room gaps) max_gap gaps;
  Some (mk_gap_sequence "Ciura" gaps).

Definition gaps_ciura_extended (max_gap : Z) : option gap_sequence_t :=
  let gaps := Gaps.copy_base Gaps.ciura_ext_base max_gap [] in
  gaps ← Gaps.extend_loop (Gaps.room gaps) max_gap gaps;
  Some (mk_gap_sequence "Ciura-Extended" gaps).

Definition gaps_tokuda (pow : float -> float -> float) (max_gap : Z)
    : option gap_sequence_t :=
  gaps ← Gaps.bump_loop (Gaps.tokuda_gap pow) (Gaps.room []) 1 max_gap [];
  Some (mk_gap_sequence "Tokuda" gaps).

Definition gaps_lee (pow : float -> float -> float) (max_gap : Z)
    : option gap_sequence_t :=
  gaps ← Gaps.bump_loop (Gaps.lee_gap pow) (Gaps.room []) 1 max_gap [];
  Some (mk_gap_sequence "Lee-2021" gaps).

Definition gaps_skean (pow : float -> float -> float) (fuel : nat) (max_gap : Z)
    : option gap_sequence_t :=
  gaps ← Gaps.skip_loop (Gaps.skean_gap pow) fuel 0 max_gap [1];
  Some (mk_gap_sequence "Skean-2023" gaps).

Definition gaps_sedgewick86 (max_gap : Z) : option gap_sequence_t :=
  gaps ← Gaps.plain_loop (Gaps.room [1]) 1 max_gap [1];
  Some (mk_gap_sequence "Sedgewick-1986" gaps).

(** [gaps_all_baselines]: the six sequences in the order of [seqs[0 .. 5]]. *)
Definition gaps_all_baselines (pow : float -> float -> float) (fuel : nat)
    (max_gap : Z) : list (option gap_sequence_t) :=
  [ gaps_ciura max_gap; gaps_ciura_extended max_gap; gaps_tokuda pow max_gap;
    gaps_lee pow max_gap; gaps_skean pow fuel max_gap; gaps_sedgewick86 max_gap ].

(** ** The dataset file and its loaders *)

(** A file is the list of its bytes; a file system maps a path to the file
    it holds, if any. *)
Definition file_system : Type := string -> option (list Z).

Module File.

(** The bytes of a [w]-byte little-endian integer, and the value they hold. *)
Fixpoint encode_le (w : nat) (z : Z) : list Z :=
  match w with
  | O => []
  | S w' => z mod 256 :: encode_le w' (z / 256)
  end.

Fixpoint decode_le (bytes : list Z) : Z :=
  match bytes with
  | [] => 0
  | b :: bytes' => b + 256 * decode_le bytes'
  end.

(** [fread(&x, sizeof(uint64_t), 1, f)]: the value read, if eight bytes are
    left, and the rest of the stream. *)
Definition fread_u64 (f : list Z) : option Z * list Z :=
  if (8 <=? length f)%nat then (Some (decode_le (take 8 f)), drop 8 f)
  else (None, []).

(** [fread(data, sizeof(int32_t), total, f)]: the items read, at most
    [total] and as many as the stream holds whole. *)
Fixpoint fread_i32 (total : nat) (f : list Z) : list Z :=
  match total with
  | O => []
  | S total' =>
      if (4 <=? length f)%nat then
        to_int32 (decode_le (take 4 f)) :: fread_i32 total' (drop 4 f)
      else []
  end.

(** [snprintf(path, sizeof(path), "%s/perm_%lu.bin", dir, N)] with
    [char path[1024]]. *)
Definition perm_path (dir : string) (N : Z) : string :=
  snprintf "" 1024 (dir ++ "/perm_" ++ fmt_lu N ++ ".bin").

(** The header [generate_permutations] writes, followed by the rows. *)
Definition header (N trials master_seed : Z) : list Z :=
  encode_le 8 Permgen.MAGIC ++ encode_le 8 N ++ encode_le 8 trials
  ++ encode_le 8 master_seed.

Definition payload (rows : list (list Z)) : list Z :=
  concat (map (fun row => concat (map (fun x => encode_le 4 (x mod 2 ^ 32)) row)) rows).

End File.

(** What a loader comes to: [return 0] with the dataset filled in,
    [return -1], or the use of a value that was never read (undefined
    behaviour in C). *)
Inductive load_result (D : Type) : Type :=
  | Loaded (ds : D)
  | LoadFailed
  | LoadUndefined.
Arguments Loaded {D} ds.
Arguments LoadFailed {D}.
Arguments LoadUndefined {D}.

(** [perm_dataset_t] of [validate.c], [full_bench.c] and
    [all_baselines_bench.c]. *)
Record perm_dataset_t := mk_dataset {
  ds_N : Z;
  ds_trials : Z;
  ds_data : list Z
}.

Module Bench.

Definition MAGIC : Z := 0x5045524D47454E31.

(** [perm_dataset_t] of [bench.c], which keeps the master seed. *)
Record perm_dataset_t := mk_dataset {
  ds_N : Z;
  ds_trials : Z;
  ds_master_seed : Z;
  ds_data : list Z
}.

(** [load_dataset] of [bench.c]; [malloc_ok size] tells whether [malloc]
    returns a block. *)
Definition load_dataset (fs : file_system) (malloc_ok : Z -> bool)
    (perms_dir : string) (N : Z) : load_result perm_dataset_t :=
  match fs (File.perm_path perms_dir N) with
  | None => LoadFailed
  | Some f =>
      match File.fread_u64 f with
      | (None, _) => LoadFailed
      | (Some magic, f) =>
          if negb (magic =? MAGIC) then LoadFailed
          else
            match File.fread_u64 f with
            | (None, _) => LoadFailed
            | (Some stored_N, f) =>
                match File.fread_u64 f with
                | (None, _) => LoadFailed
                | (Some trials, f) =>
                    match File.fread_u64 f with
                    | (None, _) => LoadFailed
                    | (Some master_seed, f) =>
                        if negb (stored_N =? N) then LoadFailed
                        else
                          let total := wrap64 (trials * stored_N) in
                          if negb (malloc_ok (wrap64 (total * 4))) then LoadFailed
                          else
                            let data := File.fread_i32 (Z.to_nat total) f in
                            if negb (Z.of_nat (length data) =? total) then LoadFailed
                            else Loaded (mk_dataset stored_N trials master_seed data)
                    end
                end
            end
      end
  end.

End Bench.

Module Validate.

Definition MAGIC : Z := 0x5045524D47454E31.

(** [load_dataset] of [validate.c]: no result of [fread] is tested, so a
    short file leaves [magic], [ds->N] or [ds->trials] unread. *)
Definition load_dataset (fs : file_system) (malloc_ok : Z -> bool)
    (dir : string) (N : Z) : load_result perm_dataset_t :=
  match fs (File.perm_path dir N) with
  | None => LoadFailed
  | Some f =>
      match File.fread_u64 f with
      | (None, _) => LoadUndefined
      | (Some magic, f) =>
          if negb (magic =? MAGIC) then LoadFailed
          else
            match File.fread_u64 f with
            | (None, _) => LoadUndefined
            | (Some stored_N, f) =>
                match File.fread_u64 f with
                | (None, _) => LoadUndefined
                | (Some trials, f) =>
                    let f := snd (File.fread_u64 f) in
                    let total := wrap64 (trials * stored_N) in
                    if negb (malloc_ok (wrap64 (total * 4))) then LoadFailed
                    else
                      let data := File.fread_i32 (Z.to_nat total) f in
                      Loaded (mk_dataset stored_N trials data)
                end
            end
      end
  end.

End Validate.

Module FullBench.

Definition MAGIC : Z := 0x5045524D47454E31.

(** [load_dataset] of [full_bench.c], the same text as in [validate.c]. *)
Definition load_dataset (fs : file_system) (malloc_ok : Z -> bool)
    (dir : string) (N : Z) : load_result perm_dataset_t :=
  match fs (File.perm_path dir N) with
  | None => LoadFailed
  | Some f =>
      match File.fread_u64 f with
      | (None, _) => LoadUndefined
      | (Some magic, f) =>
          if negb (magic =? MAGIC) then LoadFailed
          else
            match File.fread_u64 f with
            | (None, _) => LoadUndefined
            | (Some stored_N, f) =>
                match File.fread_u64 f with
                | (None, _) => LoadUndefined
                | (Some trials, f) =>
                    let f := snd (File.fread_u64 f) in
                    let total := wrap64 (trials * stored_N) in
                    if negb (malloc_ok (wrap64 (total * 4))) then LoadFailed
                    else
                      let data := File.fread_i32 (Z.to_nat total) f in
                      Loaded (mk_dataset stored_N trials data)
                end
            end
      end
  end.

End FullBench.

Module AllBaselines.

Definition MAGIC : Z := 0x5045524D47454E31.

(** [load_dataset] of [all_baselines_bench.c]: the result of [malloc] is
    not tested either, so a failed allocation is read into. *)
Definition load_dataset (fs : file_system) (malloc_ok : Z -> bool)
    (dir : string) (N : Z) : load_result perm_dataset_t :=
  match fs (File.perm_path dir N) with
  | None => LoadFailed
  | Some f =>
      match File.fread_u64 f with
      | (None, _) => LoadUndefined
      | (Some magic, f) =>
          if negb (magic =? MAGIC) then LoadFailed
          else
            match File.fread_u64 f with
            | (None, _) => LoadUndefined
            | (Some stored_N, f) =>
                match File.fread_u64 f with
                | (None, _) => LoadUndefined
                | (Some trials, f) =>
                    let f := snd (File.fread_u64 f) in
                    let total := wrap64 (trials * stored_N) in
                    if negb (malloc_ok (wrap64 (total * 4))) then LoadUndefined
                    else
                      let data := File.fread_i32 (Z.to_nat total) f in
                      Loaded (mk_dataset stored_N trials data)
                end
            end
      end
  end.

End AllBaselines.

(** ** Statistics of the two drivers *)

Module Stats.

Open Scope float_scope.

(** [for (i = 0; i < trials; i++) sum += counts[i];] on [double]. *)
Fixpoint sum_counts (todo : nat) (counts : list Z) (i : Z) (sum : float) : float :=
  match todo with
  | O => sum
  | S todo' =>
      sum_counts todo' counts (i + 1) (sum + Double.of_Z (counts !!! Z.to_nat i))
  end.

(** [for (i = 0; i < trials; i++) { double diff = counts[i] - mean;
       var += diff * diff; }] *)
Fixpoint sum_sq_counts (todo : nat) (counts : list Z) (mean : float) (i : Z)
    (var : float) : float :=
  match todo with
  | O => var
  | S todo' =>
      let diff := Double.of_Z (counts !!! Z.to_nat i) - mean in
      sum_sq_counts todo' counts mean (i + 1) (var + diff * diff)
  end.

(** The same two loops over an array of [double]. *)
Fixpoint sum_doubles (todo : nat) (xs : list float) (i : Z) (sum : float) : float :=
  match todo with
  | O => sum
  | S todo' => sum_doubles todo' xs (i + 1) (sum + xs !!! Z.to_nat i)
  end.

Fixpoint sum_sq_doubles (todo : nat) (xs : list float) (mean : float) (i : Z)
    (var : float) : float :=
  match todo with
  | O => var
  | S todo' =>
      let diff := xs !!! Z.to_nat i - mean in
      sum_sq_doubles todo' xs mean (i + 1) (var + diff * diff)
  end.

(** [for (t = 0; t < trials; t++) total += counts[t];] on [uint64_t]. *)
Fixpoint total_counts (todo : nat) (counts : list Z) (t : Z) (total : Z) : Z :=
  match todo with
  | O => total
  | S todo' =>
      total_counts todo' counts (t + 1) (wrap64 (total + counts !!! Z.to_nat t))
  end.

(** The loop of [benchmark_sequence] that also tracks the least and the
    greatest count. *)
Fixpoint total_min_max (todo : nat) (counts : list Z) (t : Z)
    (acc : Z * float * float) : Z * float * float :=
  match todo with
  | O => acc
  | S todo' =>
      let '(total, lo, hi) := acc in
      let c := counts !!! Z.to_nat t in
      let total := wrap64 (total + c) in
      let lo := if Double.of_Z c <? lo then Double.of_Z c else lo in
      let hi := if hi <? Double.of_Z c then Double.of_Z c else hi in
      total_min_max todo' counts (t + 1) (total, lo, hi)
  end.

End Stats.

Module BenchStats.

Open Scope float_scope.

(** [bench_result_t] of [bench.c]. *)
Record bench_result_t := mk_result {
  sequence_name : string;
  N : Z;
  trials : Z;
  total_comparisons : Z;
  mean_comparisons : float;
  stddev : float;
  stderr_val : float;
  min_comparisons : float;
  max_comparisons : float;
  total_moves : Z;
  mean_moves : float;
  moves_stddev : float;
  mean_runtime_us : float;
  runtime_stddev_us : float;
  runtime_stderr_us : float
}.

(** The trial loop of [benchmark_sequence]: every row is copied and sorted
    by [shellsort_stats]; the counts of the trials, in trial order. *)
Fixpoint run_trials (todo : nat) (ds : Bench.perm_dataset_t) (seq : gap_sequence_t)
    (t : Z) : option (list Z * list Z) :=
  match todo with
  | O => Some ([], [])
  | S todo' =>
      let n := Bench.ds_N ds in
      let arr := take (Z.to_nat n) (drop (Z.to_nat (t * n)) (Bench.ds_data ds)) in
      '(_, stats) ← shellsort_stats arr n seq;
      '(comps, movs) ← run_trials todo' ds seq (t + 1);
      Some (comparisons stats :: comps, moves stats :: movs)
  end.

(** The aggregation of [benchmark_sequence], from "Compute comparison
    statistics" to its end. *)
Definition summarize (seq_name : string) (n trials : Z)
    (comp_counts move_counts : list Z) (runtimes_us : list float) : bench_result_t :=
  let todo := Z.to_nat trials in
  let c0 := Double.of_Z (comp_counts !!! 0%nat) in
  let '(total_comparisons, min_comparisons, max_comparisons) :=
    Stats.total_min_max todo comp_counts 0 (0%Z, c0, c0) in
  let mean_comparisons := Double.of_Z total_comparisons / Double.of_Z trials in
  let sum_sq := Stats.sum_sq_counts todo comp_counts mean_comparisons 0 0 in
  let stddev := sqrt (sum_sq / Double.of_Z trials) in
  let stderr_val := stddev / sqrt (Double.of_Z trials) in
  let total_moves := Stats.total_counts todo move_counts 0 0 in
  let mean_moves := Double.of_Z total_moves / Double.of_Z trials in
  let sum_sq := Stats.sum_sq_counts todo move_counts mean_moves 0 0 in
  let moves_stddev := sqrt (sum_sq / Double.of_Z trials) in
  let runtime_sum := Stats.sum_doubles todo runtimes_us 0 0 in
  let mean_runtime_us := runtime_sum / Double.of_Z trials in
  let sum_sq := Stats.sum_sq_doubles todo runtimes_us mean_runtime_us 0 0 in
  let runtime_stddev_us := sqrt (sum_sq / Double.of_Z trials) in
  let runtime_stderr_us := runtime_stddev_us / sqrt (Double.of_Z trials) in
  mk_result seq_name n trials total_comparisons mean_comparisons stddev stderr_val
    min_comparisons max_comparisons total_moves mean_moves moves_stddev
    mean_runtime_us runtime_stddev_us runtime_stderr_us.

(** [benchmark_sequence] of [bench.c]; the measured run times are given. *)
Definition benchmark_sequence (ds : Bench.perm_dataset_t) (seq : gap_sequence_t)
    (runtimes_us : list float) : option bench_result_t :=
  '(comp_counts, move_counts) ← run_trials (Z.to_nat (Bench.ds_trials ds)) ds seq 0;
  Some (summarize (name seq) (Bench.ds_N ds) (Bench.ds_trials ds)
          comp_counts move_counts runtimes_us).

End BenchStats.

Module FullStats.

Open Scope float_scope.

(** [detailed_stats_t] of [full_bench.c]. *)
Record detailed_stats_t := mk_stats {
  comparisons : list Z;
  runtimes_us : list float;
  trials : Z;
  mean_comps : float;
  stddev_comps : float;
  stderr_comps : float;
  ci95_low : float;
  ci95_high : float;
  mean_runtime : float;
  stddev_runtime : float
}.

(** The critical value of [compute_stats]: three [if]s in a row, the last
    that applies wins. *)
Definition t_val (trials : Z) : float :=
  let t := 1.96 in
  let t := if (trials <? 30)%Z then 2.045 else t in
  let t := if (trials <? 20)%Z then 2.093 else t in
  let t := if (trials <? 10)%Z then 2.262 else t in
  t.

(** [compute_stats]; [stats->trials - 1] is computed on [uint64_t]. *)
Definition compute_stats (stats : detailed_stats_t) : detailed_stats_t :=
  let todo := Z.to_nat (trials stats) in
  let n := Double.of_Z (trials stats) in
  let sum := Stats.sum_counts todo (comparisons stats) 0 0 in
  let mean_comps := sum / n in
  let var := Stats.sum_sq_counts todo (comparisons stats) mean_comps 0 0 in
  let stddev_comps := sqrt (var / Double.of_Z (wrap64 (trials stats - 1))) in
  let stderr_comps := stddev_comps / sqrt n in
  let ci95_low := mean_comps - t_val (trials stats) * stderr_comps in
  let ci95_high := mean_comps + t_val (trials stats) * stderr_comps in
  let sum := Stats.sum_doubles todo (runtimes_us stats) 0 0 in
  let mean_runtime := sum / n in
  let var := Stats.sum_sq_doubles todo (runtimes_us stats) mean_runtime 0 0 in
  let stddev_runtime := sqrt (var / Double.of_Z (wrap64 (trials stats - 1))) in
  mk_stats (comparisons stats) (runtimes_us stats) (trials stats)
    mean_comps stddev_comps stderr_comps ci95_low ci95_high
    mean_runtime stddev_runtime.

(** The first loop of [paired_test]: [diffs[i]] and their sum. *)
Fixpoint diff_loop (todo : nat) (a b : list Z) (i : Z) (diffs : list float)
    (sum_diff : float) : list float * float :=
  match todo with
  | O => (diffs, sum_diff)
  | S todo' =>
      let d := Double.of_Z (a !!! Z.to_nat i) - Double.of_Z (b !!! Z.to_nat i) in
      diff_loop todo' a b (i + 1) (diffs ++ [d]) (sum_diff + d)
  end.

(** [paired_test(a, b, &mean_diff, &t_stat, &p_approx)]; [erf] is the
    error function of the C library. *)
Definition paired_test (erf : float -> float) (a b : detailed_stats_t)
    : float * float * float :=
  let n := if (trials a <? trials b)%Z then trials a else trials b in
  let '(diffs, sum_diff) :=
    diff_loop (Z.to_nat n) (comparisons a) (comparisons b) 0 [] 0 in
  let mean_diff := sum_diff / Double.of_Z n in
  let var := Stats.sum_sq_doubles (Z.to_nat n) diffs mean_diff 0 0 in
  let se := sqrt (var / Double.of_Z (wrap64 (n - 1))) / sqrt (Double.of_Z n) in
  let t_stat := mean_diff / se in
  let z := abs t_stat in
  let p_approx := 2.0 * (1.0 - 0.5 * (1.0 + erf (z / sqrt 2.0))) in
  (mean_diff, t_stat, p_approx).

(** A record that holds the per-trial counts of one sequence, before
    [compute_stats] has filled the rest in. *)
Definition of_counts (counts : list Z) (times : list float) : detailed_stats_t :=
  mk_stats counts times (Z.of_nat (length counts)) 0 0 0 0 0 0 0.

End FullStats.

(** ** full_bench.c: the sequences trimmed to the size *)

Module Trim.

(** [while (s.num_gaps > 0 && s.gaps[s.num_gaps-1] >= N) s.num_gaps--;] of
    [main] in [full_bench.c]: the value of [num_gaps] the loop ends with. *)
Fixpoint trim_loop (num_gaps : nat) (seq : gap_sequence_t) (N : Z) : nat :=
  match num_gaps with
  | O => O
  | S g' => if N <=? gaps seq !!! g' then trim_loop g' seq N else num_gaps
  end.

End Trim.

(** [gap_sequence_copy(dst, src)]: [memcpy] of the whole structure. *)
Definition gap_sequence_copy (src : gap_sequence_t) : gap_sequence_t := src.

(** The copy "trimmed to size" that [main] of [full_bench.c] benchmarks. *)
Definition trim_to_size (seq : gap_sequence_t) (N : Z) : gap_sequence_t :=
  let s := gap_sequence_copy seq in
  mk_gap_sequence (name s) (take (Trim.trim_loop (length (gaps s)) s N) (gaps s)).

(** ** gaps_candidate.h

    [gaps_evolved], which [gaps_baselines.h] defines with the same text. *)

Module Candidate.

Definition evolved_gaps : list Z :=
  [1; 4; 10; 23; 57; 132; 301; 701;
   1577; 3524; 7705; 17961; 40056; 94681; 199137; 460316; 1035711; 3236462].

End Candidate.

Definition gaps_evolved (max_gap : Z) : option gap_sequence_t :=
  let gaps := Gaps.copy_base Candidate.evolved_gaps max_gap [] in
  gaps ← Gaps.extend_loop (Gaps.room gaps) max_gap gaps;
  Some (mk_gap_sequence "Evolved" gaps).

(** ** gaps_baselines.h: the ratio generators *)

Module Ratio.

Open Scope float_scope.

(** [strncpy(seq->name, name, sizeof(seq->name) - 1)] into the 64-byte
    field: a name shorter than 63 characters is stored with its
    terminator; a longer one fills the 63 bytes and leaves the field
    without a terminator of its own ([None]). *)
Definition strncpy_name (name : string) : option string :=
  if (String.length name <? 63)%nat then Some name else None.

(** [while (seq->num_gaps < MAX_GAPS && gap <= max_gap)] of [gaps_ratio]
    and [gaps_split_ratio], which differ in the ratio they apply to a gap. *)
Fixpoint ratio_loop (ratio_of : Z -> float) (todo : nat) (max_gap : Z) (gap : Z)
    (gaps : list Z) : option (list Z) :=
  match todo with
  | O => Some gaps
  | S todo' =>
      if (gap <=? max_gap)%Z then
        let gaps := gaps ++ [gap] in
        next ← Double.to_u64 (Double.ceil (Double.of_Z gap * ratio_of gap));
        let next := if (next <=? gap)%Z then wrap64 (gap + 1) else next in
        ratio_loop ratio_of todo' max_gap next gaps
      else Some gaps
  end.

End Ratio.

(** [gaps_ratio(seq, ratio, max_gap, name)]; [name] is [None] for a null
    pointer, and [fmt_f p x] is the text [printf] gives [x] for [%.pf]. *)
Definition gaps_ratio (fmt_f : nat -> float -> string) (ratio : float) (max_gap : Z)
    (name : option string) : option gap_sequence_t :=
  name ← match name with
         | Some s => Ratio.strncpy_name s
         | None => Some (snprintf "" 64 ("Ratio-" ++ fmt_f 6%nat ratio))
         end;
  gaps ← Ratio.ratio_loop (fun _ => ratio) (Gaps.room []) max_gap 1 [];
  Some (mk_gap_sequence name gaps).

(** [gaps_split_ratio(seq, r1, r2, threshold, max_gap, name)]. *)
Definition gaps_split_ratio (fmt_f : nat -> float -> string) (r1 r2 : float)
    (threshold max_gap : Z) (name : option string) : option gap_sequence_t :=
  name ← match name with
         | Some s => Ratio.strncpy_name s
         | None =>
             Some (snprintf "" 64
                     ("Split-" ++ fmt_f 3%nat r1 ++ "-" ++ fmt_f 3%nat r2 ++ "@"
                      ++ fmt_lu threshold))
         end;
  gaps ← Ratio.ratio_loop (fun gap => if gap <? threshold then r1 else r2)
           (Gaps.room []) max_gap 1 [];
  Some (mk_gap_sequence name gaps).

(** ** permgen.c: the command line

    [strtoull] and [strdup] are not part of the sources. [strtoull tok]
    gives the value [strtoull(tok, &end, 0)] returns and the text [end]
    points to; [strdup_ok str] tells whether [strdup(str)] returns a
    copy. *)

Module Args.

Definition MAX_SIZES : Z := 32.

(** [config_t]; the two arrays have [MAX_SIZES] elements. *)
Record config_t := mk_config {
  out_dir : string;
  master_seed : Z;
  sizes : list Z;
  trials : list Z;
  num_sizes : Z
}.

(** [strtok(copy, ",")] and then [strtok(NULL, ",")]: the tokens of the
    text, the runs of characters other than the comma. [cur] is the token
    being read. *)
Fixpoint tokens_from (s : string) (cur : string) : list string :=
  match s with
  | EmptyString => if String.eqb cur "" then [] else [cur]
  | String c s' =>
      if Ascii.eqb c ","%char then
        if String.eqb cur "" then tokens_from s' "" else cur :: tokens_from s' ""
      else tokens_from s' (cur ++ String c "")
  end.

Definition strtok (s : string) : list string := tokens_from s "".

(** [*end != '\0' && *end != '\n'] *)
Definition trailing_garbage (rest : string) : bool :=
  match rest with
  | EmptyString => false
  | String c _ => negb (Ascii.eqb c (ascii_of_nat 10))
  end.

(** [while (tok && *count < max)] of [parse_uint64_list]: the value
    returned, the array and the count. The value of a token is stored
    before the token is checked. *)
Fixpoint list_loop (strtoull : string -> Z * string) (toks : list string) (max : Z)
    (out : list Z) (count : Z) : Z * list Z * Z :=
  match toks with
  | [] => (0, out, count)
  | tok :: toks' =>
      if count <? max then
        let '(value, rest) := strtoull tok in
        let out := <[Z.to_nat count := value]> out in
        if trailing_garbage rest then (-1, out, count)
        else list_loop strtoull toks' max out (count + 1)
      else (0, out, count)
  end.

(** [parse_uint64_list(str, out, max, &count)] *)
Definition parse_uint64_list (strtoull : string -> Z * string)
    (strdup_ok : string -> bool) (str : string) (out : list Z) (max : Z)
    : Z * list Z * Z :=
  if negb (strdup_ok str) then (-1, out, 0)
  else list_loop strtoull (strtok str) max out 0.

(** What [parse_args] comes to: [return 0] with the configuration,
    [return -1], or [exit(0)] after the usage text. *)
Inductive parse_result : Type :=
  | Parsed (cfg : config_t)
  | ParseFailed
  | Exited.

(** [strncpy(cfg->out_dir, arg, sizeof(cfg->out_dir) - 1)] into the
    512-byte field, whose last byte stays 0 after the [memset]. *)
Definition strncpy_out_dir (arg : string) : string := String.substring 0 511 arg.

(** [for (int i = 1; i < argc; i++)] of [parse_args], on the arguments
    that are left, and the test after it. An option takes its value with
    [argv[++i]] when [i + 1 < argc]; as the last argument it is an unknown
    argument. *)
Fixpoint args_loop (strtoull : string -> Z * string) (strdup_ok : string -> bool)
    (args : list string) (cfg : config_t) : parse_result :=
  match args with
  | [] =>
      if String.eqb (out_dir cfg) "" || (num_sizes cfg =? 0) then ParseFailed
      else Parsed cfg
  | arg :: args' =>
      let no_option :=
        if String.eqb arg "--help" || String.eqb arg "-h" then Exited
        else ParseFailed in
      match args' with
      | [] => no_option
      | value :: args'' =>
          if String.eqb arg "--out" then
            args_loop strtoull strdup_ok args''
              (mk_config (strncpy_out_dir value) (master_seed cfg) (sizes cfg)
                 (trials cfg) (num_sizes cfg))
          else if String.eqb arg "--seed" then
            args_loop strtoull strdup_ok args''
              (mk_config (out_dir cfg) (fst (strtoull value)) (sizes cfg)
                 (trials cfg) (num_sizes cfg))
          else if String.eqb arg "--sizes" then
            let '(ret, out, count) :=
              parse_uint64_list strtoull strdup_ok value (sizes cfg) MAX_SIZES in
            if ret <? 0 then ParseFailed
            else args_loop strtoull strdup_ok args''
                   (mk_config (out_dir cfg) (master_seed cfg) out (trials cfg) count)
          else if String.eqb arg "--trials" then
            let '(ret, out, count) :=
              parse_uint64_list strtoull strdup_ok value (trials cfg) MAX_SIZES in
            if ret <? 0 then ParseFailed
            else if negb (count =? num_sizes cfg) then ParseFailed
            else args_loop strtoull strdup_ok args''
                   (mk_config (out_dir cfg) (master_seed cfg) (sizes cfg) out
                      (num_sizes cfg))
          else no_option
      end
  end.

End Args.

(** [parse_args(argc, argv, cfg)], on [argv[1]] to [argv[argc - 1]]: the
    configuration starts zeroed, with the default master seed. *)
Definition parse_args (strtoull : string -> Z * string) (strdup_ok : string -> bool)
    (args : list string) : Args.parse_result :=
  Args.args_loop strtoull strdup_ok args
    (Args.mk_config "" 0xC0FFEE1234 (replicate 32 0) (replicate 32 0) 0).

(** The arguments that a list of options with their values makes. *)
Definition option_args (options : list (string * string)) : list string :=
  flat_map (fun p => [fst p; snd p]) options.

(** ** permgen.c: writing a dataset

    What the environment decides is given: whether [malloc] returns a block
    for a size, whether [fopen] opens a path for writing, how many bytes
    the device takes for the file at a path, when the library puts on the
    device the bytes that a stream was given, and the text [strftime] gives
    for the time of the run. What is printed on the standard streams is not
    part of the model.

    The streams are the ones [fopen] returns, with the buffering the
    library chose: [setvbuf] is not called. A call of [fwrite] hands its
    bytes to the stream and the library puts them on the device when it
    chooses, in order, at the latest at [fclose]. [pushed p0 p1] is the
    position in the stream up to which the library tries to put bytes on
    the device during a call that takes the stream from position [p0] to
    position [p1]; it cannot be beyond [p1], the bytes after it not being
    there yet. A library that does not buffer has [pushed p0 p1 = p1]; one
    that keeps everything until [fclose] has [pushed p0 p1 = 0]; one with a
    buffer of [b] bytes pushes when the buffer is full. *)

Module Writer.

(** [fwrite(ptr, size, n, f)] of [n] items given by their bytes, on a
    stream that was given [sent] so far: the bytes given to the stream
    after the call, and whether the call returns [n], which is all the
    code looks at. The call returns fewer than [n] when the library, during
    the call, tries to put on the device a byte that the device has no room
    for; the bytes before that one are on the device then. With no item
    nothing is done and the 0 that is returned is [n]. *)
Definition fwrite (room : Z) (pushed : Z -> Z -> Z) (sent : list Z)
    (items : list (list Z)) : list Z * bool :=
  let sent' := sent ++ concat items in
  let p0 := Z.of_nat (length sent) in
  let p1 := Z.of_nat (length sent') in
  (sent', match items with
          | [] => true
          | _ :: _ => pushed p0 p1 `min` p1 <=? room
          end).

(** [fclose(f)], whose result the code does not look at: the library puts
    on the device what it still holds, and the file is what the device had
    room for. *)
Definition fclose (room : Z) (sent : list Z) : list Z := take (Z.to_nat room) sent.

(** [fopen(path, "wb")] followed by the writes and [fclose]: the file
    system holds the bytes on the device under the path. *)
Definition fs_write (fs : file_system) (path : string) (content : list Z)
    : file_system :=
  fun p => if String.eqb p path then Some content else fs p.

(** The items of [fwrite(arr, sizeof(int32_t), N, f)]. *)
Definition i32_items (arr : list Z) (N : Z) : list (list Z) :=
  map (fun x => File.encode_le 4 (x mod 2 ^ 32)) (take (Z.to_nat N) arr).

(** The bytes [fprintf] writes for a text, one item each. *)
Definition text_items (s : string) : list (list Z) :=
  map (fun c => [Z.of_nat (nat_of_ascii c)]) (list_ascii_of_string s).

(** [%lX] of an unsigned 64-bit value. *)
Definition hex_digit (d : Z) : ascii :=
  ascii_of_nat (Z.to_nat (if d <? 10 then 48 + d else 55 + d)).

Fixpoint fmt_lX_go (digits : nat) (z : Z) (acc : string) : string :=
  match digits with
  | O => acc
  | S digits' =>
      let acc := String (hex_digit (z mod 16)) acc in
      if z / 16 =? 0 then acc else fmt_lX_go digits' (z / 16) acc
  end.

Definition fmt_lX (z : Z) : string := fmt_lX_go 16 z "".

Definition quote : string := String (ascii_of_nat 34) "".
Definition newline : string := String (ascii_of_nat 10) "".

(** The text of the metadata file. *)
Definition meta_text (N trials master_seed : Z) (time_str : string) : string :=
  "{" ++ newline
  ++ "  " ++ quote ++ "N" ++ quote ++ ": " ++ fmt_lu N ++ "," ++ newline
  ++ "  " ++ quote ++ "trials" ++ quote ++ ": " ++ fmt_lu trials ++ "," ++ newline
  ++ "  " ++ quote ++ "master_seed" ++ quote ++ ": " ++ quote ++ "0x"
     ++ fmt_lX master_seed ++ quote ++ "," ++ newline
  ++ "  " ++ quote ++ "rng" ++ quote ++ ": " ++ quote
     ++ "xoshiro256** seeded via splitmix64" ++ quote ++ "," ++ newline
  ++ "  " ++ quote ++ "seed_derivation" ++ quote ++ ": " ++ quote
     ++ "derive_seed(master, N, trial)" ++ quote ++ "," ++ newline
  ++ "  " ++ quote ++ "generation_date" ++ quote ++ ": " ++ quote
     ++ time_str ++ quote ++ "," ++ newline
  ++ "  " ++ quote ++ "format" ++ quote ++ ": " ++ quote
     ++ "binary int32, TRIALS permutations of N elements" ++ quote ++ newline
  ++ "}" ++ newline.

(** [for (uint64_t t = 0; t < trials; t++)]: the row of each trial is
    generated and written; the loop leaves at the first call of [fwrite]
    that does not return [N]. The flag tells whether every call did. *)
Fixpoint trial_loop (fuel : nat) (todo : nat) (room : Z) (pushed : Z -> Z -> Z)
    (master_seed N : Z) (t : Z) (sent : list Z) : outcome (list Z * bool) :=
  match todo with
  | O => Ok (sent, true)
  | S todo' =>
      arr ← Permgen.generate_row fuel master_seed N t;
      let '(sent, written) := fwrite room pushed sent (i32_items arr N) in
      if negb written then Ok (sent, false)
      else trial_loop fuel todo' room pushed master_seed N (t + 1) sent
  end.

End Writer.

(** [generate_permutations(cfg, size_idx)] for the size [N] and the number
    of trials at that index: the value returned and the file system after
    the call. The header is written by four calls of [fwrite] whose
    results are not looked at; the stream is closed on both ways out of
    the loop, and the result of [fclose] is not looked at either. The
    metadata file is written by calls of [fprintf] whose results are not
    looked at. *)
Definition generate_permutations (fuel : nat) (malloc_ok : Z -> bool)
    (fopen_ok : string -> bool) (room : string -> Z)
    (pushed : string -> Z -> Z -> Z) (time_str : string)
    (fs : file_system) (out_dir : string) (master_seed N trials : Z)
    : outcome (Z * file_system) :=
  if negb (malloc_ok (wrap64 (N * 4))) then Ok (-1, fs)
  else
    let bin_path := snprintf "" 1024 (out_dir ++ "/perm_" ++ fmt_lu N ++ ".bin") in
    let meta_path := snprintf "" 1024 (out_dir ++ "/perm_" ++ fmt_lu N ++ ".meta") in
    if negb (fopen_ok bin_path) then Ok (-1, fs)
    else
      let write := Writer.fwrite (room bin_path) (pushed bin_path) in
      let sent := fst (write [] [File.encode_le 8 Permgen.MAGIC]) in
      let sent := fst (write sent [File.encode_le 8 N]) in
      let sent := fst (write sent [File.encode_le 8 trials]) in
      let sent := fst (write sent [File.encode_le 8 master_seed]) in
      '(sent, written) ← Writer.trial_loop fuel (Z.to_nat trials) (room bin_path)
                           (pushed bin_path) master_seed N 0 sent;
      let fs := Writer.fs_write fs bin_path (Writer.fclose (room bin_path) sent) in
      if negb written then Ok (-1, fs)
      else if negb (fopen_ok meta_path) then Ok (-1, fs)
      else
        let text := Writer.meta_text N trials master_seed time_str in
        let meta := fst (Writer.fwrite (room meta_path) (pushed meta_path) []
                           (Writer.text_items text)) in
        Ok (0, Writer.fs_write fs meta_path (Writer.fclose (room meta_path) meta)).

(** The position of the stream of a dataset before the row of trial [t]. *)
Definition row_position (N t : Z) : Z := 32 + 4 * N * t.

(** The library tries, during the write of the row of trial [t], to put on
    the device a byte that the device has no room for. *)
Definition row_write_fails (room : Z) (pushed : Z -> Z -> Z) (N t : Z) : Prop :=
  room < pushed (row_position N t) (row_position N (t + 1)) `min` row_position N (t + 1).

(** ** validate.c and all_baselines_bench.c: the mean over a dataset *)

(** [#pragma omp parallel for schedule(static) num_threads(threads)
    reduction(+:total)]: each thread adds the counts of its iterations to a
    total of its own that starts at 0, and the totals of the threads are
    added to the shared one when the loop ends. A schedule lists, for each
    thread, the iterations it runs in the order it runs them; the threads
    are listed in the order in which their totals are added. Compiled
    without OpenMP the loop is the schedule of one thread that runs every
    iteration in order. The body gives the count it adds, or nothing when
    it uses memory that it must not. *)
Module Omp.

Fixpoint thread_total (body : Z -> option Z) (iterations : list Z) (total : Z)
    : option Z :=
  match iterations with
  | [] => Some total
  | t :: iterations' =>
      count ← body t;
      thread_total body iterations' (wrap64 (total + count))
  end.

Fixpoint reduction (body : Z -> option Z) (schedule : list (list Z)) (total : Z)
    : option Z :=
  match schedule with
  | [] => Some total
  | iterations :: schedule' =>
      private ← thread_total body iterations 0;
      reduction body schedule' (wrap64 (total + private))
  end.

(** The loop without threads. *)
Definition sequential (trials : Z) : list (list Z) := [seqZ 0 trials].

End Omp.

Module Evaluate.

Open Scope float_scope.

(** [memcpy(arr, &ds->data[t * N], N * sizeof(int32_t))] into a block of
    [N * sizeof(int32_t)] bytes, then [shellsort(arr, N, seq)]: the count
    of trial [t]. The row has to lie within the numbers that were read,
    and the byte count must not wrap, for the copy and the sort to stay
    within the block. *)
Definition sort_row (ds : perm_dataset_t) (seq : gap_sequence_t) (t : Z) : option Z :=
  let N := ds_N ds in
  let first := wrap64 (t * N) in
  if ((N * 4 <? 2 ^ 64) && (first + N <=? Z.of_nat (length (ds_data ds))))%Z then
    let arr := take (Z.to_nat N) (drop (Z.to_nat first) (ds_data ds)) in
    '(_, count) ← shellsort arr N seq;
    Some count
  else None.

(** The body of the loop of [evaluate]: a trial whose block is not
    allocated is passed over. [malloc_ok t] tells whether the block of
    trial [t] is allocated. *)
Definition evaluate_trial (ds : perm_dataset_t) (seq : gap_sequence_t)
    (malloc_ok : Z -> bool) (t : Z) : option Z :=
  if negb (malloc_ok t) then Some 0%Z else sort_row ds seq t.

(** The body of the loop of [benchmark], which copies into the block
    whether it was allocated or not. *)
Definition benchmark_trial (ds : perm_dataset_t) (seq : gap_sequence_t)
    (malloc_ok : Z -> bool) (t : Z) : option Z :=
  if negb (malloc_ok t) then None else sort_row ds seq t.

End Evaluate.

(** [evaluate(ds, seq, threads)] of [validate.c], run under a schedule. *)
Definition evaluate (ds : perm_dataset_t) (seq : gap_sequence_t)
    (malloc_ok : Z -> bool) (schedule : list (list Z)) : option float :=
  total ← Omp.reduction (Evaluate.evaluate_trial ds seq malloc_ok) schedule 0;
  Some (Double.of_Z total / Double.of_Z (ds_trials ds))%float.

(** [benchmark(ds, seq, threads)] of [all_baselines_bench.c]. *)
Definition benchmark (ds : perm_dataset_t) (seq : gap_sequence_t)
    (malloc_ok : Z -> bool) (schedule : list (list Z)) : option float :=
  total ← Omp.reduction (Evaluate.benchmark_trial ds seq malloc_ok) schedule 0;
  Some (Double.of_Z total / Double.of_Z (ds_trials ds))%float.

(** * Specifications

    The vocabulary of the properties, and the invariants and tests their
    proofs use. *)

(** ** Gap sequences *)

(** Non-empty, first gap 1, strictly increasing, all gaps positive. *)
Record gap_invariants (gs : list Z) : Prop := mk_gap_invariants {
  gaps_non_empty : gs <> [];
  gaps_first_is_1 : head gs = Some 1;
  gaps_increasing : Sorted Z.lt gs;
  gaps_positive : Forall (fun g => 0 < g) gs
}.

(** What is asked of a generated sequence: it is produced, it satisfies
    the invariants, and no gap exceeds the bound. *)
Definition generated_ok (max_gap : Z) (r : option gap_sequence_t) : Prop :=
  exists seq,
    r = Some seq /\ gap_invariants (gaps seq)
    /\ Forall (fun g => g <= max_gap) (gaps seq).

(** The invariants and the bound, as a test on a concrete sequence. *)
Fixpoint increasingb (gs : list Z) : bool :=
  match gs with
  | a :: (b :: _) as rest => (a <? b) && increasingb rest
  | _ => true
  end.

Definition sequence_ok (max_gap : Z) (gs : list Z) : bool :=
  match gs with
  | g0 :: _ => g0 =? 1
  | [] => false
  end
  && increasingb gs && forallb (fun g => 0 <? g) gs
  && forallb (fun g => g <=? max_gap) gs.

Definition generated_okb (max_gap : Z) (r : option gap_sequence_t) : bool :=
  match r with
  | Some seq => sequence_ok max_gap (gaps seq)
  | None => false
  end.


(** ** Sorting *)

(** The elements at the indices below [k] are in ascending order. *)
Definition sorted_below (l : list Z) (k : nat) : Prop :=
  forall a b : nat, (a < b < k)%nat -> l !!! a <= l !!! b.

(** The sum over the gaps [g < n] of [n - g]: one comparison for every
    pair of an element and a gap. *)
Definition sorted_input_comparisons (n : Z) (gs : list Z) : Z :=
  foldr Z.add 0 (map (fun g => n - g) (filter (fun g => g < n) gs)).

(** [shellsort] is [shellsort_stats] with the move count dropped. *)
Definition drop_moves3 (r : list Z * Z * sort_stats_t) : list Z * Z * Z :=
  let '(arr, j, st) := r in (arr, j, comparisons st).

Definition drop_moves (r : list Z * sort_stats_t) : list Z * Z :=
  let '(arr, st) := r in (arr, comparisons st).

(** The last pass, with gap 1, is an insertion sort. While [temp] is held
    and the hole is at [j], the array without the hole is sorted up to [i]
    and everything between the hole and [i] is greater than [temp]. *)
Definition hole_inv (temp : Z) (arr : list Z) (j i : Z) : Prop :=
  (forall a b : nat, (a < b)%nat -> Z.of_nat b <= i ->
     Z.of_nat a <> j -> Z.of_nat b <> j -> arr !!! a <= arr !!! b)
  /\ (forall b : nat, j < Z.of_nat b <= i -> temp < arr !!! b).

(** ** Loading and statistics *)

(** A dataset file written for [N = 5] and stored under the name of
    [N = 1000000]; every other path is absent. *)
Definition renamed_file : file_system := fun path =>
  if String.eqb path "perms/perm_1000000.bin" then
    Some (File.header 5 1 0xC0FFEE1234 ++ File.payload [[3; 1; 4; 0; 2]])
  else None.

(** A [malloc] that always returns a block. *)
Definition always_succeeds (size : Z) : bool := true.

(** The sum of the squared deviations of the counts from [mean], added up
    in trial order. *)
Definition sum_sq_dev (mean : float) (counts : list Z) : float :=
  fold_left (fun acc c => (acc + (Double.of_Z c - mean) * (Double.of_Z c - mean))%float)
    counts 0%float.

(** The counts added up in trial order: on [uint64_t], as [bench.c] adds
    them, and on [double], as [full_bench.c] does. *)
Definition total_count (counts : list Z) : Z :=
  fold_left (fun acc c => wrap64 (acc + c)) counts 0.

Definition float_sum (counts : list Z) : float :=
  fold_left (fun acc c => (acc + Double.of_Z c)%float) counts 0%float.

(** The two estimators of the standard deviation about [mean]: the
    population one divides the sum of the squared deviations by the number
    [n] of counts, the sample one by [n - 1]. The standard error divides a
    standard deviation by the root of [n]. *)
Definition population_stddev (mean : float) (counts : list Z) : float :=
  sqrt (sum_sq_dev mean counts / Double.of_Z (Z.of_nat (length counts))).

Definition sample_stddev (mean : float) (counts : list Z) : float :=
  sqrt (sum_sq_dev mean counts / Double.of_Z (Z.of_nat (length counts) - 1)).

Definition standard_error (stddev : float) (counts : list Z) : float :=
  (stddev / sqrt (Double.of_Z (Z.of_nat (length counts))))%float.

(** A [double] that is a zero or a NaN: what a difference of a value with
    itself is, and what every later step of [paired_test] keeps. *)
Definition zero_or_nan (x : float) : Prop :=
  x = 0%float \/ x = (-0)%float \/ x = nan.

(** ** The formulas of the generators under an admissible [pow] *)

Module Stable.

Open Scope float_scope.

(** The values [pow x y] may take, empty outside the reference arguments. *)
Definition candidates (x y : float) : list float :=
  match Libm.pow_reference x y with
  | Some (_, cands) => cands
  | None => []
  end.

Definition nonempty {A} (l : list A) : bool :=
  match l with [] => false | _ => true end.

(** The formulas, as functions of the values of [pow]. *)
Definition tokuda_of (p9 p4 q4 : float) : option Z :=
  Double.to_u64 (Double.ceil ((p9 - p4) / (5.0 * q4))).

Definition lee_of (p : float) : option Z :=
  Double.to_u64 (Double.floor ((p - 1.0) / (GAMMA - 1.0))).

Definition skean_of (p : float) : option Z :=
  Double.to_u64 (Double.floor (SKEAN_A * p)).

(** Whatever admissible values [pow] returns for the exponent [k], the
    formula gives the gap it gives with the reference values. This holds
    while the gaps stay under 2^53; from [k = 43] on, one unit in the last
    place of [pow] moves the gap. *)
Definition tokuda_stable (k : Z) : bool :=
  let x9 := candidates 9.0 (Double.of_Z k) in
  let x4 := candidates 4.0 (Double.of_Z k) in
  let y4 := candidates 4.0 (Double.of_Z (k - 1)) in
  nonempty x9 && nonempty x4 && nonempty y4
  && forallb (fun p9 => forallb (fun p4 => forallb (fun q4 =>
       bool_decide (tokuda_of p9 p4 q4 = Gaps.tokuda_gap Libm.pow_ref k)) y4) x4) x9.

Definition lee_stable (k : Z) : bool :=
  let x := candidates GAMMA (Double.of_Z k) in
  nonempty x
  && forallb (fun p => bool_decide (lee_of p = Gaps.lee_gap Libm.pow_ref k)) x.

Definition skean_stable (k : Z) : bool :=
  let x := candidates SKEAN_B (Double.of_Z k / SKEAN_C) in
  nonempty x
  && forallb (fun p => bool_decide (skean_of p = Gaps.skean_gap Libm.pow_ref k)) x.

End Stable.

(** ** The passes of the sort *)

(** The array is [g]-sorted below [upto]: every element is at most the
    element [g] places after it. *)
Definition gap_sorted (g : Z) (arr : list Z) (upto : Z) : Prop :=
  forall b : nat, g <= Z.of_nat b < upto ->
    arr !!! Z.to_nat (Z.of_nat b - g) <= arr !!! b.

(** A pass with the gap [g] is an insertion sort of every chain of elements
    [g] apart. While [temp] is held and the hole is at [j], the chain
    without the hole is in order up to [i], and what follows the hole in
    its chain is greater than [temp]. *)
Definition chain_inv (temp : Z) (arr : list Z) (g j i : Z) : Prop :=
  (forall b : nat, g <= Z.of_nat b <= i -> Z.of_nat b <> j -> Z.of_nat b - g <> j ->
     arr !!! Z.to_nat (Z.of_nat b - g) <= arr !!! b)
  /\ (j + g <= i -> temp < arr !!! Z.to_nat (j + g))
  /\ (g <= j -> j + g <= i -> arr !!! Z.to_nat (j - g) <= arr !!! Z.to_nat (j + g)).

(** ** The random number generator *)

(** A value of [uint64_t], and a generator state made of four of them. *)
Definition is_u64 (z : Z) : Prop := 0 <= z < 2 ^ 64.

Definition rng_wf (rng : rng_state_t) : Prop :=
  is_u64 (s0 rng) /\ is_u64 (s1 rng) /\ is_u64 (s2 rng) /\ is_u64 (s3 rng).

(** The state after [k] calls of [rng_next]. *)
Definition rng_advance (k : nat) (rng : rng_state_t) : rng_state_t :=
  Nat.iter k (fun r => fst (rng_next r)) rng.

(** The value that the call number [k] of [rng_next] returns, the first
    call being the call 0. *)
Definition rng_output (rng : rng_state_t) (k : nat) : Z :=
  snd (rng_next (rng_advance k rng)).

(** What makes the rejection loops of a shuffle of [n] elements end within
    [fuel] iterations each: among the values of the generator that the
    shuffle can come to, every run of [fuel] consecutive values holds one
    that is at least [n], and so at or above the threshold of every bound
    up to [n]. *)
Definition stream_accepts (fuel : nat) (n : Z) (rng : rng_state_t) : Prop :=
  forall k : nat, (k <= Z.to_nat n * fuel)%nat ->
    exists j : nat, (j < fuel)%nat /\ n <= rng_output rng (k + j).

(** The same as a test. *)
Definition stream_acceptsb (fuel : nat) (n : Z) (rng : rng_state_t) : bool :=
  forallb (fun k => existsb (fun j => n <=? rng_output rng (k + j)) (seq 0 fuel))
    (seq 0 (S (Z.to_nat n * fuel))).

(** [rng_uniform(rng, n)] returns [v] at once when the generator gives [r]
    first, whatever the state that gives it. *)
Definition returns_on (n r v : Z) : Prop :=
  forall fuel rng, rng_wf rng -> snd (rng_next rng) = r ->
    rng_uniform (S fuel) rng n = Ok (fst (rng_next rng), v).

(** ** The generators that copy a table *)

(** The longest prefix whose elements pass the test. *)
Fixpoint take_while (p : Z -> bool) (l : list Z) : list Z :=
  match l with
  | [] => []
  | x :: l' => if p x then x :: take_while p l' else []
  end.

(** The invariants and the bound. *)
Definition bounded_ok (max_gap : Z) (gs : list Z) : Prop :=
  gap_invariants gs /\ Forall (fun g => g <= max_gap) gs.

(** A test for the generators that copy a table and extend it. The copy
    stops at a non-empty prefix of the table; the bound is then below the
    next gap of the table, or at most [B] when the whole table is copied.
    From every such prefix, the extension up to the largest bound it can
    meet is defined, and the prefix is a valid sequence. *)
Definition largest_bound (base : list Z) (B : Z) (k : nat) : Z :=
  match base !! k with
  | Some b => b - 1
  | None => B
  end.

Definition defined_from_every_start (base : list Z) (B : Z) : bool :=
  forallb (fun k =>
    let m := largest_bound base B k in
    match Gaps.extend_loop (Gaps.room (take k base)) m (take k base) with
    | Some _ => sequence_ok m (take k base)
    | None => false
    end) (seq 1 (length base)).

(** The three generators of this kind, by their tables. *)
Definition table_generator (label : string) (base : list Z) (max_gap : Z)
    : option gap_sequence_t :=
  let gaps := Gaps.copy_base base max_gap [] in
  gaps ← Gaps.extend_loop (Gaps.room gaps) max_gap gaps;
  Some (mk_gap_sequence label gaps).

(** ** The generators that apply a formula *)

(** The gap formula is defined for every exponent of the list. *)
Definition defined_on (gap_of : Z -> option Z) (ks : list Z) : bool :=
  forallb (fun k => match gap_of k with Some _ => true | None => false end) ks.

(** The closed form of the Sedgewick gaps, [4^k + 3 * 2^(k-1) + 1]. *)
Definition sedgewick_formula (k : Z) : Z := 4 ^ k + 3 * 2 ^ (k - 1) + 1.

(** ** The command line of permgen *)

(** A token that [parse_uint64_list] accepts: nothing follows the number
    but the end of the token or a newline. *)
Definition token_ok (strtoull : string -> Z * string) (tok : string) : Prop :=
  Args.trailing_garbage (snd (strtoull tok)) = false.

(** The configurations that [parse_args] builds. *)
Record config_wf (cfg : Args.config_t) : Prop := mk_config_wf {
  out_dir_fits : (String.length (Args.out_dir cfg) <= 511)%nat;
  sizes_32 : length (Args.sizes cfg) = 32%nat;
  trials_32 : length (Args.trials cfg) = 32%nat;
  num_sizes_range : 0 <= Args.num_sizes cfg <= 32
}.

(** A [strtoull] for the examples: it reads decimal digits only. *)
Fixpoint decimal_digits (s : string) (acc : Z) : Z * string :=
  match s with
  | EmptyString => (acc, EmptyString)
  | String c s' =>
      let d := Z.of_nat (nat_of_ascii c) - 48 in
      if (0 <=? d) && (d <=? 9) then decimal_digits s' (10 * acc + d) else (acc, s)
  end.

Definition decimal_strtoull (tok : string) : Z * string := decimal_digits tok 0.

(** ** The total of a parallel loop *)

(** The counts of a list of iterations, added without wrap-around. *)
Fixpoint sum_counts_of (body : Z -> option Z) (iterations : list Z) : option Z :=
  match iterations with
  | [] => Some 0
  | t :: iterations' =>
      count ← body t;
      rest ← sum_counts_of body iterations';
      Some (count + rest)
  end.

(** * Properties *)

(** ** Arrays read by index *)

Lemma sorted_below_StronglySorted (l : list Z) :
  sorted_below l (length l) -> StronglySorted Z.le l.
Proof.
  induction l as [|x l IH]; intros H; constructor.
  - apply IH. intros a b Hab. apply (H (S a) (S b)). simpl. lia.
  - apply Forall_lookup_2. intros i y Hi.
    pose proof (lookup_lt_Some _ _ _ Hi) as Hlt.
    specialize (H 0%nat (S i)). simpl in H.
    rewrite (list_lookup_total_correct _ _ _ Hi) in H. apply H. lia.
Qed.

Lemma StronglySorted_sorted_below (l : list Z) :
  StronglySorted Z.le l -> sorted_below l (length l).
Proof.
  induction 1 as [|x l Hl IH Hx]; intros a b Hab; simpl in Hab; [lia|].
  destruct b as [|b]; [lia|]. destruct a as [|a]; simpl.
  - rewrite Forall_lookup in Hx. apply (Hx b).
    apply list_lookup_lookup_total_lt. lia.
  - apply IH. lia.
Qed.

Lemma Sorted_le_sorted_below (l : list Z) :
  Sorted Z.le l -> sorted_below l (length l).
Proof.
  intros H. apply StronglySorted_sorted_below.
  apply Sorted_StronglySorted; [|exact H]. intros x y z; lia.
Qed.

Lemma wrap64_add_l (a b : Z) : wrap64 (wrap64 a + b) = wrap64 (a + b).
Proof. unfold wrap64. apply Zplus_mod_idemp_l. Qed.

Lemma wrap64_small (a : Z) : 0 <= a < 2 ^ 64 -> wrap64 a = a.
Proof. intros H. unfold wrap64. apply Z.mod_small. exact H. Qed.

(** ** shellsort and shellsort_stats *)

Module SortFacts.

Import Sort.

Lemma shift_loop_stats_sim fuel gap temp arr j st :
  shift_loop fuel gap temp arr j (comparisons st)
  = drop_moves3 <$> shift_loop_stats fuel gap temp arr j st.
Proof.
  revert arr j st. induction fuel as [|fuel IH]; intros arr j st; simpl; [done|].
  destruct (gap <=? j); [|done].
  destruct (temp <? arr !!! Z.to_nat (j - gap)); [|done].
  rewrite <- IH. done.
Qed.

Lemma pass_loop_stats_sim todo gap arr i st :
  pass_loop todo gap arr i (comparisons st)
  = drop_moves <$> pass_loop_stats todo gap arr i st.
Proof.
  revert arr i st. induction todo as [|todo IH]; intros arr i st; [done|].
  cbn [pass_loop pass_loop_stats].
  rewrite shift_loop_stats_sim.
  destruct (shift_loop_stats _ gap _ arr i st) as [[[arr1 j] st1]|]; [|done].
  cbn [fmap option_fmap option_map mbind option_bind drop_moves3].
  rewrite <- IH. done.
Qed.

Lemma gap_loop_stats_sim g seq n arr st :
  gap_loop g seq n arr (comparisons st)
  = drop_moves <$> gap_loop_stats g seq n arr st.
Proof.
  revert arr st. induction g as [|g IH]; intros arr st; [done|].
  cbn [gap_loop gap_loop_stats].
  destruct (n <=? gaps seq !!! g); [apply IH|].
  rewrite pass_loop_stats_sim.
  destruct (pass_loop_stats _ _ arr _ st) as [[arr1 st1]|]; [|done].
  cbn [fmap option_fmap option_map mbind option_bind drop_moves].
  apply IH.
Qed.

Lemma shellsort_stats_sim arr n seq :
  shellsort arr n seq = drop_moves <$> shellsort_stats arr n seq.
Proof. apply (gap_loop_stats_sim _ seq n arr (mk_sort_stats 0 0)). Qed.

(** The shifting loop ends, keeps the length, and keeps the multiset of
    the array in which the held element fills the hole. *)
Lemma shift_loop_stats_perm fuel gap temp arr j st :
  1 <= gap -> 0 <= j < Z.of_nat (length arr) -> (Z.to_nat j < fuel)%nat ->
  exists arr1 j1 st1,
    shift_loop_stats fuel gap temp arr j st = Some (arr1, j1, st1)
    /\ 0 <= j1 <= j
    /\ length arr1 = length arr
    /\ <[Z.to_nat j1 := temp]> arr1 ≡ₚ <[Z.to_nat j := temp]> arr.
Proof.
  intros Hgap. revert arr j st.
  induction fuel as [|fuel IH]; intros arr j st Hj Hfuel; [lia|]. simpl.
  destruct (Z.leb_spec gap j) as [Hle|Hlt]; [|eauto 10 with lia].
  destruct (temp <? arr !!! Z.to_nat (j - gap)); [|eauto 10 with lia].
  set (arr' := <[Z.to_nat j := arr !!! Z.to_nat (j - gap)]> arr).
  set (st' := mk_sort_stats _ _).
  destruct (IH arr' (j - gap) st') as (arr1 & j1 & st1 & Hrun & Hj1 & Hlen & Hperm).
  { unfold arr'. rewrite length_insert. lia. }
  { lia. }
  exists arr1, j1, st1. split; [exact Hrun|]. split; [lia|].
  split; [unfold arr' in Hlen; rewrite length_insert in Hlen; exact Hlen|].
  rewrite Hperm. unfold arr'.
  rewrite <- (list_insert_insert_eq arr (Z.to_nat j) (arr !!! Z.to_nat (j - gap)) temp).
  apply Permutation_insert_swap.
  - apply list_lookup_insert_eq. lia.
  - rewrite list_lookup_insert_ne by lia.
    apply list_lookup_lookup_total_lt. lia.
Qed.

Lemma pass_loop_stats_perm todo gap arr i st :
  1 <= gap -> 0 <= i -> i + Z.of_nat todo <= Z.of_nat (length arr) ->
  exists arr1 st1,
    pass_loop_stats todo gap arr i st = Some (arr1, st1)
    /\ length arr1 = length arr /\ arr1 ≡ₚ arr.
Proof.
  intros Hgap. revert arr i st.
  induction todo as [|todo IH]; intros arr i st Hi Hn; [simpl; eauto|].
  cbn [pass_loop_stats].
  destruct (shift_loop_stats_perm (S (Z.to_nat i)) gap (arr !!! Z.to_nat i) arr i st)
    as (arr1 & j1 & st1 & -> & Hj1 & Hlen & Hperm); [lia..|].
  cbn [mbind option_bind].
  rewrite (list_insert_id arr (Z.to_nat i)) in Hperm
    by (apply list_lookup_lookup_total_lt; lia).
  set (arr2 := <[Z.to_nat j1 := _]> arr1) in *.
  assert (Hlen2 : length arr2 = length arr) by (unfold arr2; rewrite length_insert; done).
  destruct (IH arr2 (i + 1) (mk_sort_stats (comparisons st1) (wrap64 (moves st1 + 1))))
    as (arr3 & st3 & -> & Hlen3 & Hperm3); [lia..|].
  exists arr3, st3. split; [done|]. split; [congruence|].
  rewrite Hperm3. exact Hperm.
Qed.

Lemma gap_loop_stats_perm g seq arr st :
  (forall k : nat, (k < g)%nat -> 1 <= gaps seq !!! k) ->
  exists arr1 st1,
    gap_loop_stats g seq (Z.of_nat (length arr)) arr st = Some (arr1, st1)
    /\ length arr1 = length arr /\ arr1 ≡ₚ arr.
Proof.
  revert arr st. induction g as [|g IH]; intros arr st Hg; [simpl; eauto|].
  cbn [gap_loop_stats].
  assert (Hg' : forall k : nat, (k < g)%nat -> 1 <= gaps seq !!! k)
    by (intros k Hk; apply Hg; lia).
  destruct (Z.leb_spec (Z.of_nat (length arr)) (gaps seq !!! g)) as [Hskip|Hrun].
  { apply IH, Hg'. }
  destruct (pass_loop_stats_perm (Z.to_nat (Z.of_nat (length arr) - gaps seq !!! g))
              (gaps seq !!! g) arr (gaps seq !!! g) st)
    as (arr1 & st1 & -> & Hlen & Hperm).
  { apply Hg. lia. }
  { specialize (Hg g). lia. }
  { lia. }
  cbn [mbind option_bind]. rewrite <- Hlen.
  destruct (IH arr1 st1 Hg') as (arr2 & st2 & -> & Hlen2 & Hperm2).
  exists arr2, st2. split; [done|]. split; [congruence|].
  rewrite Hperm2. exact Hperm.
Qed.

Ltac lookup_insert :=
  repeat first
    [ rewrite list_lookup_total_insert_eq by lia
    | rewrite list_lookup_total_insert_ne by lia ].

Lemma shift_loop_stats_sorted fuel temp arr j i st arr1 j1 st1 :
  0 <= j <= i -> i < Z.of_nat (length arr) -> hole_inv temp arr j i ->
  shift_loop_stats fuel 1 temp arr j st = Some (arr1, j1, st1) ->
  sorted_below (<[Z.to_nat j1 := temp]> arr1) (Z.to_nat i + 1).
Proof.
  revert arr j st. induction fuel as [|fuel IH]; intros arr j st Hj Hi [Hs Ha] Hrun;
    [discriminate|].
  simpl in Hrun.
  destruct (Z.leb_spec 1 j) as [Hle|Hlt].
  - replace (j - 1) with (Z.pred j) in Hrun by lia.
    destruct (Z.ltb_spec temp (arr !!! Z.to_nat (Z.pred j))) as [Hgt|Hge].
    + apply IH in Hrun; [exact Hrun|lia|rewrite length_insert; lia|].
      split.
      * intros a b Hab Hb Haj Hbj.
        destruct (decide (a = Z.to_nat j)) as [->|Hna];
          destruct (decide (b = Z.to_nat j)) as [->|Hnb]; lookup_insert; try lia.
        -- apply Hs; lia.
        -- apply Hs; lia.
        -- apply Hs; lia.
      * intros b Hb.
        destruct (decide (b = Z.to_nat j)) as [->|Hnb]; lookup_insert; [lia|].
        apply Ha. lia.
    + injection Hrun as <- <- <-. intros a b Hab.
      destruct (decide (a = Z.to_nat j)) as [->|Hna];
        destruct (decide (b = Z.to_nat j)) as [->|Hnb]; lookup_insert; try lia.
      * specialize (Ha b). lia.
      * destruct (decide (a = Z.to_nat (Z.pred j))) as [->|Hnp]; [lia|].
        specialize (Hs a (Z.to_nat (Z.pred j))). lia.
      * apply Hs; lia.
  - injection Hrun as <- <- <-. intros a b Hab.
    destruct (decide (a = Z.to_nat j)) as [->|Hna]; lookup_insert.
    + specialize (Ha b). lia.
    + apply Hs; lia.
Qed.

Lemma pass_loop_stats_sorted todo arr i st arr1 st1 :
  1 <= i -> i + Z.of_nat todo = Z.of_nat (length arr) ->
  sorted_below arr (Z.to_nat i) ->
  pass_loop_stats todo 1 arr i st = Some (arr1, st1) ->
  sorted_below arr1 (length arr1).
Proof.
  revert arr i st. induction todo as [|todo IH]; intros arr i st Hi Hn Hs Hrun.
  - injection Hrun as <- <-. replace (length arr) with (Z.to_nat i) by lia. exact Hs.
  - cbn [pass_loop_stats] in Hrun.
    destruct (shift_loop_stats_perm (S (Z.to_nat i)) 1 (arr !!! Z.to_nat i) arr i st)
      as (arr2 & j2 & st2 & Hshift & Hj2 & Hlen & _); [lia..|].
    rewrite Hshift in Hrun. cbn [mbind option_bind] in Hrun.
    apply IH in Hrun; [exact Hrun|lia|rewrite length_insert; lia|].
    replace (Z.to_nat (i + 1)) with (Z.to_nat i + 1)%nat by lia.
    assert (Hinv : hole_inv (arr !!! Z.to_nat i) arr i i).
    { split; [|intros b Hb; lia]. intros a b Hab Hb Haj Hbj. apply Hs. lia. }
    assert (Hi0 : 0 <= i <= i) by lia.
    assert (Hlt : i < Z.of_nat (length arr)) by lia.
    exact (shift_loop_stats_sorted _ _ _ _ _ _ _ _ _ Hi0 Hlt Hinv Hshift).
Qed.

Lemma gap_loop_stats_sorted g seq arr st arr1 st1 :
  (0 < g)%nat -> gaps seq !!! 0%nat = 1 ->
  (forall k : nat, (k < g)%nat -> 1 <= gaps seq !!! k) ->
  gap_loop_stats g seq (Z.of_nat (length arr)) arr st = Some (arr1, st1) ->
  sorted_below arr1 (length arr1).
Proof.
  intros Hg H1. revert arr st.
  induction g as [|g IH]; intros arr st Hpos Hrun; [lia|].
  cbn [gap_loop_stats] in Hrun.
  assert (Hpos' : forall k : nat, (k < g)%nat -> 1 <= gaps seq !!! k)
    by (intros k Hk; apply Hpos; lia).
  destruct (Z.leb_spec (Z.of_nat (length arr)) (gaps seq !!! g)) as [Hskip|Hpass].
  - destruct g as [|g].
    + injection Hrun as <- <-. intros a b Hab. rewrite H1 in Hskip. lia.
    + apply IH in Hrun; [exact Hrun|lia|exact Hpos'].
  - destruct (pass_loop_stats_perm (Z.to_nat (Z.of_nat (length arr) - gaps seq !!! g))
                (gaps seq !!! g) arr (gaps seq !!! g) st)
      as (arr2 & st2 & Hp & Hlen & _); [apply Hpos; lia|specialize (Hpos g); lia|lia|].
    rewrite Hp in Hrun. cbn [mbind option_bind] in Hrun.
    destruct g as [|g].
    + injection Hrun as <- <-. rewrite H1 in Hp.
      apply pass_loop_stats_sorted in Hp; [exact Hp|lia|lia|].
      intros a b Hab. lia.
    + rewrite <- Hlen in Hrun. apply IH in Hrun; [exact Hrun|lia|exact Hpos'].
Qed.

(** What the invariants give the loops: the gap applied last is 1 and
    every gap is at least 1. *)
Lemma gap_invariants_lookup (gs : list Z) :
  gap_invariants gs ->
  (0 < length gs)%nat /\ gs !!! 0%nat = 1
  /\ forall k : nat, (k < length gs)%nat -> 1 <= gs !!! k.
Proof.
  intros [Hne H1 _ Hpos]. destruct gs as [|g gs]; [done|].
  simpl in H1. injection H1 as ->. split; [simpl; lia|]. split; [done|].
  intros k Hk. rewrite Forall_lookup in Hpos.
  specialize (Hpos k ((1 :: gs) !!! k)).
  rewrite list_lookup_lookup_total_lt in Hpos by exact Hk.
  specialize (Hpos eq_refl). lia.
Qed.

End SortFacts.

(** C1. For every array and every gap sequence that satisfies the invariants
    (non-empty, first gap 1, strictly increasing, positive), [shellsort] and
    [shellsort_stats] both return, leave the same array, and that array is
    ascending and a rearrangement of the input; the comparison counts of the
    two entry points agree. *)
Theorem shellsort_entry_points_sort (arr : list Z) (seq : gap_sequence_t) :
  gap_invariants (gaps seq) ->
  exists arr' stats,
    shellsort_stats arr (Z.of_nat (length arr)) seq = Some (arr', stats)
    /\ shellsort arr (Z.of_nat (length arr)) seq = Some (arr', comparisons stats)
    /\ Sorted Z.le arr'
    /\ Permutation arr' arr.
Proof.
  intros Hinv.
  destruct (SortFacts.gap_invariants_lookup _ Hinv) as (Hlen & H1 & Hpos).
  destruct (SortFacts.gap_loop_stats_perm (length (gaps seq)) seq arr (mk_sort_stats 0 0) Hpos)
    as (arr' & stats & Hrun & _ & Hperm).
  exists arr', stats. split; [exact Hrun|]. split.
  - rewrite SortFacts.shellsort_stats_sim. unfold shellsort_stats. rewrite Hrun. done.
  - split; [|exact Hperm].
    apply StronglySorted_Sorted, sorted_below_StronglySorted.
    exact (SortFacts.gap_loop_stats_sorted _ _ _ _ _ _ Hlen H1 Hpos Hrun).
Qed.

Lemma shellsort_entry_points_sort_witness :
  gap_invariants [1; 4; 10]
  /\ exists arr' stats,
       shellsort_stats [5; -3; 9; 0; 7; 7; 2; -8; 1; 6; 4; 3] 12
         (mk_gap_sequence "Ciura" [1; 4; 10]) = Some (arr', stats)
       /\ shellsort [5; -3; 9; 0; 7; 7; 2; -8; 1; 6; 4; 3] 12
            (mk_gap_sequence "Ciura" [1; 4; 10]) = Some (arr', comparisons stats)
       /\ Sorted Z.le arr'
       /\ Permutation arr' [5; -3; 9; 0; 7; 7; 2; -8; 1; 6; 4; 3].
Proof.
  assert (H : gap_invariants [1; 4; 10]).
  { split; [done|done|repeat constructor|repeat constructor]. }
  split; [exact H|].
  exact (shellsort_entry_points_sort [5; -3; 9; 0; 7; 7; 2; -8; 1; 6; 4; 3]
           (mk_gap_sequence "Ciura" [1; 4; 10]) H).
Defined.

(** C2, as the code has it. On the reverse-sorted array [4;3;2;1;0] with the
    single gap 1, [shellsort_stats] counts 10 comparisons and 14 moves: the
    10 shifts and the 4 placements of the elements at the indices 1 to 4
    (the loop starts at [i = gap], so the element at index 0 is never
    placed). *)
Theorem shellsort_stats_reverse5 :
  shellsort_stats [4; 3; 2; 1; 0] 5 (mk_gap_sequence "insertion" [1])
  = Some ([0; 1; 2; 3; 4], mk_sort_stats 10 14).
Proof. vm_compute. reflexivity. Qed.

(** C2, as stated, fails: the move count is not 15. *)
Lemma shellsort_stats_reverse5_not_15_moves :
  ~ exists arr',
      shellsort_stats [4; 3; 2; 1; 0] 5 (mk_gap_sequence "insertion" [1])
      = Some (arr', mk_sort_stats 10 15).
Proof.
  intros [arr' H]. vm_compute in H. discriminate H.
Qed.

Module SortedInput.

Import Sort.

Lemma wrap64_range (a : Z) : 0 <= wrap64 a < 2 ^ 64.
Proof. unfold wrap64. apply Z.mod_pos_bound. lia. Qed.

(** On a sorted array every insertion takes one comparison, which ends the
    walk at once, and writes the held element back where it was. *)
Lemma pass_loop_sorted todo gap arr i comps :
  0 <= gap <= i -> i + Z.of_nat todo <= Z.of_nat (length arr) ->
  sorted_below arr (length arr) -> 0 <= comps < 2 ^ 64 ->
  pass_loop todo gap arr i comps = Some (arr, wrap64 (comps + Z.of_nat todo)).
Proof.
  revert i comps. induction todo as [|todo IH]; intros i comps Hi Hn Hs Hc.
  - simpl. rewrite Z.add_0_r, wrap64_small by exact Hc. done.
  - cbn [pass_loop shift_loop].
    destruct (Z.leb_spec gap i) as [_|]; [|lia].
    destruct (Z.ltb_spec (arr !!! Z.to_nat i) (arr !!! Z.to_nat (i - gap))) as [Hlt|_].
    { exfalso. destruct (decide (gap = 0)) as [->|Hg].
      - rewrite Z.sub_0_r in Hlt. lia.
      - specialize (Hs (Z.to_nat (i - gap)) (Z.to_nat i)). lia. }
    cbn [mbind option_bind].
    rewrite list_insert_id by (apply list_lookup_lookup_total_lt; lia).
    rewrite IH; [|lia|lia|exact Hs|apply wrap64_range].
    rewrite wrap64_add_l. do 2 f_equal. f_equal. lia.
Qed.

Lemma comparisons_snoc n gs g :
  sorted_input_comparisons n (gs ++ [g]) = sorted_input_comparisons n gs + (if n <=? g then 0 else n - g).
Proof.
  unfold sorted_input_comparisons. induction gs as [|x gs IH].
  - simpl. rewrite filter_cons, filter_nil.
    destruct (Z.leb_spec n g); destruct (decide (g < n)); simpl; lia.
  - simpl. rewrite !filter_cons.
    destruct (decide (x < n)); simpl; rewrite IH; lia.
Qed.

Lemma comparisons_nonneg n gs : 0 <= sorted_input_comparisons n gs.
Proof.
  unfold sorted_input_comparisons. induction gs as [|x gs IH]; [simpl; lia|].
  rewrite filter_cons. destruct (decide (x < n)); simpl; lia.
Qed.

Lemma gap_loop_sorted g seq arr comps :
  (g <= length (gaps seq))%nat ->
  (forall k : nat, (k < g)%nat -> 1 <= gaps seq !!! k) ->
  sorted_below arr (length arr) -> 0 <= comps < 2 ^ 64 ->
  gap_loop g seq (Z.of_nat (length arr)) arr comps
  = Some (arr, wrap64 (comps + sorted_input_comparisons (Z.of_nat (length arr)) (take g (gaps seq)))).
Proof.
  revert comps. induction g as [|g IH]; intros comps Hg Hpos Hs Hc.
  - simpl. unfold sorted_input_comparisons. simpl.
    rewrite Z.add_0_r, wrap64_small by exact Hc. done.
  - cbn [gap_loop].
    rewrite (take_S_r _ _ (gaps seq !!! g)) by (apply list_lookup_lookup_total_lt; lia).
    rewrite comparisons_snoc.
    assert (Hpos' : forall k : nat, (k < g)%nat -> 1 <= gaps seq !!! k)
      by (intros k Hk; apply Hpos; lia).
    specialize (Hpos g ltac:(lia)).
    destruct (Z.leb_spec (Z.of_nat (length arr)) (gaps seq !!! g)) as [Hskip|Hpass].
    + rewrite IH; [|lia|exact Hpos'|exact Hs|exact Hc]. do 3 f_equal. lia.
    + rewrite pass_loop_sorted; [|lia|lia|exact Hs|exact Hc].
      cbn [mbind option_bind].
      rewrite IH; [|lia|exact Hpos'|exact Hs|apply wrap64_range].
      rewrite wrap64_add_l. do 3 f_equal. lia.
Qed.

End SortedInput.

(** C3. On an ascending array of length [n], with a gap sequence that
    satisfies the invariants, [shellsort] leaves the array as it is and
    returns the sum over the gaps [g < n] of [n - g], reduced modulo 2^64 as
    the [uint64_t] counter is; below 2^64 it is that sum exactly. *)
Theorem shellsort_sorted_input_count (arr : list Z) (seq : gap_sequence_t) :
  gap_invariants (gaps seq) -> Sorted Z.le arr ->
  shellsort arr (Z.of_nat (length arr)) seq
  = Some (arr, wrap64 (sorted_input_comparisons (Z.of_nat (length arr)) (gaps seq)))
  /\ (sorted_input_comparisons (Z.of_nat (length arr)) (gaps seq) < 2 ^ 64 ->
      shellsort arr (Z.of_nat (length arr)) seq
      = Some (arr, sorted_input_comparisons (Z.of_nat (length arr)) (gaps seq))).
Proof.
  intros Hinv Hs.
  destruct (SortFacts.gap_invariants_lookup _ Hinv) as (_ & _ & Hpos).
  assert (H : shellsort arr (Z.of_nat (length arr)) seq
    = Some (arr, wrap64 (sorted_input_comparisons (Z.of_nat (length arr)) (gaps seq)))).
  { unfold shellsort.
    rewrite SortedInput.gap_loop_sorted;
      [|lia|exact Hpos|apply Sorted_le_sorted_below, Hs|lia].
    rewrite firstn_all. done. }
  split; [exact H|]. intros Hlt. rewrite H. rewrite wrap64_small; [done|].
  split; [apply SortedInput.comparisons_nonneg|exact Hlt].
Qed.

Lemma shellsort_sorted_input_count_witness :
  (gap_invariants [1; 4; 10] /\ Sorted Z.le [-2; 0; 0; 1; 3; 5; 8; 13; 21; 34; 55; 89])
  /\ (shellsort [-2; 0; 0; 1; 3; 5; 8; 13; 21; 34; 55; 89] 12
        (mk_gap_sequence "Ciura" [1; 4; 10])
      = Some ([-2; 0; 0; 1; 3; 5; 8; 13; 21; 34; 55; 89], wrap64 21)
      /\ (21 < 2 ^ 64 ->
          shellsort [-2; 0; 0; 1; 3; 5; 8; 13; 21; 34; 55; 89] 12
            (mk_gap_sequence "Ciura" [1; 4; 10])
          = Some ([-2; 0; 0; 1; 3; 5; 8; 13; 21; 34; 55; 89], 21))).
Proof.
  assert (Hg : gap_invariants [1; 4; 10]).
  { split; [done|done|repeat constructor|repeat constructor]. }
  assert (Hs : Sorted Z.le [-2; 0; 0; 1; 3; 5; 8; 13; 21; 34; 55; 89]).
  { repeat constructor; done. }
  split; [split; [exact Hg|exact Hs]|].
  exact (shellsort_sorted_input_count [-2; 0; 0; 1; 3; 5; 8; 13; 21; 34; 55; 89]
           (mk_gap_sequence "Ciura" [1; 4; 10]) Hg Hs).
Defined.

(** ** gap_sequence_valid *)

Module ValidFacts.

Import Valid.








Lemma substring_all (s : string) (n : nat) :
  (String.length s <= n)%nat -> String.substring 0 n s = s.
Proof.
  revert n. induction s as [|c s IH]; intros n Hn.
  - destruct n; done.
  - destruct n as [|n]; simpl in Hn; [lia|]. simpl. rewrite IH by lia. done.
Qed.


End ValidFacts.


(** The hand-built sequence [1; 4; 10; 23] is accepted, and one sequence of
    each rejected kind gets the text of its violation. *)
Example gap_sequence_valid_examples :
  gap_sequence_valid (mk_gap_sequence "hand" [1; 4; 10; 23]) (Some ""%string) 256
    = (1, Some ""%string)
  /\ gap_sequence_valid (mk_gap_sequence "hand" []) (Some ""%string) 256
    = (0, Some "Empty sequence"%string)
  /\ gap_sequence_valid (mk_gap_sequence "hand" [2; 4]) (Some ""%string) 256
    = (0, Some "First gap must be 1, got 2"%string)
  /\ gap_sequence_valid (mk_gap_sequence "hand" [1; 0; 4]) (Some ""%string) 256
    = (0, Some "Gap 1 is zero"%string)
  /\ gap_sequence_valid (mk_gap_sequence "hand" [1; 4; 4; 23]) (Some ""%string) 256
    = (0, Some "Not strictly increasing: gaps[2]=4 <= gaps[1]=4"%string).
Proof. vm_compute. repeat split. Qed.

(** ** rng_uniform and rng_shuffle *)

(** Known answers of the generator: one step of splitmix64 from 0, and the
    first output of xoshiro256** seeded with 0. *)
Example rng_known_answers :
  splitmix64 0 = (0x9e3779b97f4a7c15, 0xe220a8397b1dcdaf)
  /\ snd (rng_next (rng_seed 0)) = 11091344671253066420.
Proof. vm_compute. split; reflexivity. Qed.

Module ShuffleFacts.

Lemma reject_loop_result fuel rng n threshold :
  0 < n ->
  match Uniform.reject_loop fuel rng n threshold with
  | Ok (_, r) => 0 <= r < n
  | OutOfBounds _ => False
  | OutOfFuel => True
  end.
Proof.
  intros Hn. revert rng. induction fuel as [|fuel IH]; intros rng; [done|].
  cbn [Uniform.reject_loop].
  destruct (rng_next rng) as [rng1 r].
  destruct (threshold <=? r); [|apply IH].
  apply Z.mod_pos_bound. exact Hn.
Qed.

(** [rng_uniform(rng, n)] returns a value below [n], and 0 for [n = 0]; it
    reads no array. *)
Lemma rng_uniform_result fuel rng n :
  0 <= n ->
  match rng_uniform fuel rng n with
  | Ok (_, r) => 0 <= r /\ (r < n \/ (n = 0 /\ r = 0))
  | OutOfBounds _ => False
  | OutOfFuel => True
  end.
Proof.
  intros Hn. unfold rng_uniform. destruct (Z.eqb_spec n 0) as [->|Hne]; [lia|].
  pose proof (reject_loop_result fuel rng n (wrap64 (- n) mod n) ltac:(lia)) as H.
  destruct (Uniform.reject_loop _ _ _ _) as [[rng1 r]| |]; lia || done.
Qed.

Lemma loop_unfold fuel i st :
  Shuffle.loop fuel (S i) st
  = ('(rng1, j) ← rng_uniform fuel (sh_rng st) (wrap64 (Z.of_nat (S i) + 1));
     tmp ← load (sh_arr st) (Z.of_nat (S i));
     aj ← load (sh_arr st) j;
     arr1 ← store (sh_arr st) (Z.of_nat (S i)) aj;
     arr2 ← store arr1 j tmp;
     Shuffle.loop fuel i (mk_shuffle rng1 arr2 (draws st + 1))).
Proof. reflexivity. Qed.

Lemma load_in_bounds arr i :
  0 <= i < Z.of_nat (length arr) -> load arr i = Ok (arr !!! Z.to_nat i).
Proof.
  intros H. unfold load.
  destruct (Z.leb_spec 0 i); [|lia]. destruct (Z.ltb_spec i (Z.of_nat (length arr))); [|lia].
  done.
Qed.

Lemma store_in_bounds arr i v :
  0 <= i < Z.of_nat (length arr) -> store arr i v = Ok (<[Z.to_nat i := v]> arr).
Proof.
  intros H. unfold store.
  destruct (Z.leb_spec 0 i); [|lia]. destruct (Z.ltb_spec i (Z.of_nat (length arr))); [|lia].
  done.
Qed.


(** The loop from the counter [i] down to 1, on an array with more than
    [i] elements: no access leaves the array, and a run that returns has
    swapped its way to a rearrangement with [i] draws. *)
Lemma loop_result fuel i st :
  Z.of_nat i < Z.of_nat (length (sh_arr st)) ->
  Z.of_nat (length (sh_arr st)) < 2 ^ 64 ->
  match Shuffle.loop fuel i st with
  | Ok st' => sh_arr st' ≡ₚ sh_arr st /\ draws st' = draws st + Z.of_nat i
  | OutOfBounds _ => False
  | OutOfFuel => True
  end.
Proof.
  revert st. induction i as [|i IH]; intros st Hi Hlen.
  { simpl. split; [done|lia]. }
  rewrite loop_unfold.
  rewrite (wrap64_small (Z.of_nat (S i) + 1)) by lia.
  pose proof (rng_uniform_result fuel (sh_rng st) (Z.of_nat (S i) + 1) ltac:(lia)) as Hj.
  destruct (rng_uniform fuel (sh_rng st) (Z.of_nat (S i) + 1)) as [[rng1 j]| |];
    [|done|done].
  cbn [mbind outcome_bind].
  rewrite (load_in_bounds _ (Z.of_nat (S i))) by lia. cbn [mbind outcome_bind].
  rewrite (load_in_bounds _ j) by lia. cbn [mbind outcome_bind].
  rewrite (store_in_bounds _ (Z.of_nat (S i))) by lia. cbn [mbind outcome_bind].
  rewrite (store_in_bounds _ j) by (rewrite length_insert; lia). cbn [mbind outcome_bind].
  set (arr2 := <[Z.to_nat j := _]> (<[Z.to_nat (Z.of_nat (S i)) := _]> (sh_arr st))).
  assert (Hperm : arr2 ≡ₚ sh_arr st).
  { apply Permutation_insert_swap; apply list_lookup_lookup_total_lt; lia. }
  assert (Hlen2 : length arr2 = length (sh_arr st)).
  { unfold arr2. rewrite !length_insert. done. }
  specialize (IH (mk_shuffle rng1 arr2 (draws st + 1))). cbn [sh_arr draws] in IH.
  rewrite Hlen2 in IH. specialize (IH ltac:(lia) Hlen).
  destruct (Shuffle.loop fuel i _) as [st'| |]; [|done|done].
  destruct IH as [Hp Hd]. split; [rewrite Hp; exact Hperm|lia].
Qed.

Lemma rng_shuffle_result fuel rng arr n :
  1 <= n -> n = Z.of_nat (length arr) -> n < 2 ^ 64 ->
  match rng_shuffle fuel rng arr n with
  | Ok st' => sh_arr st' ≡ₚ arr /\ draws st' = n - 1
  | OutOfBounds _ => False
  | OutOfFuel => True
  end.
Proof.
  intros H1 Hn Hlt. unfold rng_shuffle. rewrite wrap64_small by lia.
  pose proof (loop_result fuel (Z.to_nat (n - 1)) (mk_shuffle rng arr 0)) as H.
  cbn [sh_arr draws] in H. specialize (H ltac:(lia) ltac:(lia)).
  destruct (Shuffle.loop _ _ _) as [st'| |]; [|done|done].
  destruct H as [Hp Hd]. split; [done|lia].
Qed.






End ShuffleFacts.

(** ** When the rejection loops end *)

Module StreamFacts.

Lemma rng_advance_S k rng :
  rng_advance (S k) rng = rng_advance k (fst (rng_next rng)).
Proof. exact (Nat.iter_succ_r k (fun r => fst (rng_next r)) rng). Qed.

Lemma rng_advance_add j k rng :
  rng_advance (j + k) rng = rng_advance k (rng_advance j rng).
Proof.
  revert rng. induction j as [|j IH]; intros rng; [done|].
  cbn [Nat.add]. rewrite !rng_advance_S. apply IH.
Qed.

Lemma rng_output_add j k rng :
  rng_output rng (j + k) = rng_output (rng_advance j rng) k.
Proof. unfold rng_output. rewrite rng_advance_add. done. Qed.

Lemma stream_acceptsb_correct fuel n rng :
  stream_acceptsb fuel n rng = true -> stream_accepts fuel n rng.
Proof.
  unfold stream_acceptsb. rewrite forallb_forall. intros H k Hk.
  specialize (H k). rewrite in_seq in H. specialize (H ltac:(lia)).
  apply existsb_exists in H as (j & Hj & Hle). apply in_seq in Hj.
  exists j. split; [lia|]. apply Z.leb_le, Hle.
Qed.

(** The rejection loop returns at the first value of the generator that
    is not below the threshold. *)
Lemma reject_loop_accepts fuel rng n threshold (j : nat) :
  (j < fuel)%nat -> threshold <= rng_output rng j ->
  exists i : nat,
    (i <= j)%nat
    /\ Uniform.reject_loop fuel rng n threshold
       = Ok (rng_advance (S i) rng, rng_output rng i mod n)
    /\ threshold <= rng_output rng i
    /\ forall i' : nat, (i' < i)%nat -> rng_output rng i' < threshold.
Proof.
  revert rng j. induction fuel as [|fuel IH]; intros rng j Hj Hacc; [lia|].
  cbn [Uniform.reject_loop].
  destruct (rng_next rng) as [rng1 r] eqn:Enext.
  assert (Hr : rng_output rng 0 = r)
    by (change (rng_output rng 0) with (snd (rng_next rng)); rewrite Enext; done).
  assert (H1 : rng_advance 1 rng = rng1)
    by (change (rng_advance 1 rng) with (fst (rng_next rng)); rewrite Enext; done).
  destruct (Z.leb_spec threshold r) as [Hle|Hlt].
  - exists 0%nat. rewrite H1, Hr. split; [lia|]. split; [done|]. split; [done|].
    intros i' Hi'. lia.
  - destruct j as [|j]; [lia|].
    change (S j) with (1 + j)%nat in Hacc. rewrite rng_output_add, H1 in Hacc.
    destruct (IH rng1 j ltac:(lia) Hacc) as (i & Hi & Hrun & Hthr & Hbelow).
    exists (S i). split; [lia|]. rewrite Hrun.
    change (S (S i)) with (1 + S i)%nat. change (S i) with (1 + i)%nat.
    rewrite !rng_advance_add, !rng_output_add, H1.
    split; [done|]. split; [exact Hthr|].
    intros [|i'] Hi'; [lia|].
    change (S i') with (1 + i')%nat. rewrite rng_output_add, H1. apply Hbelow. lia.
Qed.


(** [rng_uniform(rng, n)] returns when a value of at least [n] is among the
    first [fuel] values. *)
Lemma rng_uniform_accepts fuel rng n bound (j : nat) :
  1 <= n <= bound -> n < 2 ^ 64 ->
  (j < fuel)%nat -> bound <= rng_output rng j ->
  exists (i : nat) v,
    (i < fuel)%nat /\ rng_uniform fuel rng n = Ok (rng_advance (S i) rng, v).
Proof.
  intros Hn H64 Hj Hacc. unfold rng_uniform.
  destruct (Z.eqb_spec n 0) as [->|_]; [lia|].
  assert (Ht : wrap64 (- n) mod n < n) by (apply Z.mod_pos_bound; lia).
  destruct (reject_loop_accepts fuel rng n (wrap64 (- n) mod n) j Hj ltac:(lia))
    as (i & Hi & Hrun & _).
  exists i, (rng_output rng i mod n). split; [lia|exact Hrun].
Qed.

Lemma load_no_fuel arr i : load arr i <> OutOfFuel.
Proof. unfold load. destruct (_ && _); done. Qed.

Lemma store_no_fuel arr i v : store arr i v <> OutOfFuel.
Proof. unfold store. destruct (_ && _); done. Qed.

(** The loop of [rng_shuffle] does not run out of fuel when the generator
    accepts; it leaves the generator [k] calls further, one call at least
    and [fuel] at most for each draw. *)
Lemma loop_total fuel n i st :
  Z.of_nat i < n -> n < 2 ^ 64 ->
  (forall k : nat, (k <= i * fuel)%nat ->
     exists j : nat, (j < fuel)%nat /\ n <= rng_output (sh_rng st) (k + j)) ->
  match Shuffle.loop fuel i st with
  | Ok st' =>
      exists k : nat, sh_rng st' = rng_advance k (sh_rng st) /\ (i <= k <= i * fuel)%nat
  | OutOfBounds _ => True
  | OutOfFuel => False
  end.
Proof.
  intros Hi H64. revert st. induction i as [|i IH]; intros st Hwin.
  { simpl. exists 0%nat. split; [done|lia]. }
  rewrite ShuffleFacts.loop_unfold.
  rewrite (wrap64_small (Z.of_nat (S i) + 1)) by lia.
  destruct (Hwin 0%nat ltac:(lia)) as (j & Hj & Hacc). cbn [Nat.add] in Hacc.
  destruct (rng_uniform_accepts fuel (sh_rng st) (Z.of_nat (S i) + 1) n j
              ltac:(lia) ltac:(lia) Hj Hacc) as (d & v & Hd & ->).
  cbn [mbind outcome_bind].
  pose proof (load_no_fuel (sh_arr st) (Z.of_nat (S i))) as Hl1.
  destruct (load (sh_arr st) (Z.of_nat (S i))) as [tmp|x|]; [|done|done].
  cbn [mbind outcome_bind].
  pose proof (load_no_fuel (sh_arr st) v) as Hl2.
  destruct (load (sh_arr st) v) as [aj|x|]; [|done|done].
  cbn [mbind outcome_bind].
  pose proof (store_no_fuel (sh_arr st) (Z.of_nat (S i)) aj) as Hs1.
  destruct (store (sh_arr st) (Z.of_nat (S i)) aj) as [arr1|x|]; [|done|done].
  cbn [mbind outcome_bind].
  pose proof (store_no_fuel arr1 v tmp) as Hs2.
  destruct (store arr1 v tmp) as [arr2|x|]; [|done|done].
  cbn [mbind outcome_bind].
  assert (Hi' : Z.of_nat i < n) by lia.
  specialize (IH Hi' (mk_shuffle (rng_advance (S d) (sh_rng st)) arr2 (draws st + 1))).
  cbn [sh_rng] in IH.
  assert (Hwin' : forall k : nat, (k <= i * fuel)%nat ->
            exists j : nat, (j < fuel)%nat
              /\ n <= rng_output (rng_advance (S d) (sh_rng st)) (k + j)).
  { intros k Hk. destruct (Hwin (S d + k)%nat ltac:(lia)) as (j' & Hj' & Hacc').
    exists j'. split; [exact Hj'|].
    rewrite <- rng_output_add. rewrite <- Nat.add_assoc in Hacc'. exact Hacc'. }
  specialize (IH Hwin').
  destruct (Shuffle.loop fuel i _) as [st'|x|]; [|done|done].
  destruct IH as (k & Hk & Hrange). exists (S d + k)%nat.
  split; [rewrite rng_advance_add; exact Hk|lia].
Qed.

(** [rng_shuffle] returns when the generator accepts. *)
Lemma rng_shuffle_total fuel rng arr n :
  1 <= n -> n = Z.of_nat (length arr) -> n < 2 ^ 64 ->
  stream_accepts fuel n rng ->
  exists st (k : nat),
    rng_shuffle fuel rng arr n = Ok st
    /\ sh_arr st ≡ₚ arr /\ draws st = n - 1
    /\ sh_rng st = rng_advance k rng
    /\ n - 1 <= Z.of_nat k <= (n - 1) * Z.of_nat fuel.
Proof.
  intros H1 Hn H64 Hacc.
  pose proof (ShuffleFacts.rng_shuffle_result fuel rng arr n H1 Hn H64) as Hres.
  unfold rng_shuffle in *. rewrite wrap64_small in * by lia.
  pose proof (loop_total fuel n (Z.to_nat (n - 1)) (mk_shuffle rng arr 0)
                ltac:(lia) H64) as Htot.
  cbn [sh_rng] in Htot.
  assert (Hwin : forall k : nat, (k <= Z.to_nat (n - 1) * fuel)%nat ->
            exists j : nat, (j < fuel)%nat /\ n <= rng_output rng (k + j)).
  { intros k Hk. apply Hacc. nia. }
  specialize (Htot Hwin).
  destruct (Shuffle.loop fuel _ _) as [st|x|]; [|done|done].
  destruct Hres as [Hperm Hdraws]. destruct Htot as (k & Hk & Hrange).
  exists st, k. split; [done|]. split; [exact Hperm|]. split; [exact Hdraws|].
  split; [exact Hk|]. nia.
Qed.


End StreamFacts.




(** A run of the shuffle that returns, with its four draws. *)
Example rng_shuffle_run :
  rng_shuffle 2 (rng_seed 1) [0; 1; 2; 3; 4] 5
  = Ok (mk_shuffle
          (mk_rng 17928649692400055157 15541052589837281271
                  2948846242091380515 6929072272838546467)
          [0; 1; 3; 4; 2] 4).
Proof. vm_compute. reflexivity. Qed.

(** ** permgen.c: one row of a dataset *)

Module PermgenFacts.

Import Permgen.


Lemma to_int32_small (z : Z) : - 2 ^ 31 <= z < 2 ^ 31 -> to_int32 z = z.
Proof.
  intros H. unfold to_int32. rewrite Z.mod_small; [lia|].
  change (2 ^ 32) with (2 ^ 31 + 2 ^ 31). lia.
Qed.

Lemma init_loop_unfold todo arr i :
  init_loop (S todo) arr i
  = (arr1 ← store arr i (to_int32 i); init_loop todo arr1 (i + 1)).
Proof. reflexivity. Qed.

(** The initialisation writes [(int32_t)k] at every index [k] it visits. *)
Lemma init_loop_result todo arr (i : nat) :
  (i + todo <= length arr)%nat ->
  exists arr',
    init_loop todo arr (Z.of_nat i) = Ok arr'
    /\ length arr' = length arr
    /\ forall k : nat,
         arr' !! k
         = if decide (i <= k < i + todo)%nat then Some (to_int32 (Z.of_nat k))
           else arr !! k.
Proof.
  revert arr i. induction todo as [|todo IH]; intros arr i Hn.
  { exists arr. split; [done|]. split; [done|]. intros k.
    destruct (decide _); [lia|done]. }
  rewrite init_loop_unfold, ShuffleFacts.store_in_bounds by lia.
  cbn [mbind outcome_bind]. rewrite Nat2Z.id.
  replace (Z.of_nat i + 1) with (Z.of_nat (S i)) by lia.
  destruct (IH (<[i := to_int32 (Z.of_nat i)]> arr) (S i)) as (arr' & -> & Hlen & Hk).
  { rewrite length_insert. lia. }
  exists arr'. split; [done|]. rewrite length_insert in Hlen. split; [done|].
  intros k. rewrite Hk.
  destruct (decide (S i <= k < S i + todo)%nat), (decide (i <= k < i + S todo)%nat);
    try lia; try done.
  - destruct (decide (k = i)) as [->|Hne].
    + rewrite list_lookup_insert_eq by lia. done.
    + lia.
  - rewrite list_lookup_insert_ne by lia. done.
Qed.

Lemma init_row (N : Z) :
  0 <= N < 2 ^ 62 ->
  init_loop (Z.to_nat N) (alloc_row N) 0 = Ok (to_int32 <$> seqZ 0 N).
Proof.
  intros HN.
  assert (Hlen : length (alloc_row N) = Z.to_nat N).
  { unfold alloc_row. rewrite length_replicate, wrap64_small, Z.div_mul; [done|done|].
    change (2 ^ 64) with (2 ^ 62 * 4). lia. }
  destruct (init_loop_result (Z.to_nat N) (alloc_row N) 0 ltac:(lia))
    as (arr' & Hrun & Hlen' & Hk).
  change (Z.of_nat 0) with 0 in Hrun. rewrite Hrun. f_equal.
  apply list_eq. intros k. rewrite Hk, list_lookup_fmap.
  destruct (decide (0 <= k < 0 + Z.to_nat N)%nat) as [Hin|Hout].
  - rewrite lookup_seqZ_lt by lia. done.
  - rewrite lookup_seqZ_ge by lia.
    rewrite lookup_ge_None_2 by lia. done.
Qed.

(** A row that is returned is a rearrangement of the initialised array, and
    no access leaves the array. *)
Lemma generate_row_result fuel master_seed N t :
  1 <= N < 2 ^ 62 ->
  match generate_row fuel master_seed N t with
  | Ok row => row ≡ₚ to_int32 <$> seqZ 0 N
  | OutOfBounds _ => False
  | OutOfFuel => True
  end.
Proof.
  intros HN. unfold generate_row. rewrite init_row by lia.
  cbn [mbind outcome_bind].
  pose proof (ShuffleFacts.rng_shuffle_result fuel
                (rng_seed (derive_seed master_seed N t)) (to_int32 <$> seqZ 0 N) N) as H.
  rewrite length_fmap, length_seqZ in H.
  specialize (H ltac:(lia) ltac:(lia)).
  assert (Hlt : N < 2 ^ 64) by (change (2 ^ 64) with (2 ^ 62 * 4); lia).
  specialize (H Hlt).
  destruct (rng_shuffle _ _ _ _) as [st| |]; [|done|done].
  cbn [mbind outcome_bind]. apply H.
Qed.


Lemma identity_fits_int32 (N : Z) :
  N <= 2 ^ 31 -> to_int32 <$> seqZ 0 N = seqZ 0 N.
Proof.
  intros HN. apply list_eq. intros k. rewrite list_lookup_fmap.
  destruct (decide (Z.of_nat k < N)) as [Hk|Hk].
  - rewrite lookup_seqZ_lt by lia. simpl. rewrite to_int32_small; [done|lia].
  - rewrite lookup_seqZ_ge by lia. done.
Qed.

End PermgenFacts.

Module RowFacts.

(** A row is produced when the generator accepts. *)
Lemma generate_row_total fuel master_seed N t :
  1 <= N < 2 ^ 62 ->
  stream_accepts fuel N (rng_seed (derive_seed master_seed N t)) ->
  exists row, Permgen.generate_row fuel master_seed N t = Ok row.
Proof.
  intros HN Hacc. unfold Permgen.generate_row. rewrite PermgenFacts.init_row by lia.
  cbn [mbind outcome_bind].
  assert (H64 : N < 2 ^ 64) by (change (2 ^ 64) with (2 ^ 62 * 4); lia).
  destruct (StreamFacts.rng_shuffle_total fuel (rng_seed (derive_seed master_seed N t))
              (to_int32 <$> seqZ 0 N) N) as (st & k & -> & _); try lia.
  - rewrite length_fmap, length_seqZ. lia.
  - exact Hacc.
  - cbn [mbind outcome_bind]. by eexists.
Qed.

End RowFacts.



(** The row of the witness. *)
Example generate_row_run :
  Permgen.generate_row 2 0xC0FFEE1234 10 0 = Ok [9; 5; 2; 3; 6; 8; 7; 1; 0; 4].
Proof. vm_compute. reflexivity. Qed.


(** ** The dataset loaders *)

Module LoaderFacts.

(** [load_dataset] of [bench.c] returns a dataset only from a file that
    starts with the magic and stores the [N] that was asked for. *)
Lemma bench_load_dataset_checks fs malloc_ok dir N ds :
  Bench.load_dataset fs malloc_ok dir N = Loaded ds ->
  exists f rest,
    fs (File.perm_path dir N) = Some f
    /\ File.fread_u64 f = (Some Bench.MAGIC, rest)
    /\ fst (File.fread_u64 rest) = Some N
    /\ Bench.ds_N ds = N.
Proof.
  unfold Bench.load_dataset. intros H.
  destruct (fs (File.perm_path dir N)) as [f|]; [|done].
  destruct (File.fread_u64 f) as [[magic|] f1] eqn:E0; [|done].
  destruct (Z.eqb_spec magic Bench.MAGIC) as [->|]; [|done]. simpl in H.
  destruct (File.fread_u64 f1) as [[stored|] f2] eqn:E1; [|done].
  destruct (File.fread_u64 f2) as [[trials|] f3]; [|done].
  destruct (File.fread_u64 f3) as [[seed|] f4]; [|done].
  destruct (Z.eqb_spec stored N) as [->|]; [|done]. simpl in H.
  destruct (malloc_ok _); [|done]. simpl in H.
  destruct (_ =? _); [|done]. simpl in H. injection H as <-.
  exists f, f1. rewrite E1. done.
Qed.

(** The four loaders reject a file whose first word is not the magic. *)
Lemma load_dataset_rejects_magic fs malloc_ok dir N f magic rest :
  fs (File.perm_path dir N) = Some f ->
  File.fread_u64 f = (Some magic, rest) ->
  magic <> 0x5045524D47454E31 ->
  Bench.load_dataset fs malloc_ok dir N = LoadFailed
  /\ Validate.load_dataset fs malloc_ok dir N = LoadFailed
  /\ FullBench.load_dataset fs malloc_ok dir N = LoadFailed
  /\ AllBaselines.load_dataset fs malloc_ok dir N = LoadFailed.
Proof.
  intros Hf Hm Hne.
  unfold Bench.load_dataset, Validate.load_dataset, FullBench.load_dataset,
    AllBaselines.load_dataset.
  rewrite Hf, Hm.
  unfold Bench.MAGIC, Validate.MAGIC, FullBench.MAGIC, AllBaselines.MAGIC.
  destruct (Z.eqb_spec magic 0x5045524D47454E31); done.
Qed.

End LoaderFacts.

(** C7 at the failing input. Asked for [N = 1000000] and given a file that
    stores [N = 5], the loader of [bench.c] fails, while the loaders of
    [validate.c], [full_bench.c] and [all_baselines_bench.c] return the
    dataset of the file, with [N = 5]. *)
Theorem load_dataset_accepts_other_N :
  Bench.load_dataset renamed_file always_succeeds "perms" 1000000
    = LoadFailed
  /\ Validate.load_dataset renamed_file always_succeeds "perms" 1000000
    = Loaded (mk_dataset 5 1 [3; 1; 4; 0; 2])
  /\ FullBench.load_dataset renamed_file always_succeeds "perms" 1000000
    = Loaded (mk_dataset 5 1 [3; 1; 4; 0; 2])
  /\ AllBaselines.load_dataset renamed_file always_succeeds "perms" 1000000
    = Loaded (mk_dataset 5 1 [3; 1; 4; 0; 2]).
Proof. vm_compute. repeat split. Qed.

(** ** Statistics *)

Module StatsFacts.

Open Scope float_scope.

Lemma sum_sq_counts_fold (counts : list Z) (mean : float) (i : nat) (acc : float) :
  Stats.sum_sq_counts (length (drop i counts)) counts mean (Z.of_nat i) acc
  = fold_left (fun acc c => acc + (Double.of_Z c - mean) * (Double.of_Z c - mean))
      (drop i counts) acc.
Proof.
  remember (length (drop i counts)) as todo eqn:Htodo.
  revert i acc Htodo. induction todo as [|todo IH]; intros i acc Htodo.
  - symmetry in Htodo. apply nil_length_inv in Htodo. rewrite Htodo. done.
  - assert (Hi : (i < length counts)%nat) by (rewrite length_drop in Htodo; lia).
    rewrite (drop_S counts (counts !!! i) i) by (apply list_lookup_lookup_total_lt; exact Hi).
    cbn [Stats.sum_sq_counts fold_left]. rewrite Nat2Z.id.
    replace (Z.of_nat i + 1)%Z with (Z.of_nat (S i)) by lia.
    apply IH. rewrite length_drop in *. lia.
Qed.

Lemma sum_sq_counts_all (counts : list Z) (mean : float) :
  Stats.sum_sq_counts (length counts) counts mean 0 0 = sum_sq_dev mean counts.
Proof. apply (sum_sq_counts_fold counts mean 0 0). Qed.

End StatsFacts.

Module MeanFacts.

Lemma sum_counts_fold (counts : list Z) (i : nat) (acc : float) :
  Stats.sum_counts (length (drop i counts)) counts (Z.of_nat i) acc
  = fold_left (fun acc c => (acc + Double.of_Z c)%float) (drop i counts) acc.
Proof.
  remember (length (drop i counts)) as todo eqn:Htodo.
  revert i acc Htodo. induction todo as [|todo IH]; intros i acc Htodo.
  - symmetry in Htodo. apply nil_length_inv in Htodo. rewrite Htodo. done.
  - assert (Hi : (i < length counts)%nat) by (rewrite length_drop in Htodo; lia).
    rewrite (drop_S counts (counts !!! i) i) by (apply list_lookup_lookup_total_lt; exact Hi).
    cbn [Stats.sum_counts fold_left]. rewrite Nat2Z.id.
    replace (Z.of_nat i + 1)%Z with (Z.of_nat (S i)) by lia.
    apply IH. rewrite length_drop in *. lia.
Qed.

Lemma sum_counts_all (counts : list Z) :
  Stats.sum_counts (length counts) counts 0 0 = float_sum counts.
Proof. apply (sum_counts_fold counts 0 0%float). Qed.

Lemma total_min_max_fold (counts : list Z) (i : nat) (total : Z) (lo hi : float) :
  fst (fst (Stats.total_min_max (length (drop i counts)) counts (Z.of_nat i)
              (total, lo, hi)))
  = fold_left (fun acc c => wrap64 (acc + c)) (drop i counts) total.
Proof.
  remember (length (drop i counts)) as todo eqn:Htodo.
  revert i total lo hi Htodo. induction todo as [|todo IH]; intros i total lo hi Htodo.
  - symmetry in Htodo. apply nil_length_inv in Htodo. rewrite Htodo. done.
  - assert (Hi : (i < length counts)%nat) by (rewrite length_drop in Htodo; lia).
    rewrite (drop_S counts (counts !!! i) i) by (apply list_lookup_lookup_total_lt; exact Hi).
    cbn [Stats.total_min_max fold_left]. rewrite Nat2Z.id.
    replace (Z.of_nat i + 1)%Z with (Z.of_nat (S i)) by lia.
    apply IH. rewrite length_drop in *. lia.
Qed.

Lemma total_min_max_all (counts : list Z) (lo hi : float) :
  fst (fst (Stats.total_min_max (length counts) counts 0 (0, lo, hi)))
  = total_count counts.
Proof. apply (total_min_max_fold counts 0 0 lo hi). Qed.

End MeanFacts.

(** C9. For the per-trial comparison counts of [n >= 2] trials, the
    aggregation of [bench.c] takes for the mean the total of the counts
    divided by [n] and for the standard deviation the root of the sum of
    the squared deviations from that mean divided by [n], the population
    estimator; the one of [full_bench.c] takes the sum of the counts
    divided by [n] and divides the squared deviations by [n - 1], the
    sample estimator; and both divide their standard deviation by the root
    of [n] for the standard error. *)
Theorem stddev_denominators (seq_name : string) (N : Z) (comp_counts move_counts : list Z)
    (times : list float) :
  2 <= Z.of_nat (length comp_counts) < 2 ^ 64 ->
  (BenchStats.total_comparisons
     (BenchStats.summarize seq_name N (Z.of_nat (length comp_counts))
        comp_counts move_counts times)
   = total_count comp_counts
   /\ BenchStats.mean_comparisons
        (BenchStats.summarize seq_name N (Z.of_nat (length comp_counts))
           comp_counts move_counts times)
      = (Double.of_Z (total_count comp_counts)
         / Double.of_Z (Z.of_nat (length comp_counts)))%float
   /\ BenchStats.stddev
        (BenchStats.summarize seq_name N (Z.of_nat (length comp_counts))
           comp_counts move_counts times)
      = population_stddev
          (Double.of_Z (total_count comp_counts)
           / Double.of_Z (Z.of_nat (length comp_counts)))%float
          comp_counts
   /\ BenchStats.stderr_val
        (BenchStats.summarize seq_name N (Z.of_nat (length comp_counts))
           comp_counts move_counts times)
      = standard_error
          (population_stddev
             (Double.of_Z (total_count comp_counts)
              / Double.of_Z (Z.of_nat (length comp_counts)))%float
             comp_counts)
          comp_counts)
  /\ (FullStats.mean_comps
        (FullStats.compute_stats (FullStats.of_counts comp_counts times))
      = (float_sum comp_counts / Double.of_Z (Z.of_nat (length comp_counts)))%float
      /\ FullStats.stddev_comps
           (FullStats.compute_stats (FullStats.of_counts comp_counts times))
         = sample_stddev
             (float_sum comp_counts / Double.of_Z (Z.of_nat (length comp_counts)))%float
             comp_counts
      /\ FullStats.stderr_comps
           (FullStats.compute_stats (FullStats.of_counts comp_counts times))
         = standard_error
             (sample_stddev
                (float_sum comp_counts
                 / Double.of_Z (Z.of_nat (length comp_counts)))%float
                comp_counts)
             comp_counts).
Proof.
  intros Hn. split.
  - unfold BenchStats.summarize.
    pose proof (MeanFacts.total_min_max_all comp_counts
                  (Double.of_Z (comp_counts !!! 0%nat))
                  (Double.of_Z (comp_counts !!! 0%nat))) as Htotal.
    rewrite Nat2Z.id.
    destruct (Stats.total_min_max _ _ _ _) as [[total lo] hi].
    cbn [fst] in Htotal. subst total.
    cbn [BenchStats.total_comparisons BenchStats.stddev BenchStats.stderr_val
         BenchStats.mean_comparisons].
    rewrite StatsFacts.sum_sq_counts_all. done.
  - unfold FullStats.compute_stats, FullStats.of_counts.
    cbn [FullStats.stddev_comps FullStats.stderr_comps FullStats.mean_comps
         FullStats.trials FullStats.comparisons FullStats.runtimes_us].
    rewrite Nat2Z.id, MeanFacts.sum_counts_all, StatsFacts.sum_sq_counts_all,
      wrap64_small by lia.
    done.
Qed.

Lemma stddev_denominators_witness :
  (2 <= Z.of_nat (length [8; 10; 12]%Z) < 2 ^ 64)
  /\ (BenchStats.total_comparisons
        (BenchStats.summarize "Ciura" 5 (Z.of_nat (length [8; 10; 12]%Z))
           [8; 10; 12]%Z [4; 5; 6] [1%float; 2%float; 3%float])
      = total_count [8; 10; 12]%Z
      /\ BenchStats.mean_comparisons
           (BenchStats.summarize "Ciura" 5 (Z.of_nat (length [8; 10; 12]%Z))
              [8; 10; 12]%Z [4; 5; 6] [1%float; 2%float; 3%float])
         = (Double.of_Z (total_count [8; 10; 12]%Z)
            / Double.of_Z (Z.of_nat (length [8; 10; 12]%Z)))%float
      /\ BenchStats.stddev
           (BenchStats.summarize "Ciura" 5 (Z.of_nat (length [8; 10; 12]%Z))
              [8; 10; 12]%Z [4; 5; 6] [1%float; 2%float; 3%float])
         = population_stddev
             (Double.of_Z (total_count [8; 10; 12]%Z)
              / Double.of_Z (Z.of_nat (length [8; 10; 12]%Z)))%float
             [8; 10; 12]%Z
      /\ BenchStats.stderr_val
           (BenchStats.summarize "Ciura" 5 (Z.of_nat (length [8; 10; 12]%Z))
              [8; 10; 12]%Z [4; 5; 6] [1%float; 2%float; 3%float])
         = standard_error
             (population_stddev
                (Double.of_Z (total_count [8; 10; 12]%Z)
                 / Double.of_Z (Z.of_nat (length [8; 10; 12]%Z)))%float
                [8; 10; 12]%Z)
             [8; 10; 12]%Z)
  /\ (FullStats.mean_comps
        (FullStats.compute_stats
           (FullStats.of_counts [8; 10; 12]%Z [1%float; 2%float; 3%float]))
      = (float_sum [8; 10; 12]%Z / Double.of_Z (Z.of_nat (length [8; 10; 12]%Z)))%float
      /\ FullStats.stddev_comps
           (FullStats.compute_stats
              (FullStats.of_counts [8; 10; 12]%Z [1%float; 2%float; 3%float]))
         = sample_stddev
             (float_sum [8; 10; 12]%Z / Double.of_Z (Z.of_nat (length [8; 10; 12]%Z)))%float
             [8; 10; 12]%Z
      /\ FullStats.stderr_comps
           (FullStats.compute_stats
              (FullStats.of_counts [8; 10; 12]%Z [1%float; 2%float; 3%float]))
         = standard_error
             (sample_stddev
                (float_sum [8; 10; 12]%Z
                 / Double.of_Z (Z.of_nat (length [8; 10; 12]%Z)))%float
                [8; 10; 12]%Z)
             [8; 10; 12]%Z).
Proof.
  assert (H : 2 <= Z.of_nat (length [8; 10; 12]%Z) < 2 ^ 64)
    by (split; [intros H; discriminate H|reflexivity]).
  split; [exact H|].
  exact (stddev_denominators "Ciura" 5 [8; 10; 12]%Z [4; 5; 6]
           [1%float; 2%float; 3%float] H).
Defined.

(** The two estimators on the counts 8, 10, 12 and on four equal counts:
    the mean is 10, the sample standard deviation of [full_bench.c] is 2 and
    the population standard deviation of [bench.c] is the root of 8/3. *)
Example estimators_on_known_vectors :
  (let s := FullStats.compute_stats (FullStats.of_counts [8; 10; 12]%Z []) in
   FullStats.mean_comps s = 10 /\ FullStats.stddev_comps s = 2)%float
  /\ (let r := BenchStats.summarize "Ciura" 5%Z 3%Z [8; 10; 12]%Z [] [] in
      BenchStats.mean_comparisons r = 10
      /\ BenchStats.stddev r = sqrt (8 / 3)
      /\ BenchStats.min_comparisons r = 8 /\ BenchStats.max_comparisons r = 12)%float
  /\ (let s := FullStats.compute_stats (FullStats.of_counts [10; 10; 10; 10]%Z []) in
      FullStats.mean_comps s = 10 /\ FullStats.stddev_comps s = 0
      /\ FullStats.stderr_comps s = 0)%float
  /\ (let r := BenchStats.summarize "Ciura" 5%Z 4%Z [10; 10; 10; 10]%Z [] [] in
      BenchStats.mean_comparisons r = 10 /\ BenchStats.stddev r = 0
      /\ BenchStats.stderr_val r = 0)%float.
Proof. vm_compute. repeat split. Qed.

Module PairedFacts.

Open Scope float_scope.

Ltac zero_or_nan_case :=
  first [ left; reflexivity | right; left; reflexivity | right; right; reflexivity ].

Lemma zero_or_nan_of_spec (x : float) :
  Prim2SF x = S754_zero false \/ Prim2SF x = S754_zero true \/ Prim2SF x = S754_nan ->
  zero_or_nan x.
Proof.
  intros [H|[H|H]]; [left|right; left|right; right];
    apply Prim2SF_inj; rewrite H; reflexivity.
Qed.

(** [x - x] is [+0] for a finite [x] and NaN for an infinity or a NaN. *)
Lemma sub_self (x : float) : zero_or_nan (x - x).
Proof.
  apply zero_or_nan_of_spec. rewrite sub_spec. unfold SF64sub, SFsub.
  destruct (Prim2SF x) as [[]|[]| |s m e]; try tauto.
  rewrite Z.sub_diag. left. reflexivity.
Qed.

Lemma zero_or_nan_add (x y : float) :
  zero_or_nan x -> zero_or_nan y -> zero_or_nan (x + y).
Proof. intros [->|[->| ->]] [->|[->| ->]]; zero_or_nan_case. Qed.

Lemma zero_or_nan_sub (x y : float) :
  zero_or_nan x -> zero_or_nan y -> zero_or_nan (x - y).
Proof. intros [->|[->| ->]] [->|[->| ->]]; zero_or_nan_case. Qed.

Lemma zero_or_nan_mul (x y : float) :
  zero_or_nan x -> zero_or_nan y -> zero_or_nan (x * y).
Proof. intros [->|[->| ->]] [->|[->| ->]]; zero_or_nan_case. Qed.

Lemma zero_or_nan_sqrt (x : float) : zero_or_nan x -> zero_or_nan (sqrt x).
Proof. intros [->|[->| ->]]; zero_or_nan_case. Qed.

(** A zero or a NaN divided by anything is a zero or a NaN. *)
Lemma zero_or_nan_div (x y : float) : zero_or_nan x -> zero_or_nan (x / y).
Proof.
  intros Hx. apply zero_or_nan_of_spec. rewrite div_spec. unfold SF64div, SFdiv.
  destruct Hx as [->|[->| ->]];
    [change (Prim2SF 0) with (S754_zero false)
    |change (Prim2SF (-0)) with (S754_zero true)
    |change (Prim2SF nan) with S754_nan];
    destruct (Prim2SF y) as [[]|[]| |[] m e]; simpl; tauto.
Qed.

(** A zero or a NaN divided by a zero or a NaN is a NaN. *)
Lemma zero_or_nan_ratio (x y : float) :
  zero_or_nan x -> zero_or_nan y -> x / y = nan.
Proof. intros [->|[->| ->]] [->|[->| ->]]; reflexivity. Qed.

Lemma zero_or_nan_lookup (xs : list float) (k : nat) :
  Forall zero_or_nan xs -> zero_or_nan (xs !!! k).
Proof.
  intros H. rewrite list_lookup_total_alt.
  destruct (xs !! k) as [x|] eqn:E; simpl.
  - rewrite Forall_lookup in H. exact (H k x E).
  - left. reflexivity.
Qed.

Lemma diff_loop_same todo (counts : list Z) i diffs sum_diff :
  Forall zero_or_nan diffs -> zero_or_nan sum_diff ->
  Forall zero_or_nan (fst (FullStats.diff_loop todo counts counts i diffs sum_diff))
  /\ zero_or_nan (snd (FullStats.diff_loop todo counts counts i diffs sum_diff)).
Proof.
  revert i diffs sum_diff. induction todo as [|todo IH]; intros i diffs sum_diff Hd Hs.
  - simpl. done.
  - cbn [FullStats.diff_loop]. apply IH.
    + apply Forall_app. split; [exact Hd|]. constructor; [apply sub_self|constructor].
    + apply zero_or_nan_add; [exact Hs|apply sub_self].
Qed.

Lemma sum_sq_doubles_zero_or_nan todo (xs : list float) mean i var :
  Forall zero_or_nan xs -> zero_or_nan mean -> zero_or_nan var ->
  zero_or_nan (Stats.sum_sq_doubles todo xs mean i var).
Proof.
  intros Hxs Hm. revert i var. induction todo as [|todo IH]; intros i var Hv; [done|].
  cbn [Stats.sum_sq_doubles]. apply IH.
  assert (zero_or_nan (xs !!! Z.to_nat i - mean))
    by (apply zero_or_nan_sub; [apply zero_or_nan_lookup, Hxs|exact Hm]).
  apply zero_or_nan_add; [exact Hv|]. apply zero_or_nan_mul; assumption.
Qed.

(** For the counts of a sequence paired with themselves, whatever their
    number, the mean difference is a zero (or a NaN) and the t statistic is
    NaN. *)
Lemma paired_test_same erf (counts : list Z) (ta tb : list float) :
  exists mean_diff,
    zero_or_nan mean_diff
    /\ FullStats.paired_test erf (FullStats.of_counts counts ta)
         (FullStats.of_counts counts tb)
       = (mean_diff, nan, 2.0 * (1.0 - 0.5 * (1.0 + erf nan))).
Proof.
  unfold FullStats.paired_test, FullStats.of_counts.
  cbn [FullStats.trials FullStats.comparisons].
  set (n := if (_ <? _)%Z then _ else _).
  pose proof (diff_loop_same (Z.to_nat n) counts 0 [] 0 (Forall_nil_2 _)
                ltac:(left; reflexivity)) as [Hd Hs].
  destruct (FullStats.diff_loop (Z.to_nat n) counts counts 0 [] 0) as [diffs sum_diff].
  cbn [fst snd] in Hd, Hs.
  set (mean_diff := sum_diff / Double.of_Z n).
  assert (Hm : zero_or_nan mean_diff) by apply zero_or_nan_div, Hs.
  set (var := Stats.sum_sq_doubles (Z.to_nat n) diffs mean_diff 0 0).
  assert (Hv : zero_or_nan var).
  { apply sum_sq_doubles_zero_or_nan; [exact Hd|exact Hm|left; reflexivity]. }
  set (se := sqrt (var / Double.of_Z (wrap64 (n - 1))) / sqrt (Double.of_Z n)).
  assert (Hse : zero_or_nan se).
  { apply zero_or_nan_div, zero_or_nan_sqrt, zero_or_nan_div, Hv. }
  exists mean_diff. split; [exact Hm|].
  rewrite (zero_or_nan_ratio mean_diff se Hm Hse). reflexivity.
Qed.

End PairedFacts.

(** C8 at the failing inputs. For two identical count vectors of any length
    the standard error of the differences is a zero, so [paired_test]
    divides a zero by a zero: the t statistic is NaN and the p-value is what
    [erf] makes of a NaN argument. On the vectors [10; 10] the mean
    difference is 0 as the claim has it, and an [erf] that returns NaN for
    NaN, as the C library does, gives the p-value NaN and not 1. *)
Theorem paired_test_identical_is_nan (erf : float -> float) (counts : list Z) :
  (exists mean_diff,
     zero_or_nan mean_diff
     /\ FullStats.paired_test erf (FullStats.of_counts counts [])
          (FullStats.of_counts counts [])
        = (mean_diff, nan, 2.0 * (1.0 - 0.5 * (1.0 + erf nan)))%float)
  /\ FullStats.paired_test erf (FullStats.of_counts [10; 10] [])
       (FullStats.of_counts [10; 10] [])
     = (0, nan, 2.0 * (1.0 - 0.5 * (1.0 + erf nan)))%float
  /\ (erf nan = nan ->
      FullStats.paired_test erf (FullStats.of_counts [10; 10] [])
        (FullStats.of_counts [10; 10] [])
      = (0%float, nan, nan)).
Proof.
  split; [apply PairedFacts.paired_test_same|].
  assert (E : FullStats.paired_test erf (FullStats.of_counts [10; 10] [])
                (FullStats.of_counts [10; 10] [])
              = (0, nan, 2.0 * (1.0 - 0.5 * (1.0 + erf nan)))%float) by reflexivity.
  split; [exact E|]. intros H. rewrite E, H. reflexivity.
Qed.

(** ** The baseline generators *)

Module GapsFacts.

Import Gaps Stable.

Open Scope float_scope.

(** The reference [pow] is itself admissible. *)
Lemma pow_ref_faithful : Libm.pow_faithful Libm.pow_ref.
Proof.
  intros x y v cands H. unfold Libm.pow_ref. rewrite H.
  unfold Libm.pow_reference in H.
  destruct (_ || _).
  - destruct (Libm.small_exponent y) as [k|]; [|done].
    unfold Libm.pow_int in H.
    destruct (Prim2SF x) as [| | |[] m e]; try done.
    destruct (Libm.compare_exact _ _ _) as [[]|]; try done;
      injection H as <- <-; simpl; tauto.
  - destruct (PrimFloat.Leibniz.eqb x SKEAN_B); [|done].
    destruct (PrimFloat.Leibniz.eqb y 0).
    + injection H as <- <-. simpl. tauto.
    + destruct (Libm.skean_lookup _ _ _) as [w|]; [|done].
      injection H as <- <-. simpl. tauto.
Qed.

Lemma pow_in_candidates pow x y :
  Libm.pow_faithful pow -> candidates x y <> [] -> In (pow x y) (candidates x y).
Proof.
  intros Hpow Hne. unfold candidates in *.
  destruct (Libm.pow_reference x y) as [[v cands]|] eqn:E; [|done].
  exact (Hpow x y v cands E).
Qed.

Lemma nonempty_true {A} (l : list A) : nonempty l = true -> l <> [].
Proof. destruct l; done. Qed.

Lemma tokuda_stable_all : forallb tokuda_stable (seqZ 1 26) = true.
Proof. vm_compute. reflexivity. Qed.

Lemma lee_stable_all : forallb lee_stable (seqZ 1 26) = true.
Proof. vm_compute. reflexivity. Qed.

Lemma skean_stable_all : forallb skean_stable (seqZ 0 19) = true.
Proof. vm_compute. reflexivity. Qed.

Lemma stable_at (check : Z -> bool) (m n k : Z) :
  forallb check (seqZ m n) = true -> m <= k < m + n -> check k = true.
Proof.
  intros H Hk. rewrite forallb_forall in H. apply H.
  apply list_elem_of_In, elem_of_seqZ. exact Hk.
Qed.

Lemma tokuda_gap_ref pow k :
  Libm.pow_faithful pow -> (1 <= k <= 26)%Z ->
  tokuda_gap pow k = tokuda_gap Libm.pow_ref k.
Proof.
  intros Hpow Hk.
  pose proof (stable_at _ _ _ k tokuda_stable_all ltac:(lia)) as H.
  unfold tokuda_stable in H.
  apply andb_prop in H as [H Hall]. apply andb_prop in H as [H H3].
  apply andb_prop in H as [H1 H2].
  apply nonempty_true in H1, H2, H3.
  rewrite forallb_forall in Hall.
  specialize (Hall _ (pow_in_candidates pow _ _ Hpow H1)).
  rewrite forallb_forall in Hall.
  specialize (Hall _ (pow_in_candidates pow _ _ Hpow H2)).
  rewrite forallb_forall in Hall.
  specialize (Hall _ (pow_in_candidates pow _ _ Hpow H3)).
  apply bool_decide_eq_true in Hall. exact Hall.
Qed.

Lemma lee_gap_ref pow k :
  Libm.pow_faithful pow -> (1 <= k <= 26)%Z ->
  lee_gap pow k = lee_gap Libm.pow_ref k.
Proof.
  intros Hpow Hk.
  pose proof (stable_at _ _ _ k lee_stable_all ltac:(lia)) as H.
  unfold lee_stable in H. apply andb_prop in H as [H1 Hall].
  apply nonempty_true in H1. rewrite forallb_forall in Hall.
  specialize (Hall _ (pow_in_candidates pow _ _ Hpow H1)).
  apply bool_decide_eq_true in Hall. exact Hall.
Qed.

Lemma skean_gap_ref pow k :
  Libm.pow_faithful pow -> (0 <= k <= 18)%Z ->
  skean_gap pow k = skean_gap Libm.pow_ref k.
Proof.
  intros Hpow Hk.
  pose proof (stable_at _ _ _ k skean_stable_all ltac:(lia)) as H.
  unfold skean_stable in H. apply andb_prop in H as [H1 Hall].
  apply nonempty_true in H1. rewrite forallb_forall in Hall.
  specialize (Hall _ (pow_in_candidates pow _ _ Hpow H1)).
  apply bool_decide_eq_true in Hall. exact Hall.
Qed.

(** Two formulas that agree up to an exponent [K] at which the gap exceeds
    [max_gap] make the same sequence: the loop leaves at [K] at the latest. *)
Lemma bump_loop_ext (gap_of gap_of' : Z -> option Z) (K g : Z) todo k max_gap gaps :
  (k <= K)%Z ->
  (forall k', (k <= k' <= K)%Z -> gap_of k' = gap_of' k') ->
  gap_of' K = Some g -> (max_gap < g)%Z ->
  bump_loop gap_of todo k max_gap gaps = bump_loop gap_of' todo k max_gap gaps.
Proof.
  intros HK Hagree HgK Hlt. revert k gaps HK Hagree.
  induction todo as [|todo IH]; intros k gaps HK Hagree; [done|].
  cbn [bump_loop]. rewrite (Hagree k) by lia.
  destruct (gap_of' k) as [gap|] eqn:Hk; [|done]. cbn [mbind option_bind].
  destruct (Z.ltb_spec max_gap gap) as [|Hle]; [done|].
  assert (Hne : k <> K) by (intros ->; rewrite HgK in Hk; injection Hk as ->; lia).
  assert (IH' : forall gaps', bump_loop gap_of todo (k + 1) max_gap gaps'
                              = bump_loop gap_of' todo (k + 1) max_gap gaps').
  { intros gaps'. apply IH; [lia|]. intros k' Hk'. apply Hagree. lia. }
  destruct (last gaps) as [prev|]; [|apply IH'].
  destruct (gap <=? prev)%Z; [|apply IH'].
  destruct (max_gap <? wrap64 (prev + 1))%Z; [done|apply IH'].
Qed.

Lemma skip_loop_ext (gap_of gap_of' : Z -> option Z) (K g : Z) fuel k max_gap gaps :
  (k <= K)%Z ->
  (forall k', (k <= k' <= K)%Z -> gap_of k' = gap_of' k') ->
  gap_of' K = Some g -> (max_gap < g)%Z ->
  skip_loop gap_of fuel k max_gap gaps = skip_loop gap_of' fuel k max_gap gaps.
Proof.
  intros HK Hagree HgK Hlt. revert k gaps HK Hagree.
  induction fuel as [|fuel IH]; intros k gaps HK Hagree; [done|].
  cbn [skip_loop]. destruct (_ <? MAX_GAPS)%Z; [|done].
  rewrite (Hagree k) by lia.
  destruct (gap_of' k) as [gap|] eqn:Hk; [|done]. cbn [mbind option_bind].
  destruct (Z.ltb_spec max_gap gap) as [|Hle]; [done|].
  assert (Hne : k <> K) by (intros ->; rewrite HgK in Hk; injection Hk as ->; lia).
  assert (IH' : forall gaps', skip_loop gap_of fuel (k + 1) max_gap gaps'
                              = skip_loop gap_of' fuel (k + 1) max_gap gaps').
  { intros gaps'. apply IH; [lia|]. intros k' Hk'. apply Hagree. lia. }
  destruct (last gaps) as [prev|]; [|done]. cbn [mbind option_bind].
  destruct (gap <=? prev)%Z; apply IH'.
Qed.

(** More fuel does not change a sequence that was produced. *)
Lemma skip_loop_fuel (gap_of : Z -> option Z) fuel extra k max_gap gaps r :
  skip_loop gap_of fuel k max_gap gaps = Some r ->
  skip_loop gap_of (fuel + extra) k max_gap gaps = Some r.
Proof.
  revert k gaps. induction fuel as [|fuel IH]; intros k gaps H; [done|].
  cbn [skip_loop Nat.add] in *.
  destruct (_ <? MAX_GAPS)%Z; [|done].
  destruct (gap_of k) as [gap|]; [|done]. cbn [mbind option_bind] in *.
  destruct (max_gap <? gap)%Z; [done|].
  destruct (last gaps) as [prev|]; [|done]. cbn [mbind option_bind] in *.
  destruct (gap <=? prev)%Z; apply IH, H.
Qed.

Lemma gaps_skean_fuel pow fuel extra max_gap seq :
  gaps_skean pow fuel max_gap = Some seq ->
  gaps_skean pow (fuel + extra) max_gap = Some seq.
Proof.
  unfold gaps_skean. intros H.
  destruct (skip_loop (skean_gap pow) fuel 0 max_gap [1%Z]) as [gs|] eqn:E; [|done].
  rewrite (skip_loop_fuel _ _ extra _ _ _ _ E). exact H.
Qed.

Lemma tokuda_gap_26 : tokuda_gap Libm.pow_ref 26 = Some 1147718700%Z.
Proof. vm_compute. reflexivity. Qed.

Lemma lee_gap_26 : lee_gap Libm.pow_ref 26 = Some 1071378535%Z.
Proof. vm_compute. reflexivity. Qed.

Lemma skean_gap_18 : skean_gap Libm.pow_ref 18 = Some 123652334%Z.
Proof. vm_compute. reflexivity. Qed.

(** Up to the bound 10^8 the three sequences that call [pow] do not depend
    on which admissible values it returns. *)
Lemma gaps_tokuda_ref pow max_gap :
  Libm.pow_faithful pow -> (max_gap <= 10 ^ 8)%Z ->
  gaps_tokuda pow max_gap = gaps_tokuda Libm.pow_ref max_gap.
Proof.
  intros Hpow Hmg. unfold gaps_tokuda.
  rewrite (bump_loop_ext (tokuda_gap pow) (tokuda_gap Libm.pow_ref) 26 1147718700);
    [done|lia| |exact tokuda_gap_26|].
  - intros k Hk. apply tokuda_gap_ref; [exact Hpow|lia].
  - assert (10 ^ 8 < 1147718700)%Z by reflexivity. lia.
Qed.

Lemma gaps_lee_ref pow max_gap :
  Libm.pow_faithful pow -> (max_gap <= 10 ^ 8)%Z ->
  gaps_lee pow max_gap = gaps_lee Libm.pow_ref max_gap.
Proof.
  intros Hpow Hmg. unfold gaps_lee.
  rewrite (bump_loop_ext (lee_gap pow) (lee_gap Libm.pow_ref) 26 1071378535);
    [done|lia| |exact lee_gap_26|].
  - intros k Hk. apply lee_gap_ref; [exact Hpow|lia].
  - assert (10 ^ 8 < 1071378535)%Z by reflexivity. lia.
Qed.

Lemma gaps_skean_ref pow fuel max_gap :
  Libm.pow_faithful pow -> (max_gap <= 10 ^ 8)%Z ->
  gaps_skean pow fuel max_gap = gaps_skean Libm.pow_ref fuel max_gap.
Proof.
  intros Hpow Hmg. unfold gaps_skean.
  rewrite (skip_loop_ext (skean_gap pow) (skean_gap Libm.pow_ref) 18 123652334);
    [done|lia| |exact skean_gap_18|].
  - intros k Hk. apply skean_gap_ref; [exact Hpow|lia].
  - assert (10 ^ 8 < 123652334)%Z by reflexivity. lia.
Qed.

End GapsFacts.

Lemma increasingb_Sorted (gs : list Z) : increasingb gs = true -> Sorted Z.lt gs.
Proof.
  induction gs as [|a gs IH]; intros H; [constructor|].
  destruct gs as [|b gs]; [repeat constructor|].
  cbn [increasingb] in H. apply andb_prop in H as [Hab Hrest].
  constructor; [apply IH, Hrest|]. constructor. lia.
Qed.

Lemma sequence_ok_correct (max_gap : Z) (gs : list Z) :
  sequence_ok max_gap gs = true ->
  gap_invariants gs /\ Forall (fun g => g <= max_gap) gs.
Proof.
  unfold sequence_ok. intros H.
  apply andb_prop in H as [H Hmax]. apply andb_prop in H as [H Hpos].
  apply andb_prop in H as [H1 Hinc].
  split; [split|].
  - destruct gs; done.
  - destruct gs as [|g0 gs]; [done|]. simpl. f_equal. lia.
  - apply increasingb_Sorted, Hinc.
  - rewrite forallb_forall in Hpos. apply Forall_forall. intros g Hg.
    apply list_elem_of_In, Hpos in Hg. lia.
  - rewrite forallb_forall in Hmax. apply Forall_forall. intros g Hg.
    apply list_elem_of_In, Hmax in Hg. lia.
Qed.

Lemma generated_okb_correct max_gap r :
  generated_okb max_gap r = true -> generated_ok max_gap r.
Proof.
  destruct r as [seq|]; [|done]. intros H. exists seq. split; [done|].
  apply sequence_ok_correct, H.
Qed.

(** C4. With a [pow] that stays within one unit in the last place on the
    arguments the generators pass, and with fuel for the 32 iterations
    [gaps_skean] may take, each of the six baseline generators (Ciura,
    Ciura-Extended, Tokuda, Lee-2021, Skean-2023, Sedgewick-1986) returns,
    for each of the bounds 1, 10, 701 and 10000000, a sequence that is
    non-empty, starts at 1, is strictly increasing, holds only positive
    gaps, and holds no gap above the bound. *)
Theorem baseline_generators_keep_invariants (pow : float -> float -> float)
    (fuel : nat) :
  Libm.pow_faithful pow -> (32 <= fuel)%nat ->
  Forall (fun max_gap =>
    Forall (generated_ok max_gap) (gaps_all_baselines pow fuel max_gap))
    [1; 10; 701; 10000000].
Proof.
  intros Hpow Hfuel.
  assert (Hall : forall max_gap, max_gap <= 10 ^ 8 ->
    forallb (generated_okb max_gap) (gaps_all_baselines Libm.pow_ref 32 max_gap) = true ->
    Forall (generated_ok max_gap) (gaps_all_baselines pow fuel max_gap)).
  { intros max_gap Hmg Hok. unfold gaps_all_baselines in *.
    rewrite (GapsFacts.gaps_tokuda_ref pow) by done.
    rewrite (GapsFacts.gaps_lee_ref pow) by done.
    rewrite (GapsFacts.gaps_skean_ref pow) by done.
    cbn [forallb] in Hok.
    apply andb_prop in Hok as [H1 Hok]. apply andb_prop in Hok as [H2 Hok].
    apply andb_prop in Hok as [H3 Hok]. apply andb_prop in Hok as [H4 Hok].
    apply andb_prop in Hok as [H5 Hok]. apply andb_prop in Hok as [H6 _].
    assert (Hskean : generated_ok max_gap (gaps_skean Libm.pow_ref fuel max_gap)).
    { apply generated_okb_correct in H5 as (seq & E & Hseq).
      exists seq. split; [|exact Hseq].
      replace fuel with (32 + (fuel - 32))%nat by lia.
      apply GapsFacts.gaps_skean_fuel, E. }
    constructor 2; [apply generated_okb_correct, H1|].
    constructor 2; [apply generated_okb_correct, H2|].
    constructor 2; [apply generated_okb_correct, H3|].
    constructor 2; [apply generated_okb_correct, H4|].
    constructor 2; [exact Hskean|].
    constructor 2; [apply generated_okb_correct, H6|].
    constructor 1. }
  do 4 (constructor 2;
        [apply Hall; [intros H; discriminate H|vm_compute; reflexivity]|]).
  constructor 1.
Qed.

Lemma baseline_generators_keep_invariants_witness :
  (Libm.pow_faithful Libm.pow_ref /\ (32 <= 32)%nat)
  /\ Forall (fun max_gap =>
       Forall (generated_ok max_gap) (gaps_all_baselines Libm.pow_ref 32 max_gap))
       [1; 10; 701; 10000000].
Proof.
  split; [split; [exact GapsFacts.pow_ref_faithful|exact (le_n 32)]|].
  exact (baseline_generators_keep_invariants Libm.pow_ref 32
           GapsFacts.pow_ref_faithful (le_n 32)).
Defined.

(** The sequences for the bound 10000000, with the reference [pow]. *)
Example baseline_sequences_10000000 :
  map (option_map gaps) (gaps_all_baselines Libm.pow_ref 32 10000000)
  = [ Some [1; 4; 10; 23; 57; 132; 301; 701; 1577; 3548; 7983; 17961; 40412;
            90927; 204585; 460316; 1035711; 2330349; 5243285];
      Some [1; 4; 10; 23; 57; 132; 301; 701; 1750; 3937; 8858; 19930; 44842;
            100894; 227011; 510774; 1149241; 2585792; 5818032];
      Some [1; 4; 9; 20; 46; 103; 233; 525; 1182; 2660; 5985; 13467; 30301;
            68178; 153401; 345152; 776591; 1747331; 3931496; 8845866];
      Some [1; 3; 8; 19; 44; 101; 229; 515; 1157; 2598; 5830; 13081; 29350;
            65852; 147747; 331489; 743734; 1668649; 3743799; 8399622];
      Some [1; 4; 10; 27; 72; 187; 488; 1272; 3313; 8627; 22465; 58498;
            152328; 396653; 1032864; 2689522; 7003368];
      Some [1; 8; 23; 77; 281; 1073; 4193; 16577; 65921; 262913; 1050113;
            4197377] ].
Proof. vm_compute. reflexivity. Qed.

(** ** shellsort with any gap sequence *)

Module SortMore.

Import Sort.

(** A pass with the gap 0 compares every element with itself and puts it
    back. *)
Lemma pass_loop_stats_zero todo arr i st :
  0 <= i -> i + Z.of_nat todo <= Z.of_nat (length arr) ->
  exists st1, pass_loop_stats todo 0 arr i st = Some (arr, st1).
Proof.
  revert i st. induction todo as [|todo IH]; intros i st Hi Hn; [simpl; eauto|].
  cbn [pass_loop_stats shift_loop_stats].
  destruct (Z.leb_spec 0 i) as [_|]; [|lia].
  rewrite Z.sub_0_r, Z.ltb_irrefl.
  cbn [mbind option_bind].
  rewrite list_insert_id by (apply list_lookup_lookup_total_lt; lia).
  apply IH; lia.
Qed.

(** A pass over a sorted array leaves it as it is. *)
Lemma pass_loop_stats_sorted_id todo gap arr i st :
  0 <= gap <= i -> i + Z.of_nat todo <= Z.of_nat (length arr) ->
  sorted_below arr (length arr) ->
  exists st1, pass_loop_stats todo gap arr i st = Some (arr, st1).
Proof.
  revert i st. induction todo as [|todo IH]; intros i st Hi Hn Hs; [simpl; eauto|].
  cbn [pass_loop_stats shift_loop_stats].
  destruct (Z.leb_spec gap i) as [_|]; [|lia].
  destruct (Z.ltb_spec (arr !!! Z.to_nat i) (arr !!! Z.to_nat (i - gap))) as [Hlt|_].
  { exfalso. destruct (decide (gap = 0)) as [->|Hg].
    - rewrite Z.sub_0_r in Hlt. lia.
    - specialize (Hs (Z.to_nat (i - gap)) (Z.to_nat i)). lia. }
  cbn [mbind option_bind].
  rewrite list_insert_id by (apply list_lookup_lookup_total_lt; lia).
  apply IH; [lia|lia|exact Hs].
Qed.

Lemma sorted_below_short (arr : list Z) :
  Z.of_nat (length arr) <= 1 -> sorted_below arr (length arr).
Proof. intros H a b Hab. lia. Qed.

(** The loop over the gaps, for gaps of any kind: it ends, it rearranges,
    and once the array is sorted it stays so. *)
Lemma gap_loop_stats_any g seq arr st :
  (forall k : nat, (k < g)%nat -> 0 <= gaps seq !!! k) ->
  exists arr1 st1,
    gap_loop_stats g seq (Z.of_nat (length arr)) arr st = Some (arr1, st1)
    /\ length arr1 = length arr /\ arr1 ≡ₚ arr
    /\ (sorted_below arr (length arr)
        \/ (exists k : nat, (k < g)%nat /\ gaps seq !!! k = 1) ->
        sorted_below arr1 (length arr1)).
Proof.
  revert arr st. induction g as [|g IH]; intros arr st Hg.
  { exists arr, st. simpl. split; [done|]. split; [done|]. split; [done|].
    intros [Hs|(k & Hk & _)]; [exact Hs|lia]. }
  cbn [gap_loop_stats].
  assert (Hg' : forall k : nat, (k < g)%nat -> 0 <= gaps seq !!! k)
    by (intros k Hk; apply Hg; lia).
  assert (Hgap : 0 <= gaps seq !!! g) by (apply Hg; lia).
  destruct (Z.leb_spec (Z.of_nat (length arr)) (gaps seq !!! g)) as [Hskip|Hrun].
  { destruct (IH arr st Hg') as (arr1 & st1 & Hr & Hlen & Hperm & Hsorted).
    exists arr1, st1. repeat split; try done.
    intros [Hs|(k & Hk & H1)]; apply Hsorted.
    - left. exact Hs.
    - destruct (decide (k = g)) as [->|Hne].
      + left. apply sorted_below_short. lia.
      + right. exists k. split; [lia|exact H1]. }
  destruct (decide (gaps seq !!! g = 0)) as [Hz|Hnz].
  { rewrite Hz.
    destruct (pass_loop_stats_zero (Z.to_nat (Z.of_nat (length arr) - 0)) arr 0 st)
      as (st1 & ->); [lia|lia|].
    cbn [mbind option_bind].
    destruct (IH arr st1 Hg') as (arr2 & st2 & Hr & Hlen & Hperm & Hsorted).
    exists arr2, st2. repeat split; try done.
    intros [Hs|(k & Hk & H1)]; apply Hsorted.
    - left. exact Hs.
    - right. exists k. split; [|exact H1].
      destruct (decide (k = g)) as [->|Hne]; [lia|lia]. }
  destruct (SortFacts.pass_loop_stats_perm (Z.to_nat (Z.of_nat (length arr) - gaps seq !!! g))
              (gaps seq !!! g) arr (gaps seq !!! g) st)
    as (arr1 & st1 & Hpass & Hlen & Hperm); [lia|lia|lia|].
  rewrite Hpass. cbn [mbind option_bind]. rewrite <- Hlen.
  destruct (IH arr1 st1 Hg') as (arr2 & st2 & Hr & Hlen2 & Hperm2 & Hsorted).
  exists arr2, st2. split; [exact Hr|]. split; [congruence|].
  split; [rewrite Hperm2; exact Hperm|].
  intros [Hs|(k & Hk & H1)]; apply Hsorted.
  - left. rewrite Hlen in Hs.
    destruct (pass_loop_stats_sorted_id
                (Z.to_nat (Z.of_nat (length arr) - gaps seq !!! g))
                (gaps seq !!! g) arr (gaps seq !!! g) st) as (st1' & Hid);
      [lia|lia|exact Hs|].
    rewrite Hid in Hpass. injection Hpass as <- <-. exact Hs.
  - destruct (decide (k = g)) as [->|Hne].
    + left. rewrite H1 in Hpass.
      apply SortFacts.pass_loop_stats_sorted in Hpass; [exact Hpass|lia|lia|].
      intros a b Hab. lia.
    + right. exists k. split; [lia|exact H1].
Qed.

(** The counters against the true counts. [c] and [m] are the numbers of
    comparisons and of moves made so far, which the counters hold modulo
    2^64. One walk makes [s] shifts and ends by a comparison that fails
    ([b = 1]) or at the front of its chain ([b = 0]); it makes no more
    comparisons than it has fuel. *)
Lemma shift_loop_stats_counts fuel gap temp arr j st arr1 j1 st1 c m :
  shift_loop_stats fuel gap temp arr j st = Some (arr1, j1, st1) ->
  comparisons st = wrap64 c -> moves st = wrap64 m ->
  exists s b,
    comparisons st1 = wrap64 (c + s + b) /\ moves st1 = wrap64 (m + s)
    /\ 0 <= s /\ 0 <= b <= 1 /\ (gap <= j -> 1 <= s + b)
    /\ s + b <= Z.of_nat fuel.
Proof.
  revert arr j st c m. induction fuel as [|fuel IH]; intros arr j st c m Hrun Hc Hm;
    [discriminate|].
  cbn [shift_loop_stats] in Hrun.
  destruct (Z.leb_spec gap j) as [Hle|Hlt].
  - destruct (temp <? arr !!! Z.to_nat (j - gap)).
    + apply (IH _ _ _ (c + 1) (m + 1)) in Hrun.
      * destruct Hrun as (s & b & Hc1 & Hm1 & Hs & Hb & _ & Hfuel).
        exists (s + 1), b. split; [rewrite Hc1; f_equal; lia|].
        split; [rewrite Hm1; f_equal; lia|]. lia.
      * simpl. rewrite Hc. apply wrap64_add_l.
      * simpl. rewrite Hm. apply wrap64_add_l.
    + injection Hrun as <- <- <-. exists 0, 1. simpl.
      split; [rewrite Hc, wrap64_add_l; f_equal; lia|].
      split; [rewrite Hm; f_equal; lia|]. lia.
  - injection Hrun as <- <- <-. exists 0, 0.
    split; [rewrite Hc; f_equal; lia|].
    split; [rewrite Hm; f_equal; lia|]. lia.
Qed.

(** A pass makes one comparison at least for each insertion, and at most
    [bound] of them when the insertions stay below the index [bound]. *)
Lemma pass_loop_stats_counts todo gap arr i st arr1 st1 c m bound :
  pass_loop_stats todo gap arr i st = Some (arr1, st1) ->
  0 <= gap <= i -> i + Z.of_nat todo <= bound ->
  comparisons st = wrap64 c -> moves st = wrap64 m ->
  exists dc dm,
    comparisons st1 = wrap64 (c + dc) /\ moves st1 = wrap64 (m + dm)
    /\ Z.of_nat todo <= dc /\ dc <= dm /\ dm <= dc + Z.of_nat todo
    /\ dc <= Z.of_nat todo * bound.
Proof.
  revert arr i st c m. induction todo as [|todo IH];
    intros arr i st c m Hrun Hi Hbound Hc Hm.
  { injection Hrun as <- <-. exists 0, 0.
    split; [rewrite Hc; f_equal; lia|]. split; [rewrite Hm; f_equal; lia|]. lia. }
  cbn [pass_loop_stats] in Hrun.
  destruct (shift_loop_stats _ gap _ arr i st) as [[[arr2 j2] st2]|] eqn:Hshift;
    [|discriminate].
  cbn [mbind option_bind] in Hrun.
  destruct (shift_loop_stats_counts _ _ _ _ _ _ _ _ _ c m Hshift Hc Hm)
    as (s & b & Hc2 & Hm2 & Hs & Hb & H1 & Hfuel).
  apply (IH _ _ _ (c + s + b) (m + s + 1)) in Hrun; [|lia|lia|exact Hc2|].
  - destruct Hrun as (dc & dm & Hc1 & Hm1 & Hlo & Hle & Hhi & Hup).
    exists (s + b + dc), (s + 1 + dm).
    split; [rewrite Hc1; f_equal; lia|]. split; [rewrite Hm1; f_equal; lia|].
    split; [lia|]. split; [lia|]. split; [lia|]. nia.
  - simpl. rewrite Hm2. apply wrap64_add_l.
Qed.

Lemma gap_loop_stats_counts g seq n arr st arr1 st1 c m :
  gap_loop_stats g seq n arr st = Some (arr1, st1) ->
  (g <= length (gaps seq))%nat ->
  (forall k : nat, (k < g)%nat -> 0 <= gaps seq !!! k) ->
  comparisons st = wrap64 c -> moves st = wrap64 m ->
  exists dc dm,
    comparisons st1 = wrap64 (c + dc) /\ moves st1 = wrap64 (m + dm)
    /\ sorted_input_comparisons n (take g (gaps seq)) <= dc
    /\ dc <= dm
    /\ dm <= dc + sorted_input_comparisons n (take g (gaps seq))
    /\ dc <= sorted_input_comparisons n (take g (gaps seq)) * n.
Proof.
  revert arr st c m. induction g as [|g IH]; intros arr st c m Hrun Hg Hpos Hc Hm.
  { injection Hrun as <- <-. exists 0, 0. unfold sorted_input_comparisons. simpl.
    split; [rewrite Hc; f_equal; lia|]. split; [rewrite Hm; f_equal; lia|]. lia. }
  cbn [gap_loop_stats] in Hrun.
  assert (Hpos' : forall k : nat, (k < g)%nat -> 0 <= gaps seq !!! k)
    by (intros k Hk; apply Hpos; lia).
  assert (Hgap : 0 <= gaps seq !!! g) by (apply Hpos; lia).
  rewrite (take_S_r _ _ (gaps seq !!! g)) by (apply list_lookup_lookup_total_lt; lia).
  rewrite SortedInput.comparisons_snoc.
  destruct (Z.leb_spec n (gaps seq !!! g)) as [Hskip|Hpass].
  - destruct (IH _ _ c m Hrun ltac:(lia) Hpos' Hc Hm) as (dc & dm & H).
    exists dc, dm. rewrite Z.add_0_r. exact H.
  - destruct (pass_loop_stats _ _ arr _ st) as [[arr2 st2]|] eqn:Hp; [|discriminate].
    cbn [mbind option_bind] in Hrun.
    destruct (pass_loop_stats_counts _ _ _ _ _ _ _ c m n Hp ltac:(lia) ltac:(lia) Hc Hm)
      as (dc & dm & Hc2 & Hm2 & Hlo & Hle & Hhi & Hup).
    destruct (IH _ _ (c + dc) (m + dm) Hrun ltac:(lia) Hpos' Hc2 Hm2)
      as (dc' & dm' & Hc1 & Hm1 & Hlo' & Hle' & Hhi' & Hup').
    exists (dc + dc'), (dm + dm').
    split; [rewrite Hc1; f_equal; lia|]. split; [rewrite Hm1; f_equal; lia|].
    split; [lia|]. split; [lia|]. split; [lia|].
    rewrite Z2Nat.id in Hup by lia. nia.
Qed.

(** The loop over the gaps reads only the gaps below its counter. *)
Lemma gap_loop_stats_take g k seq nm n arr st :
  (g <= k)%nat ->
  gap_loop_stats g (mk_gap_sequence nm (take k (gaps seq))) n arr st
  = gap_loop_stats g seq n arr st.
Proof.
  intros Hk. revert arr st. induction g as [|g IH]; intros arr st; [done|].
  cbn [gap_loop_stats gaps].
  rewrite lookup_total_take_lt by lia.
  destruct (n <=? gaps seq !!! g); [apply IH; lia|].
  destruct (pass_loop_stats _ _ arr _ st) as [[arr1 st1]|]; [|done].
  cbn [mbind option_bind]. apply IH. lia.
Qed.

(** The gaps the trimming drops are gaps the loop skips. *)
Lemma gap_loop_stats_trim g seq n arr st :
  gap_loop_stats g seq n arr st
  = gap_loop_stats (Trim.trim_loop g seq n) seq n arr st.
Proof.
  induction g as [|g IH]; [done|].
  cbn [gap_loop_stats Trim.trim_loop].
  destruct (n <=? gaps seq !!! g) eqn:Hskip; [exact IH|].
  cbn [gap_loop_stats]. rewrite Hskip. done.
Qed.

Lemma trim_loop_le g seq n : (Trim.trim_loop g seq n <= g)%nat.
Proof.
  induction g as [|g IH]; [done|]. simpl.
  destruct (n <=? gaps seq !!! g); lia.
Qed.

(** Where the trimming stops, the last gap kept is below [N]. *)
Lemma trim_loop_last g seq n (k : nat) :
  Trim.trim_loop g seq n = S k -> gaps seq !!! k < n.
Proof.
  induction g as [|g IH]; [done|]. simpl.
  destruct (Z.leb_spec n (gaps seq !!! g)) as [Hge|Hlt]; [exact IH|].
  intros [= <-]. exact Hlt.
Qed.

Lemma Sorted_lt_lookup (l : list Z) (i j : nat) (x y : Z) :
  Sorted Z.lt l -> (i < j)%nat -> l !! i = Some x -> l !! j = Some y -> x < y.
Proof.
  intros Hs Hij Hi Hj.
  apply (Sorted_StronglySorted Z.lt) in Hs.
  rewrite <- (take_drop j l) in Hs.
  apply (StronglySorted_app_1_elem_of _ _ _ x y Hs).
  - apply list_elem_of_lookup. exists i. rewrite lookup_take_lt by lia. exact Hi.
  - apply list_elem_of_lookup. exists 0%nat. rewrite lookup_drop, Nat.add_0_r. exact Hj.
Qed.

End SortMore.

(** X1. Both entry points handle every sequence of unsigned gaps, in any order
    and with repeats or zeros: they return, leave the same rearrangement of
    the input, and that array is ascending as soon as one of the gaps is 1. *)
Theorem shellsort_any_gaps (arr : list Z) (seq : gap_sequence_t) :
  Forall (fun g => 0 <= g) (gaps seq) ->
  exists arr' stats,
    shellsort_stats arr (Z.of_nat (length arr)) seq = Some (arr', stats)
    /\ shellsort arr (Z.of_nat (length arr)) seq = Some (arr', comparisons stats)
    /\ Permutation arr' arr
    /\ (In 1 (gaps seq) -> Sorted Z.le arr').
Proof.
  intros Hpos.
  assert (Hg : forall k : nat, (k < length (gaps seq))%nat -> 0 <= gaps seq !!! k).
  { intros k Hk. rewrite Forall_lookup in Hpos.
    apply (Hpos k). apply list_lookup_lookup_total_lt. exact Hk. }
  destruct (SortMore.gap_loop_stats_any _ seq arr (mk_sort_stats 0 0) Hg)
    as (arr' & stats & Hrun & _ & Hperm & Hsorted).
  exists arr', stats. split; [exact Hrun|]. split.
  - rewrite SortFacts.shellsort_stats_sim. unfold shellsort_stats. rewrite Hrun. done.
  - split; [exact Hperm|]. intros H1.
    apply StronglySorted_Sorted, sorted_below_StronglySorted, Hsorted. right.
    apply list_elem_of_In, list_elem_of_lookup_1 in H1 as [k Hk].
    exists k. split; [exact (lookup_lt_Some _ _ _ Hk)|].
    apply list_lookup_total_correct. exact Hk.
Qed.

Lemma shellsort_any_gaps_witness :
  Forall (fun g => 0 <= g) [4; 0; 1; 4; 9]
  /\ exists arr' stats,
       shellsort_stats [5; -3; 9; 0; 7; 7; 2; -8; 1; 6; 4; 3] 12
         (mk_gap_sequence "unordered" [4; 0; 1; 4; 9]) = Some (arr', stats)
       /\ shellsort [5; -3; 9; 0; 7; 7; 2; -8; 1; 6; 4; 3] 12
            (mk_gap_sequence "unordered" [4; 0; 1; 4; 9]) = Some (arr', comparisons stats)
       /\ Permutation arr' [5; -3; 9; 0; 7; 7; 2; -8; 1; 6; 4; 3]
       /\ (In 1 [4; 0; 1; 4; 9] -> Sorted Z.le arr').
Proof.
  assert (H : Forall (fun g => 0 <= g) [4; 0; 1; 4; 9]).
  { repeat constructor; lia. }
  split; [exact H|].
  exact (shellsort_any_gaps [5; -3; 9; 0; 7; 7; 2; -8; 1; 6; 4; 3]
           (mk_gap_sequence "unordered" [4; 0; 1; 4; 9]) H).
Defined.

(** X2. A sequence with no gap below [n] (the empty one, or any sequence of
    positive gaps when [n <= 1]) makes both entry points return at once:
    the array is left as it is, unsorted or not, and the counts are zero. *)
Theorem shellsort_without_small_gap (arr : list Z) (n : Z) (seq : gap_sequence_t) :
  Forall (fun g => n <= g) (gaps seq) ->
  shellsort arr n seq = Some (arr, 0)
  /\ shellsort_stats arr n seq = Some (arr, mk_sort_stats 0 0).
Proof.
  intros Hall.
  assert (H : forall g : nat, (g <= length (gaps seq))%nat ->
    Sort.gap_loop_stats g seq n arr (mk_sort_stats 0 0) = Some (arr, mk_sort_stats 0 0)).
  { induction g as [|g IH]; intros Hg; [done|].
    cbn [Sort.gap_loop_stats].
    rewrite Forall_lookup in Hall.
    assert (Hlook : gaps seq !! g = Some (gaps seq !!! g))
      by (apply list_lookup_lookup_total_lt; lia).
    specialize (Hall g (gaps seq !!! g) Hlook).
    destruct (Z.leb_spec n (gaps seq !!! g)); [apply IH; lia|lia]. }
  split.
  - rewrite SortFacts.shellsort_stats_sim. unfold shellsort_stats.
    rewrite H by lia. done.
  - apply H. lia.
Qed.

Lemma shellsort_without_small_gap_witness :
  Forall (fun g => 3 <= g) [5; 7]
  /\ shellsort [3; 1; 2] 3 (mk_gap_sequence "large" [5; 7]) = Some ([3; 1; 2], 0)
  /\ shellsort_stats [3; 1; 2] 3 (mk_gap_sequence "large" [5; 7])
     = Some ([3; 1; 2], mk_sort_stats 0 0).
Proof.
  assert (H : Forall (fun g => 3 <= g) [5; 7]) by (repeat constructor; lia).
  split; [exact H|].
  exact (shellsort_without_small_gap [3; 1; 2] 3 (mk_gap_sequence "large" [5; 7]) H).
Defined.

(** X3. The counters of [shellsort_stats] against the number [P] of
    insertions, the sum over the gaps [g < n] of [n - g]. While
    [(n + 1) * P] is below 2^64 no counter wraps, and the comparisons [c]
    and the moves [m] that are returned satisfy [P <= c <= m <= c + P] and
    [c <= n * P]: every insertion costs at least one comparison, so no
    input is cheaper than a sorted one, and at most [n]; the moves are the
    shifts and one placement for each insertion. *)
Theorem shellsort_stats_counts (arr : list Z) (seq : gap_sequence_t) :
  Forall (fun g => 0 <= g) (gaps seq) ->
  (Z.of_nat (length arr) + 1)
  * sorted_input_comparisons (Z.of_nat (length arr)) (gaps seq) < 2 ^ 64 ->
  exists arr' stats,
    shellsort_stats arr (Z.of_nat (length arr)) seq = Some (arr', stats)
    /\ sorted_input_comparisons (Z.of_nat (length arr)) (gaps seq) <= comparisons stats
    /\ comparisons stats <= moves stats
    /\ moves stats
       <= comparisons stats + sorted_input_comparisons (Z.of_nat (length arr)) (gaps seq)
    /\ comparisons stats
       <= Z.of_nat (length arr)
          * sorted_input_comparisons (Z.of_nat (length arr)) (gaps seq).
Proof.
  intros Hpos Hsmall.
  assert (Hg : forall k : nat, (k < length (gaps seq))%nat -> 0 <= gaps seq !!! k).
  { intros k Hk. rewrite Forall_lookup in Hpos.
    apply (Hpos k). apply list_lookup_lookup_total_lt. exact Hk. }
  destruct (SortMore.gap_loop_stats_any _ seq arr (mk_sort_stats 0 0) Hg)
    as (arr' & stats & Hrun & _).
  destruct (SortMore.gap_loop_stats_counts _ _ _ _ _ _ _ 0 0 Hrun (le_n _) Hg
              eq_refl eq_refl) as (c & m & Hc & Hm & Hlo & Hle & Hhi & Hup).
  rewrite firstn_all in *.
  pose proof (SortedInput.comparisons_nonneg (Z.of_nat (length arr)) (gaps seq)) as HP.
  set (P := sorted_input_comparisons (Z.of_nat (length arr)) (gaps seq)) in *.
  rewrite Z.add_0_l in Hc, Hm.
  rewrite wrap64_small in Hc by nia. rewrite wrap64_small in Hm by nia.
  exists arr', stats. split; [exact Hrun|]. rewrite Hc, Hm. lia.
Qed.

Lemma shellsort_stats_counts_witness :
  (Forall (fun g => 0 <= g) [1; 4]
   /\ (Z.of_nat (length [5; -3; 9; 0; 7; 7; 2; -8]) + 1)
      * sorted_input_comparisons (Z.of_nat (length [5; -3; 9; 0; 7; 7; 2; -8])) [1; 4]
      < 2 ^ 64)
  /\ exists arr' stats,
       shellsort_stats [5; -3; 9; 0; 7; 7; 2; -8] 8 (mk_gap_sequence "short" [1; 4])
       = Some (arr', stats)
       /\ sorted_input_comparisons 8 [1; 4] <= comparisons stats
       /\ comparisons stats <= moves stats
       /\ moves stats <= comparisons stats + sorted_input_comparisons 8 [1; 4]
       /\ comparisons stats <= 8 * sorted_input_comparisons 8 [1; 4].
Proof.
  assert (H : Forall (fun g => 0 <= g) [1; 4]) by (repeat constructor; lia).
  assert (H' : (Z.of_nat (length [5; -3; 9; 0; 7; 7; 2; -8]) + 1)
               * sorted_input_comparisons
                   (Z.of_nat (length [5; -3; 9; 0; 7; 7; 2; -8])) [1; 4]
               < 2 ^ 64) by (vm_compute; reflexivity).
  split; [split; [exact H|exact H']|].
  exact (shellsort_stats_counts [5; -3; 9; 0; 7; 7; 2; -8]
           (mk_gap_sequence "short" [1; 4]) H H').
Defined.

(** X4. The trimming of [full_bench.c] changes nothing: the gaps it drops are
    gaps [shellsort] skips, so the trimmed copy and the sequence itself
    give the same array and the same counts, for every array and size. *)
Theorem trim_to_size_same_sort (arr : list Z) (N : Z) (seq : gap_sequence_t) :
  shellsort arr N (trim_to_size seq N) = shellsort arr N seq
  /\ shellsort_stats arr N (trim_to_size seq N) = shellsort_stats arr N seq
  /\ (Sorted Z.lt (gaps seq) -> Forall (fun g => g < N) (gaps (trim_to_size seq N))).
Proof.
  assert (H : shellsort_stats arr N (trim_to_size seq N) = shellsort_stats arr N seq).
  { unfold shellsort_stats, trim_to_size, gap_sequence_copy. cbn [gaps].
    rewrite length_take, Nat.min_l by apply SortMore.trim_loop_le.
    rewrite SortMore.gap_loop_stats_take by lia.
    symmetry. apply SortMore.gap_loop_stats_trim. }
  split; [|split; [exact H|]].
  - rewrite !SortFacts.shellsort_stats_sim, H. done.
  - intros Hs. unfold trim_to_size, gap_sequence_copy. cbn [gaps].
    pose proof (SortMore.trim_loop_le (length (gaps seq)) seq N) as Hle.
    apply Forall_lookup. intros i x Hi.
    pose proof (lookup_lt_Some _ _ _ Hi) as Hlt. rewrite length_take in Hlt.
    rewrite lookup_take_lt in Hi by lia.
    destruct (Trim.trim_loop (length (gaps seq)) seq N) as [|k] eqn:Ht; [lia|].
    pose proof (SortMore.trim_loop_last _ _ _ _ Ht) as Hk.
    destruct (decide (i = k)) as [->|Hne].
    + rewrite (list_lookup_total_correct _ _ _ Hi) in Hk. exact Hk.
    + assert (Hlook : gaps seq !! k = Some (gaps seq !!! k))
        by (apply list_lookup_lookup_total_lt; lia).
      pose proof (SortMore.Sorted_lt_lookup _ i k _ _ Hs ltac:(lia) Hi Hlook). lia.
Qed.

(** ** The first pass of shellsort *)

Module ChainFacts.

Import Sort.

Ltac lookup_insert :=
  repeat first
    [ rewrite list_lookup_total_insert_eq by lia
    | rewrite list_lookup_total_insert_ne by lia ].

Lemma shift_loop_stats_chain fuel g temp arr j i st arr1 j1 st1 :
  1 <= g -> 0 <= j <= i -> i < Z.of_nat (length arr) -> chain_inv temp arr g j i ->
  shift_loop_stats fuel g temp arr j st = Some (arr1, j1, st1) ->
  gap_sorted g (<[Z.to_nat j1 := temp]> arr1) (i + 1).
Proof.
  intros Hg. revert arr j st.
  induction fuel as [|fuel IH]; intros arr j st Hj Hi (Hs & Ha & Hk) Hrun; [discriminate|].
  simpl in Hrun.
  destruct (Z.leb_spec g j) as [Hle|Hlt].
  - destruct (Z.ltb_spec temp (arr !!! Z.to_nat (j - g))) as [Hgt|Hge].
    + apply IH in Hrun; [exact Hrun|lia|rewrite length_insert; lia|].
      split; [|split].
      * intros b Hb Hbj Hbg.
        destruct (decide (Z.of_nat b = j + g)) as [Hbjg|Hnb].
        -- replace (Z.to_nat (Z.of_nat b - g)) with (Z.to_nat j) by lia.
           lookup_insert.
           replace b with (Z.to_nat (j + g)) by lia. apply Hk; lia.
        -- lookup_insert. apply Hs; lia.
      * intros _. replace (j - g + g) with j by lia. lookup_insert. exact Hgt.
      * intros Hgj Hji. replace (j - g + g) with j by lia. lookup_insert.
        specialize (Hs (Z.to_nat (j - g))).
        replace (Z.to_nat (Z.of_nat (Z.to_nat (j - g)) - g)) with (Z.to_nat (j - g - g))
          in Hs by lia.
        apply Hs; lia.
    + injection Hrun as <- <- <-. intros b Hb.
      destruct (decide (Z.of_nat b = j)) as [Hbj|Hnj].
      * replace b with (Z.to_nat j) by lia.
        replace (Z.of_nat (Z.to_nat j) - g) with (j - g) by lia.
        lookup_insert. exact Hge.
      * destruct (decide (Z.of_nat b - g = j)) as [Hbg|Hng].
        -- replace (Z.to_nat (Z.of_nat b - g)) with (Z.to_nat j) by lia.
           lookup_insert.
           replace b with (Z.to_nat (j + g)) by lia.
           specialize (Ha ltac:(lia)). lia.
        -- lookup_insert. apply Hs; lia.
  - injection Hrun as <- <- <-. intros b Hb.
    destruct (decide (Z.of_nat b - g = j)) as [Hbg|Hng].
    + replace (Z.to_nat (Z.of_nat b - g)) with (Z.to_nat j) by lia.
      lookup_insert.
      replace b with (Z.to_nat (j + g)) by lia.
      specialize (Ha ltac:(lia)). lia.
    + lookup_insert. apply Hs; lia.
Qed.

Lemma shift_loop_stats_length fuel g temp arr j st arr1 j1 st1 :
  shift_loop_stats fuel g temp arr j st = Some (arr1, j1, st1) ->
  length arr1 = length arr /\ (0 <= j -> 0 <= g -> 0 <= j1 <= j).
Proof.
  revert arr j st. induction fuel as [|fuel IH]; intros arr j st Hrun; [discriminate|].
  simpl in Hrun.
  destruct (Z.leb_spec g j) as [Hle|Hlt].
  - destruct (temp <? arr !!! Z.to_nat (j - g)).
    + apply IH in Hrun. rewrite length_insert in Hrun. split; [apply Hrun|]. lia.
    + injection Hrun as <- <- <-. split; [done|lia].
  - injection Hrun as <- <- <-. split; [done|lia].
Qed.

Lemma pass_loop_stats_length todo g arr i st arr1 st1 :
  pass_loop_stats todo g arr i st = Some (arr1, st1) -> length arr1 = length arr.
Proof.
  revert arr i st. induction todo as [|todo IH]; intros arr i st Hrun.
  { injection Hrun as <- <-. done. }
  cbn [pass_loop_stats] in Hrun.
  destruct (shift_loop_stats _ g _ arr i st) as [[[arr2 j2] st2]|] eqn:Hshift;
    [|discriminate].
  cbn [mbind option_bind] in Hrun.
  apply IH in Hrun. rewrite length_insert in Hrun.
  apply shift_loop_stats_length in Hshift. lia.
Qed.

Lemma pass_loop_stats_chain todo g arr i st arr1 st1 :
  1 <= g <= i -> i + Z.of_nat todo = Z.of_nat (length arr) ->
  gap_sorted g arr i ->
  pass_loop_stats todo g arr i st = Some (arr1, st1) ->
  gap_sorted g arr1 (Z.of_nat (length arr1)).
Proof.
  revert arr i st. induction todo as [|todo IH]; intros arr i st Hi Hn Hs Hrun.
  - injection Hrun as <- <-. replace (Z.of_nat (length arr)) with i by lia. exact Hs.
  - cbn [pass_loop_stats] in Hrun.
    destruct (shift_loop_stats _ g _ arr i st) as [[[arr2 j2] st2]|] eqn:Hshift;
      [|discriminate].
    cbn [mbind option_bind] in Hrun.
    pose proof (shift_loop_stats_length _ _ _ _ _ _ _ _ _ Hshift) as [Hlen _].
    apply IH in Hrun; [exact Hrun|lia|rewrite length_insert; lia|].
    assert (Hinv : chain_inv (arr !!! Z.to_nat i) arr g i i).
    { split; [|split; intros; lia]. intros b Hb Hbi _. apply Hs. lia. }
    assert (Hi0 : 0 <= i <= i) by lia.
    assert (Hlt : i < Z.of_nat (length arr)) by lia.
    assert (Hg : 1 <= g) by lia.
    exact (shift_loop_stats_chain _ _ _ _ _ _ _ _ _ _ Hg Hi0 Hlt Hinv Hshift).
Qed.

Lemma gap_loop_stats_chain g seq arr st arr1 st1 :
  (0 < g)%nat -> 1 <= gaps seq !!! 0%nat ->
  gap_loop_stats g seq (Z.of_nat (length arr)) arr st = Some (arr1, st1) ->
  gap_sorted (gaps seq !!! 0%nat) arr1 (Z.of_nat (length arr1)).
Proof.
  intros Hg H1. revert arr st.
  induction g as [|g IH]; intros arr st Hrun; [lia|].
  cbn [gap_loop_stats] in Hrun.
  destruct (Z.leb_spec (Z.of_nat (length arr)) (gaps seq !!! g)) as [Hskip|Hpass].
  - destruct g as [|g].
    + injection Hrun as <- <-. intros b Hb. lia.
    + apply IH in Hrun; [exact Hrun|lia].
  - destruct (pass_loop_stats _ _ arr _ st) as [[arr2 st2]|] eqn:Hp; [|discriminate].
    cbn [mbind option_bind] in Hrun.
    pose proof (pass_loop_stats_length _ _ _ _ _ _ _ Hp) as Hlen.
    destruct g as [|g].
    + injection Hrun as <- <-.
      apply pass_loop_stats_chain in Hp; [exact Hp|lia|lia|].
      intros b Hb. lia.
    + rewrite <- Hlen in Hrun. apply IH in Hrun; [exact Hrun|lia].
Qed.

End ChainFacts.

(** X5. What a sequence whose first gap [g0] is not 1 gives: the pass applied
    last is the one with [g0], so the array returned is [g0]-sorted, every
    element being at most the element [g0] places after it, and no more
    than that is promised. With [g0 = 1] this is the ascending order. *)
Theorem shellsort_first_gap_sorted (arr : list Z) (seq : gap_sequence_t) (g0 : Z) :
  head (gaps seq) = Some g0 -> 1 <= g0 -> Forall (fun g => 0 <= g) (gaps seq) ->
  exists arr' count,
    shellsort arr (Z.of_nat (length arr)) seq = Some (arr', count)
    /\ length arr' = length arr
    /\ forall b : nat, g0 <= Z.of_nat b < Z.of_nat (length arr) ->
         arr' !!! Z.to_nat (Z.of_nat b - g0) <= arr' !!! b.
Proof.
  intros Hhead Hg0 Hpos.
  assert (Hg : forall k : nat, (k < length (gaps seq))%nat -> 0 <= gaps seq !!! k).
  { intros k Hk. rewrite Forall_lookup in Hpos.
    apply (Hpos k). apply list_lookup_lookup_total_lt. exact Hk. }
  destruct (SortMore.gap_loop_stats_any _ seq arr (mk_sort_stats 0 0) Hg)
    as (arr' & stats & Hrun & Hlen & _).
  exists arr', (comparisons stats). split.
  { rewrite SortFacts.shellsort_stats_sim. unfold shellsort_stats. rewrite Hrun. done. }
  split; [exact Hlen|].
  destruct (gaps seq) as [|g gs] eqn:E; [discriminate|]. injection Hhead as ->.
  assert (H0 : gaps seq !!! 0%nat = g0) by (rewrite E; done).
  rewrite <- E in Hrun.
  apply ChainFacts.gap_loop_stats_chain in Hrun; [|rewrite E; simpl; lia|lia].
  rewrite H0, Hlen in Hrun. exact Hrun.
Qed.

Lemma shellsort_first_gap_sorted_witness :
  (head [3; 7] = Some 3 /\ 1 <= 3 /\ Forall (fun g => 0 <= g) [3; 7])
  /\ exists arr' count,
       shellsort [5; -3; 9; 0; 7; 7; 2; -8; 1; 6; 4; 3] 12 (mk_gap_sequence "no-1" [3; 7])
       = Some (arr', count)
       /\ length arr' = 12%nat
       /\ forall b : nat, 3 <= Z.of_nat b < 12 ->
            arr' !!! Z.to_nat (Z.of_nat b - 3) <= arr' !!! b.
Proof.
  assert (H : Forall (fun g => 0 <= g) [3; 7]) by (repeat constructor; lia).
  assert (H3 : 1 <= 3) by lia.
  split; [split; [reflexivity|split; [exact H3|exact H]]|].
  exact (shellsort_first_gap_sorted [5; -3; 9; 0; 7; 7; 2; -8; 1; 6; 4; 3]
           (mk_gap_sequence "no-1" [3; 7]) 3 eq_refl H3 H).
Defined.

(** ** splitmix64, xoshiro256** and derive_seed *)

Module Bits.

Lemma pow64_pos : 0 < 2 ^ 64.
Proof. reflexivity. Qed.

Lemma wrap64_u64 (z : Z) : is_u64 (wrap64 z).
Proof. apply Z.mod_pos_bound, pow64_pos. Qed.

Lemma u64_high (z n : Z) : is_u64 z -> 64 <= n -> Z.testbit z n = false.
Proof.
  intros Hz Hn. rewrite <- (Z.mod_small z (2 ^ 64)) by exact Hz.
  apply Z.mod_pow2_bits_high. lia.
Qed.

(** A non-negative integer whose bits from 64 on are clear is a [uint64_t]. *)
Lemma u64_of_bits (z : Z) :
  0 <= z -> (forall n, 64 <= n -> Z.testbit z n = false) -> is_u64 z.
Proof.
  intros Hz Hb. assert (E : z mod 2 ^ 64 = z).
  { apply Z.bits_inj'. intros n Hn. destruct (Z.lt_ge_cases n 64) as [Hlt|Hge].
    - apply Z.mod_pow2_bits_low. lia.
    - rewrite Z.mod_pow2_bits_high by lia. symmetry. apply Hb, Hge. }
  rewrite <- E. apply Z.mod_pos_bound, pow64_pos.
Qed.

Lemma lxor_u64 (a b : Z) : is_u64 a -> is_u64 b -> is_u64 (Z.lxor a b).
Proof.
  intros Ha Hb. apply u64_of_bits.
  - apply Z.lxor_nonneg. unfold is_u64 in *. lia.
  - intros n Hn. rewrite Z.lxor_spec, !u64_high by assumption. done.
Qed.

Lemma lor_u64 (a b : Z) : is_u64 a -> is_u64 b -> is_u64 (Z.lor a b).
Proof.
  intros Ha Hb. apply u64_of_bits.
  - apply Z.lor_nonneg. unfold is_u64 in *. lia.
  - intros n Hn. rewrite Z.lor_spec, !u64_high by assumption. done.
Qed.

Lemma shiftr_u64 (a k : Z) : is_u64 a -> 0 <= k -> is_u64 (Z.shiftr a k).
Proof.
  intros Ha Hk. apply u64_of_bits.
  - apply Z.shiftr_nonneg. unfold is_u64 in Ha. lia.
  - intros n Hn. rewrite Z.shiftr_spec by lia. apply u64_high; [exact Ha|lia].
Qed.

(** [z ^ (z >> k)] determines [z]: from the top bit down, every bit of [z]
    is a bit of the result xor a bit of [z] already known. *)
Lemma xorshiftr_inj (k a b : Z) :
  0 < k -> is_u64 a -> is_u64 b ->
  Z.lxor a (Z.shiftr a k) = Z.lxor b (Z.shiftr b k) -> a = b.
Proof.
  intros Hk Ha Hb H.
  assert (P : forall (d : nat) (n : Z), 64 - Z.of_nat d <= n ->
                Z.testbit a n = Z.testbit b n).
  { induction d as [|d IH]; intros n Hn.
    - rewrite !u64_high by (assumption || lia). done.
    - destruct (Z.lt_ge_cases n 0) as [Hneg|Hpos].
      { rewrite !Z.testbit_neg_r by lia. done. }
      assert (E : Z.testbit (Z.lxor a (Z.shiftr a k)) n
                  = Z.testbit (Z.lxor b (Z.shiftr b k)) n) by (rewrite H; done).
      rewrite !Z.lxor_spec, !Z.shiftr_spec in E by lia.
      rewrite (IH (n + k)) in E by lia.
      destruct (Z.testbit a n), (Z.testbit b n), (Z.testbit b (n + k)); done. }
  apply Z.bits_inj'. intros n Hn. apply (P 64%nat). lia.
Qed.

(** [z ^ (z << k)] on 64 bits determines [z], from the bottom bit up. *)
Lemma xorshiftl_inj (k a b : Z) :
  0 < k -> is_u64 a -> is_u64 b ->
  Z.lxor a (wrap64 (Z.shiftl a k)) = Z.lxor b (wrap64 (Z.shiftl b k)) -> a = b.
Proof.
  intros Hk Ha Hb H.
  assert (P : forall (d : nat) (n : Z), n < Z.of_nat d ->
                Z.testbit a n = Z.testbit b n).
  { induction d as [|d IH]; intros n Hn.
    - rewrite !Z.testbit_neg_r by lia. done.
    - destruct (Z.lt_ge_cases n 0) as [Hneg|Hpos].
      { rewrite !Z.testbit_neg_r by lia. done. }
      destruct (Z.lt_ge_cases n 64) as [Hlt|Hge].
      2:{ rewrite !u64_high by (assumption || lia). done. }
      assert (E : Z.testbit (Z.lxor a (wrap64 (Z.shiftl a k))) n
                  = Z.testbit (Z.lxor b (wrap64 (Z.shiftl b k))) n) by (rewrite H; done).
      unfold wrap64 in E.
      rewrite !Z.lxor_spec, !Z.mod_pow2_bits_low, !Z.shiftl_spec in E by lia.
      rewrite (IH (n - k)) in E by lia.
      destruct (Z.testbit a n), (Z.testbit b n), (Z.testbit b (n - k)); done. }
  apply Z.bits_inj'. intros n Hn. apply (P (Z.to_nat (n + 1))). lia.
Qed.

(** The bits of a rotation. *)
Lemma rotl_bits (x k n : Z) :
  is_u64 x -> 0 < k < 64 -> 0 <= n < 64 ->
  Z.testbit (rotl x k) n
  = if n <? k then Z.testbit x (n + 64 - k) else Z.testbit x (n - k).
Proof.
  intros Hx Hk Hn. unfold rotl, wrap64.
  rewrite Z.lor_spec, Z.mod_pow2_bits_low, Z.shiftl_spec, Z.shiftr_spec by lia.
  replace (n + (64 - k)) with (n + 64 - k) by lia.
  destruct (Z.ltb_spec n k) as [Hlt|Hge].
  - rewrite (Z.testbit_neg_r x (n - k)) by lia. done.
  - rewrite (u64_high x (n + 64 - k)) by (assumption || lia). apply orb_false_r.
Qed.

Lemma rotl_u64 (x k : Z) : is_u64 x -> 0 < k < 64 -> is_u64 (rotl x k).
Proof.
  intros Hx Hk. unfold rotl. apply lor_u64; [apply wrap64_u64|].
  apply shiftr_u64; [exact Hx|lia].
Qed.

Lemma rotl_inj (k a b : Z) :
  0 < k < 64 -> is_u64 a -> is_u64 b -> rotl a k = rotl b k -> a = b.
Proof.
  intros Hk Ha Hb H. apply Z.bits_inj'. intros m Hm.
  destruct (Z.lt_ge_cases m 64) as [Hlt|Hge].
  2:{ rewrite !u64_high by (assumption || lia). done. }
  destruct (Z.lt_ge_cases m (64 - k)) as [Hlow|Hhigh].
  - assert (E : Z.testbit (rotl a k) (m + k) = Z.testbit (rotl b k) (m + k))
      by (rewrite H; done).
    rewrite !rotl_bits in E by (assumption || lia).
    destruct (Z.ltb_spec (m + k) k); [lia|].
    replace (m + k - k) with m in E by lia. exact E.
  - assert (E : Z.testbit (rotl a k) (m - (64 - k)) = Z.testbit (rotl b k) (m - (64 - k)))
      by (rewrite H; done).
    rewrite !rotl_bits in E by (assumption || lia).
    destruct (Z.ltb_spec (m - (64 - k)) k); [|lia].
    replace (m - (64 - k) + 64 - k) with m in E by lia. exact E.
Qed.

(** Two [uint64_t] that are congruent modulo 2^64 are equal. *)
Lemma u64_congruent (a b : Z) :
  is_u64 a -> is_u64 b -> (2 ^ 64 | a - b) -> a = b.
Proof.
  intros Ha Hb [q Hq]. unfold is_u64 in *. pose proof pow64_pos.
  assert (q = 0) by nia. subst q. lia.
Qed.

Lemma wrap64_eq_divide (a b : Z) : wrap64 a = wrap64 b -> (2 ^ 64 | a - b).
Proof.
  unfold wrap64. intros H. apply Z.mod_divide; [lia|].
  rewrite Zminus_mod, H, Z.sub_diag. done.
Qed.

(** The multiplication by an odd constant is one to one on [uint64_t]. *)
Lemma mul_odd_inj (c a b : Z) :
  Z.gcd (2 ^ 64) c = 1 -> is_u64 a -> is_u64 b ->
  wrap64 (a * c) = wrap64 (b * c) -> a = b.
Proof.
  intros Hc Ha Hb H. apply u64_congruent; [exact Ha|exact Hb|].
  apply wrap64_eq_divide in H.
  replace (a * c - b * c) with (c * (a - b)) in H by lia.
  exact (Z.gauss _ _ _ H Hc).
Qed.

End Bits.

Module RngFacts.

Import Bits.

(** The value [splitmix64] returns determines the state it left. *)
Lemma splitmix64_state (s : Z) : fst (splitmix64 s) = wrap64 (s + 0x9e3779b97f4a7c15).
Proof. reflexivity. Qed.

Lemma splitmix64_mix_inj (a b : Z) :
  snd (splitmix64 a) = snd (splitmix64 b) -> fst (splitmix64 a) = fst (splitmix64 b).
Proof.
  rewrite !splitmix64_state. unfold splitmix64. cbn [snd].
  set (sa := wrap64 (a + _)). set (sb := wrap64 (b + _)).
  assert (Ha : is_u64 sa) by apply wrap64_u64.
  assert (Hb : is_u64 sb) by apply wrap64_u64.
  intros H.
  apply xorshiftr_inj in H; [|lia|apply wrap64_u64..].
  apply mul_odd_inj in H;
    [|reflexivity|apply lxor_u64; [|apply shiftr_u64; [|lia]]; apply wrap64_u64..].
  apply xorshiftr_inj in H; [|lia|apply wrap64_u64..].
  apply mul_odd_inj in H;
    [|reflexivity|apply lxor_u64; [|apply shiftr_u64; [|lia]]; assumption..].
  apply xorshiftr_inj in H; [exact H|lia|assumption..].
Qed.

Lemma wrap64_add_cancel (a b d : Z) :
  wrap64 (a + d) = wrap64 (b + d) -> wrap64 a = wrap64 b.
Proof.
  intros H. apply wrap64_eq_divide in H.
  replace (a + d - (b + d)) with (a - b) in H by lia.
  apply u64_congruent; [apply wrap64_u64..|].
  destruct H as [q Hq]. unfold wrap64.
  rewrite (Z.mod_eq a), (Z.mod_eq b) by lia.
  exists (q - a / 2 ^ 64 + b / 2 ^ 64). lia.
Qed.

Lemma splitmix64_inj (a b : Z) :
  snd (splitmix64 a) = snd (splitmix64 b) -> wrap64 a = wrap64 b.
Proof.
  intros H. apply splitmix64_mix_inj in H. rewrite !splitmix64_state in H.
  exact (wrap64_add_cancel _ _ _ H).
Qed.

Lemma splitmix64_u64 (s : Z) : is_u64 (snd (splitmix64 s)).
Proof.
  unfold splitmix64. cbn [snd].
  apply lxor_u64; [|apply shiftr_u64; [|lia]]; apply wrap64_u64.
Qed.

End RngFacts.

Module RngMore.

Import Bits RngFacts.

Lemma lxor_cancel_r (a b u : Z) : Z.lxor a u = Z.lxor b u -> a = b.
Proof.
  intros H. apply Z.bits_inj'. intros n _.
  apply (f_equal (fun z => Z.testbit z n)) in H. rewrite !Z.lxor_spec in H.
  destruct (Z.testbit a n), (Z.testbit b n), (Z.testbit u n); done.
Qed.

Lemma lxor_cancel_l (a b u : Z) : Z.lxor u a = Z.lxor u b -> a = b.
Proof. rewrite !(Z.lxor_comm u). apply lxor_cancel_r. Qed.

(** The state [derive_seed] hands to [splitmix64]. *)
Lemma derive_seed_inj (ms n t ms' n' t' : Z) :
  is_u64 ms -> is_u64 ms' ->
  derive_seed ms n t = derive_seed ms' n' t' ->
  Z.lxor (Z.lxor ms (wrap64 (n * 0x517cc1b727220a95))) (wrap64 (t * 0x2545f4914f6cdd1d))
  = Z.lxor (Z.lxor ms' (wrap64 (n' * 0x517cc1b727220a95)))
      (wrap64 (t' * 0x2545f4914f6cdd1d)).
Proof.
  intros Hm Hm' H. unfold derive_seed in H. apply splitmix64_inj in H.
  set (x := Z.lxor (Z.lxor ms _) _) in *. set (y := Z.lxor (Z.lxor ms' _) _) in *.
  rewrite (wrap64_small x), (wrap64_small y) in H; [exact H|..];
    apply lxor_u64; try apply lxor_u64; try apply wrap64_u64; assumption.
Qed.

Lemma rng_next_state (a0 a1 a2 a3 : Z) :
  fst (rng_next (mk_rng a0 a1 a2 a3))
  = mk_rng (Z.lxor a0 (Z.lxor a3 a1)) (Z.lxor a1 (Z.lxor a2 a0))
      (Z.lxor (Z.lxor a2 a0) (wrap64 (Z.shiftl a1 17))) (rotl (Z.lxor a3 a1) 45).
Proof. reflexivity. Qed.

Lemma rng_next_wf (rng : rng_state_t) :
  rng_wf rng -> rng_wf (fst (rng_next rng)) /\ is_u64 (snd (rng_next rng)).
Proof.
  destruct rng as [a0 a1 a2 a3]. intros (H0 & H1 & H2 & H3). cbn [s0 s1 s2 s3] in *.
  split; [|apply wrap64_u64].
  rewrite rng_next_state. unfold rng_wf. cbn [s0 s1 s2 s3].
  repeat split; repeat first
    [ assumption | apply wrap64_u64 | apply lxor_u64
    | apply rotl_u64; [|lia] ].
Qed.

Lemma rng_next_inj (a b : rng_state_t) :
  rng_wf a -> rng_wf b -> fst (rng_next a) = fst (rng_next b) -> a = b.
Proof.
  destruct a as [a0 a1 a2 a3], b as [b0 b1 b2 b3].
  intros (Ha0 & Ha1 & Ha2 & Ha3) (Hb0 & Hb1 & Hb2 & Hb3). cbn [s0 s1 s2 s3] in *.
  rewrite !rng_next_state. intros [= E0 E1 E2 E3].
  apply rotl_inj in E3; [|lia|apply lxor_u64; assumption..].
  rewrite E3 in E0. apply lxor_cancel_r in E0. subst b0.
  assert (E : Z.lxor a1 (wrap64 (Z.shiftl a1 17)) = Z.lxor b1 (wrap64 (Z.shiftl b1 17))).
  { set (ta := wrap64 (Z.shiftl a1 17)) in *. set (tb := wrap64 (Z.shiftl b1 17)) in *.
    apply Z.bits_inj'. intros n _.
    apply (f_equal (fun z => Z.testbit z n)) in E1, E2.
    rewrite !Z.lxor_spec in *.
    destruct (Z.testbit a1 n), (Z.testbit a2 n), (Z.testbit a0 n), (Z.testbit ta n),
      (Z.testbit b1 n), (Z.testbit b2 n), (Z.testbit tb n); done. }
  apply xorshiftl_inj in E; [|lia|assumption..]. subst b1.
  apply lxor_cancel_r in E3. subst b3.
  apply lxor_cancel_l, lxor_cancel_r in E1. subst b2. done.
Qed.

Lemma rng_next_zero : fst (rng_next (mk_rng 0 0 0 0)) = mk_rng 0 0 0 0.
Proof. reflexivity. Qed.

Lemma zero_wf : rng_wf (mk_rng 0 0 0 0).
Proof. unfold rng_wf, is_u64. cbn. pose proof pow64_pos. lia. Qed.

Lemma rng_next_nonzero (rng : rng_state_t) :
  rng_wf rng -> rng <> mk_rng 0 0 0 0 -> fst (rng_next rng) <> mk_rng 0 0 0 0.
Proof.
  intros Hwf Hne H. apply Hne. apply rng_next_inj; [exact Hwf|exact zero_wf|].
  rewrite rng_next_zero. exact H.
Qed.

Lemma splitmix64_words (s : Z) :
  splitmix64 s = (wrap64 (s + 0x9e3779b97f4a7c15), snd (splitmix64 s)).
Proof. reflexivity. Qed.

Lemma rng_seed_words (seed : Z) :
  rng_seed seed
  = mk_rng (snd (splitmix64 seed))
      (snd (splitmix64 (wrap64 (seed + 0x9e3779b97f4a7c15))))
      (snd (splitmix64 (wrap64 (wrap64 (seed + 0x9e3779b97f4a7c15) + 0x9e3779b97f4a7c15))))
      (snd (splitmix64
              (wrap64 (wrap64 (wrap64 (seed + 0x9e3779b97f4a7c15) + 0x9e3779b97f4a7c15)
                       + 0x9e3779b97f4a7c15)))).
Proof.
  unfold rng_seed.
  rewrite (splitmix64_words seed).
  rewrite (splitmix64_words (wrap64 (seed + _))).
  rewrite (splitmix64_words (wrap64 (wrap64 (seed + _) + _))).
  destruct (splitmix64 (wrap64 (wrap64 (wrap64 (seed + _) + _) + _))) as [t w].
  reflexivity.
Qed.

(** Two states of [splitmix64] that differ by a multiple of its increment
    which is not a multiple of 2^64 give two values. *)
Lemma splitmix64_apart (a b d : Z) :
  wrap64 b = wrap64 (a + d) -> d mod 2 ^ 64 <> 0 ->
  snd (splitmix64 a) <> snd (splitmix64 b).
Proof.
  intros Hb Hd H. apply splitmix64_inj in H. rewrite Hb in H.
  apply wrap64_eq_divide in H. apply Hd.
  apply Z.mod_divide; [lia|]. destruct H as [q Hq]. exists (- q). lia.
Qed.

Lemma wrap64_idem (z : Z) : wrap64 (wrap64 z) = wrap64 z.
Proof. unfold wrap64. apply Z.mod_mod. lia. Qed.

Lemma rng_seed_NoDup (seed : Z) :
  NoDup [s0 (rng_seed seed); s1 (rng_seed seed); s2 (rng_seed seed); s3 (rng_seed seed)].
Proof.
  rewrite rng_seed_words. cbn [s0 s1 s2 s3].
  set (g := 0x9e3779b97f4a7c15).
  set (t1 := wrap64 (seed + g)). set (t2 := wrap64 (t1 + g)). set (t3 := wrap64 (t2 + g)).
  assert (H1 : wrap64 t1 = wrap64 (seed + g)) by apply wrap64_idem.
  assert (H12 : wrap64 t2 = wrap64 (t1 + g)) by apply wrap64_idem.
  assert (H23 : wrap64 t3 = wrap64 (t2 + g)) by apply wrap64_idem.
  assert (H2 : wrap64 t2 = wrap64 (seed + 2 * g)).
  { rewrite H12. unfold t1. rewrite wrap64_add_l. f_equal. lia. }
  assert (H13 : wrap64 t3 = wrap64 (t1 + 2 * g)).
  { rewrite H23. unfold t2. rewrite wrap64_add_l. f_equal. lia. }
  assert (H3 : wrap64 t3 = wrap64 (seed + 3 * g)).
  { rewrite H13. unfold t1. rewrite wrap64_add_l. f_equal. lia. }
  assert (G1 : g mod 2 ^ 64 <> 0) by (intros H; discriminate H).
  assert (G2 : (2 * g) mod 2 ^ 64 <> 0) by (intros H; discriminate H).
  assert (G3 : (3 * g) mod 2 ^ 64 <> 0) by (intros H; discriminate H).
  pose proof (splitmix64_apart _ _ _ H1 G1). pose proof (splitmix64_apart _ _ _ H2 G2).
  pose proof (splitmix64_apart _ _ _ H3 G3). pose proof (splitmix64_apart _ _ _ H12 G1).
  pose proof (splitmix64_apart _ _ _ H13 G2). pose proof (splitmix64_apart _ _ _ H23 G1).
  repeat (apply NoDup_cons_2;
    [rewrite ?not_elem_of_cons; repeat split; try assumption; apply not_elem_of_nil|]).
  apply NoDup_nil_2.
Qed.

Lemma rng_seed_wf (seed : Z) : rng_wf (rng_seed seed).
Proof.
  rewrite rng_seed_words. unfold rng_wf. cbn [s0 s1 s2 s3].
  repeat split; apply splitmix64_u64.
Qed.

Lemma rng_advance_wf (k : nat) (rng : rng_state_t) :
  rng_wf rng -> rng <> mk_rng 0 0 0 0 ->
  rng_wf (rng_advance k rng) /\ rng_advance k rng <> mk_rng 0 0 0 0.
Proof.
  intros Hwf Hne. induction k as [|k [IHwf IHne]]; [done|].
  unfold rng_advance in *. cbn [Nat.iter]. split.
  - apply rng_next_wf, IHwf.
  - apply rng_next_nonzero; assumption.
Qed.

End RngMore.

(** X6. [derive_seed] tells the trials of a dataset apart: for one master seed
    and one size, two trial numbers give two seeds; so do two sizes for one
    trial number, and two master seeds for one size and trial. *)
Theorem derive_seed_distinct (master_seed n trial master_seed' n' trial' : Z) :
  is_u64 master_seed -> is_u64 n -> is_u64 trial ->
  is_u64 master_seed' -> is_u64 n' -> is_u64 trial' ->
  (trial <> trial' ->
     derive_seed master_seed n trial <> derive_seed master_seed n trial')
  /\ (n <> n' -> derive_seed master_seed n trial <> derive_seed master_seed n' trial)
  /\ (master_seed <> master_seed' ->
        derive_seed master_seed n trial <> derive_seed master_seed' n trial).
Proof.
  intros Hm Hn Ht Hm' Hn' Ht'. split; [|split]; intros Hne H; apply Hne;
    apply RngMore.derive_seed_inj in H; try assumption.
  - apply RngMore.lxor_cancel_l in H.
    apply Bits.mul_odd_inj in H; [exact H|reflexivity|assumption..].
  - apply RngMore.lxor_cancel_r, RngMore.lxor_cancel_l in H.
    apply Bits.mul_odd_inj in H; [exact H|reflexivity|assumption..].
  - apply RngMore.lxor_cancel_r, RngMore.lxor_cancel_r in H. exact H.
Qed.

Lemma derive_seed_distinct_witness :
  (is_u64 0xC0FFEE1234 /\ is_u64 1000 /\ is_u64 0
   /\ is_u64 0xBADC0DE /\ is_u64 2000 /\ is_u64 1)
  /\ ((0 <> 1 -> derive_seed 0xC0FFEE1234 1000 0 <> derive_seed 0xC0FFEE1234 1000 1)
      /\ (1000 <> 2000 ->
            derive_seed 0xC0FFEE1234 1000 0 <> derive_seed 0xC0FFEE1234 2000 0)
      /\ (0xC0FFEE1234 <> 0xBADC0DE ->
            derive_seed 0xC0FFEE1234 1000 0 <> derive_seed 0xBADC0DE 1000 0)).
Proof.
  assert (U : forall z, (0 <=? z) && (z <? 2 ^ 64) = true -> is_u64 z).
  { intros z H. apply andb_true_iff in H as [H1 H2]. unfold is_u64. lia. }
  assert (H1 : is_u64 0xC0FFEE1234) by (apply U; reflexivity).
  assert (H2 : is_u64 1000) by (apply U; reflexivity).
  assert (H3 : is_u64 0) by (apply U; reflexivity).
  assert (H4 : is_u64 0xBADC0DE) by (apply U; reflexivity).
  assert (H5 : is_u64 2000) by (apply U; reflexivity).
  assert (H6 : is_u64 1) by (apply U; reflexivity).
  split; [repeat split; apply H1 || apply H2 || apply H3 || apply H4 || apply H5 || apply H6|].
  exact (derive_seed_distinct 0xC0FFEE1234 1000 0 0xBADC0DE 2000 1 H1 H2 H3 H4 H5 H6).
Defined.

(** X7. [rng_seed] never produces the all-zero state, the one state xoshiro256**
    cannot leave: its four words are four different values of [splitmix64].
    Every state reached from it by calls of [rng_next] is made of four
    [uint64_t] and is not all-zero either. *)
Theorem rng_seed_never_zero (seed : Z) (k : nat) :
  NoDup [s0 (rng_seed seed); s1 (rng_seed seed); s2 (rng_seed seed); s3 (rng_seed seed)]
  /\ rng_wf (rng_advance k (rng_seed seed))
  /\ rng_advance k (rng_seed seed) <> mk_rng 0 0 0 0.
Proof.
  pose proof (RngMore.rng_seed_NoDup seed) as Hnd.
  split; [exact Hnd|].
  apply RngMore.rng_advance_wf; [apply RngMore.rng_seed_wf|].
  intros H. rewrite H in Hnd. cbn [s0 s1 s2 s3] in Hnd.
  apply NoDup_cons_1_1 in Hnd. apply Hnd. apply elem_of_cons. left. done.
Qed.

(** X8. The state transition of [rng_next] is one to one on the states made of
    four [uint64_t], and keeps them such; the all-zero state is its own
    successor, so no other state leads to it. The value returned is a
    [uint64_t]. *)
Theorem rng_next_one_to_one (a b : rng_state_t) :
  rng_wf a -> rng_wf b ->
  rng_wf (fst (rng_next a)) /\ is_u64 (snd (rng_next a))
  /\ (fst (rng_next a) = fst (rng_next b) -> a = b)
  /\ (a <> mk_rng 0 0 0 0 -> fst (rng_next a) <> mk_rng 0 0 0 0).
Proof.
  intros Ha Hb. destruct (RngMore.rng_next_wf a Ha) as [Hwf Hout].
  split; [exact Hwf|]. split; [exact Hout|]. split.
  - apply RngMore.rng_next_inj; assumption.
  - apply RngMore.rng_next_nonzero, Ha.
Qed.

Lemma rng_next_one_to_one_witness :
  (rng_wf (mk_rng 1 2 3 4) /\ rng_wf (mk_rng 4 3 2 1))
  /\ (rng_wf (fst (rng_next (mk_rng 1 2 3 4))) /\ is_u64 (snd (rng_next (mk_rng 1 2 3 4)))
      /\ (fst (rng_next (mk_rng 1 2 3 4)) = fst (rng_next (mk_rng 4 3 2 1)) ->
          mk_rng 1 2 3 4 = mk_rng 4 3 2 1)
      /\ (mk_rng 1 2 3 4 <> mk_rng 0 0 0 0 ->
          fst (rng_next (mk_rng 1 2 3 4)) <> mk_rng 0 0 0 0)).
Proof.
  assert (U : forall z, (0 <=? z) && (z <? 2 ^ 64) = true -> is_u64 z).
  { intros z H. apply andb_true_iff in H as [H1 H2]. unfold is_u64. lia. }
  assert (Ha : rng_wf (mk_rng 1 2 3 4)) by (repeat split; apply U; reflexivity).
  assert (Hb : rng_wf (mk_rng 4 3 2 1)) by (repeat split; apply U; reflexivity).
  split; [split; [exact Ha|exact Hb]|].
  exact (rng_next_one_to_one (mk_rng 1 2 3 4) (mk_rng 4 3 2 1) Ha Hb).
Defined.

(** ** rng_uniform: the rejection threshold *)

Module UniformFacts.

(** [-n % n] on [uint64_t] is [2^64 mod n]. *)
Lemma threshold_eq (n : Z) : 1 <= n < 2 ^ 64 -> wrap64 (- n) mod n = 2 ^ 64 mod n.
Proof.
  intros Hn. unfold wrap64. pose proof Bits.pow64_pos as Hpos.
  replace (- n) with (2 ^ 64 - n + (-1) * 2 ^ 64) by ring.
  rewrite Z.mod_add by lia. rewrite (Z.mod_small (2 ^ 64 - n) (2 ^ 64)) by lia.
  replace (2 ^ 64 - n) with (2 ^ 64 + (-1) * n) by ring.
  apply Z.mod_add. lia.
Qed.

(** The accepted values, from [t] on, are a whole number of runs of [n]
    consecutive values. *)
Lemma window_exact (n : Z) :
  1 <= n -> (2 ^ 64 - 2 ^ 64 mod n) / n * n = 2 ^ 64 - 2 ^ 64 mod n.
Proof.
  intros Hn. pose proof (Z.div_mod (2 ^ 64) n ltac:(lia)) as E.
  replace (2 ^ 64 - 2 ^ 64 mod n) with (2 ^ 64 / n * n) by lia.
  rewrite Z.div_mul by lia. done.
Qed.

End UniformFacts.

Module OutputFacts.

Import Bits.

Lemma rotl_rotl_57_7 (y : Z) : is_u64 y -> rotl (rotl y 57) 7 = y.
Proof.
  intros Hy. apply Z.bits_inj'. intros n Hn.
  destruct (Z.lt_ge_cases n 64) as [Hlt|Hge].
  2:{ rewrite !u64_high; try assumption; try lia.
      apply rotl_u64; [apply rotl_u64; [exact Hy|lia]|lia]. }
  rewrite rotl_bits by (try apply rotl_u64; try assumption; lia).
  destruct (Z.ltb_spec n 7) as [H7|H7].
  - rewrite rotl_bits by (try assumption; lia).
    destruct (Z.ltb_spec (n + 64 - 7) 57); [lia|]. f_equal. lia.
  - rewrite rotl_bits by (try assumption; lia).
    destruct (Z.ltb_spec (n - 7) 57); [|lia]. f_equal. lia.
Qed.

(** The multiplication by an odd constant is undone by the multiplication
    by its inverse modulo 2^64. *)
Lemma mul_inverse (a b x : Z) :
  wrap64 (a * b) = 1 -> is_u64 x -> wrap64 (wrap64 (x * a) * b) = x.
Proof.
  intros Hab Hx. unfold wrap64 in *.
  rewrite Z.mul_mod_idemp_l by discriminate.
  rewrite <- Z.mul_assoc, <- Z.mul_mod_idemp_r, Hab, Z.mul_1_r by discriminate.
  apply Z.mod_small. exact Hx.
Qed.

(** Every [uint64_t] is the value that [rng_next] returns from some
    state. *)
Lemma rng_next_onto (r : Z) :
  is_u64 r -> exists rng, rng_wf rng /\ snd (rng_next rng) = r.
Proof.
  intros Hr.
  set (y := wrap64 (r * 0x8E38E38E38E38E39)).
  set (s := wrap64 (rotl y 57 * 0xCCCCCCCCCCCCCCCD)).
  exists (mk_rng 0 s 0 0). split.
  - repeat split; try (cbn; lia); try reflexivity; apply wrap64_u64.
  - unfold rng_next. cbn [snd s1]. unfold s.
    rewrite (mul_inverse 0xCCCCCCCCCCCCCCCD 5 (rotl y 57)); [|reflexivity|].
    + rewrite rotl_rotl_57_7 by apply wrap64_u64.
      unfold y. apply mul_inverse; [reflexivity|exact Hr].
    + apply rotl_u64; [apply wrap64_u64|lia].
Qed.

(** One iteration of the rejection loop. *)
Lemma rng_uniform_step (n : Z) (fuel : nat) (rng : rng_state_t) :
  1 <= n < 2 ^ 64 ->
  rng_uniform (S fuel) rng n
  = if 2 ^ 64 mod n <=? snd (rng_next rng)
    then Ok (fst (rng_next rng), snd (rng_next rng) mod n)
    else rng_uniform fuel (fst (rng_next rng)) n.
Proof.
  intros Hn. unfold rng_uniform.
  destruct (Z.eqb_spec n 0) as [->|_]; [lia|].
  rewrite UniformFacts.threshold_eq by exact Hn.
  cbn [Uniform.reject_loop]. destruct (rng_next rng) as [rng1 r]. done.
Qed.

(** The values on which [rng_uniform] returns [v] at once are those from
    the threshold on that leave the remainder [v]. *)
Lemma returns_on_iff (n r v : Z) :
  1 <= n < 2 ^ 64 -> is_u64 r ->
  returns_on n r v <-> 2 ^ 64 mod n <= r /\ r mod n = v.
Proof.
  intros Hn Hr. split.
  - intros Hret. destruct (rng_next_onto r Hr) as (rng & Hwf & Hout).
    specialize (Hret 0%nat rng Hwf Hout).
    rewrite rng_uniform_step, Hout in Hret by exact Hn.
    destruct (Z.leb_spec (2 ^ 64 mod n) r) as [Hle|Hlt].
    + injection Hret as Hv. split; [exact Hle|exact Hv].
    + unfold rng_uniform in Hret. destruct (Z.eqb_spec n 0); [lia|discriminate Hret].
  - intros [Hle Hv] fuel rng _ Hout.
    rewrite rng_uniform_step, Hout by exact Hn.
    destruct (Z.leb_spec (2 ^ 64 mod n) r) as [_|Hlt]; [|lia].
    rewrite Hv. done.
Qed.

End OutputFacts.

(** X9. [rng_uniform] is unbiased. For [1 <= n < 2^64] one iteration of its
    loop returns [r mod n] when the value [r] of [rng_next] is at least
    [t = 2^64 mod n], which is what [-n % n] comes to, and draws again
    otherwise; every [uint64_t] is the value of [rng_next] from some state;
    and every result [v < n] is returned on the same number of values,
    [(2^64 - t) / n] of them: for every [q] below that number there is
    exactly one value on which [rng_uniform] returns [v] that lies in the
    [q]-th run of [n] values from [t] on. *)
Theorem rng_uniform_unbiased (n : Z) :
  1 <= n < 2 ^ 64 ->
  (forall fuel rng,
     rng_uniform (S fuel) rng n
     = if 2 ^ 64 mod n <=? snd (rng_next rng)
       then Ok (fst (rng_next rng), snd (rng_next rng) mod n)
       else rng_uniform fuel (fst (rng_next rng)) n)
  /\ (forall r, is_u64 r -> exists rng, rng_wf rng /\ snd (rng_next rng) = r)
  /\ (2 ^ 64 - 2 ^ 64 mod n) / n * n = 2 ^ 64 - 2 ^ 64 mod n
  /\ forall v q, 0 <= v < n -> 0 <= q < (2 ^ 64 - 2 ^ 64 mod n) / n ->
       exists r,
         (is_u64 r /\ returns_on n r v /\ (r - 2 ^ 64 mod n) / n = q)
         /\ forall r', is_u64 r' -> returns_on n r' v ->
              (r' - 2 ^ 64 mod n) / n = q -> r' = r.
Proof.
  intros Hn. split; [|split; [|split]].
  - intros fuel rng. apply OutputFacts.rng_uniform_step, Hn.
  - apply OutputFacts.rng_next_onto.
  - apply UniformFacts.window_exact. lia.
  - pose proof (UniformFacts.window_exact n ltac:(lia)) as HK.
    pose proof Bits.pow64_pos as Hpos.
    assert (Ht : 0 <= 2 ^ 64 mod n < n) by (apply Z.mod_pos_bound; lia).
    intros v q Hv Hq.
    pose proof (Z.mod_pos_bound (v - 2 ^ 64 mod n) n ltac:(lia)) as Hd.
    set (t := 2 ^ 64 mod n) in *. set (K := (2 ^ 64 - t) / n) in *.
    assert (Hr : is_u64 (t + (v - t) mod n + q * n)) by (unfold is_u64; nia).
    exists (t + (v - t) mod n + q * n). split; [split; [exact Hr|split]|].
    + apply OutputFacts.returns_on_iff; [exact Hn|exact Hr|]. fold t. split; [nia|].
      rewrite Z.mod_add by lia. rewrite Zplus_mod_idemp_r.
      replace (t + (v - t)) with v by lia. apply Z.mod_small. lia.
    + replace (t + (v - t) mod n + q * n - t) with ((v - t) mod n + q * n) by lia.
      rewrite Z.div_add by lia. rewrite Z.div_small by lia. lia.
    + intros r' Hr' Hret Hdiv.
      apply OutputFacts.returns_on_iff in Hret as [Hle Hmod]; [|exact Hn|exact Hr'].
      fold t in Hle.
      pose proof (Z.div_mod (r' - t) n ltac:(lia)) as E. rewrite Hdiv in E.
      rewrite <- Zminus_mod_idemp_l, Hmod in E. lia.
Qed.

Lemma rng_uniform_unbiased_witness :
  1 <= 6 < 2 ^ 64
  /\ ((forall fuel rng,
         rng_uniform (S fuel) rng 6
         = if 2 ^ 64 mod 6 <=? snd (rng_next rng)
           then Ok (fst (rng_next rng), snd (rng_next rng) mod 6)
           else rng_uniform fuel (fst (rng_next rng)) 6)
      /\ (forall r, is_u64 r -> exists rng, rng_wf rng /\ snd (rng_next rng) = r)
      /\ (2 ^ 64 - 2 ^ 64 mod 6) / 6 * 6 = 2 ^ 64 - 2 ^ 64 mod 6
      /\ forall v q, 0 <= v < 6 -> 0 <= q < (2 ^ 64 - 2 ^ 64 mod 6) / 6 ->
           exists r,
             (is_u64 r /\ returns_on 6 r v /\ (r - 2 ^ 64 mod 6) / 6 = q)
             /\ forall r', is_u64 r' -> returns_on 6 r' v ->
                  (r' - 2 ^ 64 mod 6) / 6 = q -> r' = r).
Proof.
  assert (H : 1 <= 6 < 2 ^ 64) by (split; [lia|reflexivity]).
  split; [exact H|]. exact (rng_uniform_unbiased 6 H).
Defined.

(** ** The generators that copy a table *)

Module ExtendFacts.

Import Gaps.

Open Scope Z_scope.

Lemma copy_base_take_while base m acc :
  copy_base base m acc = acc ++ take_while (fun b => b <=? m) base.
Proof.
  revert acc. induction base as [|b base IH]; intros acc; simpl.
  - rewrite app_nil_r. done.
  - destruct (b <=? m); [|rewrite app_nil_r; done].
    rewrite IH, <- app_assoc. done.
Qed.

Lemma take_while_take p l :
  exists k : nat, (k <= length l)%nat /\ take_while p l = take k l
    /\ (forall x l', l = x :: l' -> p x = true -> (1 <= k)%nat)
    /\ (forall x, l !! k = Some x -> p x = false).
Proof.
  induction l as [|x l (k & Hk & E & _ & Hstop)].
  - exists 0%nat. simpl. split; [lia|]. split; [done|].
    split; [intros x l' H; discriminate H|intros x H; discriminate H].
  - simpl. destruct (p x) eqn:Hp.
    + exists (S k). simpl. split; [lia|]. split; [rewrite E; done|].
      split; [intros; lia|exact Hstop].
    + exists 0%nat. simpl. split; [lia|]. split; [done|].
      split; [intros y l' [= <- <-] Hy; congruence|].
      intros y [= <-]. exact Hp.
Qed.

Lemma take_while_Forall p l : Forall (fun x => p x = true) (take_while p l).
Proof.
  induction l as [|x l IH]; simpl; [constructor|].
  destruct (p x) eqn:Hp; constructor; assumption.
Qed.

Lemma take_while_all p l : Forall (fun x => p x = true) l -> take_while p l = l.
Proof.
  induction 1 as [|x l Hx _ IH]; simpl; [done|]. rewrite Hx, IH. done.
Qed.

(** A smaller bound keeps a prefix of what a larger bound keeps. *)
Lemma take_while_le (m1 m2 : Z) l :
  m1 <= m2 ->
  take_while (fun g => g <=? m1) (take_while (fun g => g <=? m2) l)
  = take_while (fun g => g <=? m1) l.
Proof.
  intros Hm. induction l as [|x l IH]; simpl; [done|].
  destruct (Z.leb_spec x m2) as [H2|H2]; simpl.
  - destruct (x <=? m1); [rewrite IH; done|done].
  - destruct (Z.leb_spec x m1); [lia|done].
Qed.

Lemma take_while_prefix p l : take_while p l `prefix_of` l.
Proof.
  induction l as [|x l IH]; simpl; [done|].
  destruct (p x); [apply prefix_cons, IH|apply prefix_nil].
Qed.

(** A gap above the last one, appended to a valid sequence. *)
Lemma snoc_ok m gs prev next :
  bounded_ok m gs -> last gs = Some prev -> prev < next -> next <= m ->
  bounded_ok m (gs ++ [next]).
Proof.
  intros [[Hne H1 Hs Hpos] Hmax] Hlast Hlt Hle.
  apply last_Some in Hlast as [l' ->].
  assert (Hprev : 0 < prev).
  { rewrite Forall_app, Forall_singleton in Hpos. apply Hpos. }
  apply (Sorted_StronglySorted Z.lt) in Hs.
  split; [split|].
  - destruct l'; done.
  - rewrite head_app. destruct (head (l' ++ [prev])) eqn:E; [exact H1|done].
  - apply StronglySorted_Sorted, StronglySorted_app_2.
    + intros x1 x2 Hx1 Hx2. apply list_elem_of_singleton in Hx2 as ->.
      apply elem_of_app in Hx1 as [Hx1|Hx1].
      * pose proof (StronglySorted_app_1_elem_of _ _ _ x1 prev Hs Hx1) as H.
        specialize (H ltac:(apply list_elem_of_singleton; done)). lia.
      * apply list_elem_of_singleton in Hx1 as ->. exact Hlt.
    + exact Hs.
    + repeat constructor.
  - rewrite Forall_app, Forall_singleton. split; [exact Hpos|lia].
  - rewrite Forall_app, Forall_singleton. split; [exact Hmax|exact Hle].
Qed.

(** The extension keeps a valid sequence valid: what it appends is above
    the last gap and within the bound. *)
Lemma extend_loop_ok todo m gs r :
  bounded_ok m gs -> extend_loop todo m gs = Some r -> bounded_ok m r.
Proof.
  revert gs. induction todo as [|todo IH]; intros gs Hok Hrun.
  { injection Hrun as <-. exact Hok. }
  cbn [extend_loop] in Hrun.
  destruct (last gs) as [prev|] eqn:Hlast; [|done]. cbn [mbind option_bind] in Hrun.
  destruct (Double.to_u64 _) as [next|]; [|done]. cbn [mbind option_bind] in Hrun.
  destruct (Z.ltb_spec m next) as [|Hle]; [injection Hrun as <-; exact Hok|].
  destruct (Z.leb_spec next prev) as [|Hlt]; [injection Hrun as <-; exact Hok|].
  cbn [orb] in Hrun. apply IH in Hrun; [exact Hrun|].
  apply (snoc_ok m gs prev next); assumption.
Qed.

Lemma extend_loop_prefix todo m gs r :
  extend_loop todo m gs = Some r -> gs `prefix_of` r.
Proof.
  revert gs. induction todo as [|todo IH]; intros gs Hrun.
  { injection Hrun as <-. done. }
  cbn [extend_loop] in Hrun.
  destruct (last gs) as [prev|]; [|done]. cbn [mbind option_bind] in Hrun.
  destruct (Double.to_u64 _) as [next|]; [|done]. cbn [mbind option_bind] in Hrun.
  destruct (_ || _); [injection Hrun as <-; done|].
  apply IH in Hrun. etrans; [|exact Hrun]. apply prefix_app_r. done.
Qed.

(** What the extension appends for a bound is what it appends for a larger
    bound, cut at the first gap above the smaller one. *)
Lemma extend_loop_closed todo B m gs r :
  extend_loop todo B gs = Some r -> m <= B ->
  extend_loop todo m gs
  = Some (gs ++ take_while (fun g => g <=? m) (drop (length gs) r)).
Proof.
  revert gs. induction todo as [|todo IH]; intros gs Hrun Hm.
  { injection Hrun as <-. rewrite drop_all. simpl. rewrite app_nil_r. done. }
  cbn [extend_loop] in *.
  destruct (last gs) as [prev|]; [|done]. cbn [mbind option_bind] in *.
  destruct (Double.to_u64 _) as [next|]; [|done]. cbn [mbind option_bind] in *.
  destruct (Z.leb_spec next prev) as [Hnp|Hnp].
  { rewrite !orb_true_r in *. injection Hrun as <-.
    rewrite drop_all. simpl. rewrite app_nil_r. done. }
  rewrite !orb_false_r in *.
  destruct (Z.ltb_spec B next) as [HB|HB].
  { injection Hrun as <-. destruct (Z.ltb_spec m next); [|lia].
    rewrite drop_all. simpl. rewrite app_nil_r. done. }
  pose proof (extend_loop_prefix _ _ _ _ Hrun) as [tl ->].
  rewrite <- app_assoc. rewrite drop_app_length. simpl.
  destruct (Z.ltb_spec m next) as [Hmn|Hmn].
  - destruct (Z.leb_spec next m); [lia|]. rewrite app_nil_r. done.
  - destruct (Z.leb_spec next m); [|lia].
    rewrite (IH _ Hrun Hm). rewrite drop_app_length.
    rewrite <- app_assoc. done.
Qed.

(** Once a conversion is undefined for a bound, it is for every larger
    bound: the loop gets as far. *)
Lemma extend_loop_undefined todo m m' gs :
  extend_loop todo m gs = None -> m <= m' -> extend_loop todo m' gs = None.
Proof.
  revert gs. induction todo as [|todo IH]; intros gs Hrun Hm; [done|].
  cbn [extend_loop] in *.
  destruct (last gs) as [prev|]; [|done]. cbn [mbind option_bind] in *.
  destruct (Double.to_u64 _) as [next|]; [|done]. cbn [mbind option_bind] in *.
  destruct (Z.leb_spec next prev) as [Hnp|Hnp].
  { rewrite orb_true_r in Hrun. done. }
  rewrite !orb_false_r in *.
  destruct (Z.ltb_spec m next) as [|Hle]; [done|].
  destruct (Z.ltb_spec m' next); [lia|]. apply IH; assumption.
Qed.

Lemma table_generator_ok label base B m :
  defined_from_every_start base B = true -> head base = Some 1 -> 1 <= m <= B ->
  generated_ok m (table_generator label base m).
Proof.
  intros Hdef Hhead Hm. unfold table_generator.
  rewrite copy_base_take_while. cbn [app].
  destruct (take_while_take (fun b => b <=? m) base) as (k & Hk & E & Hk1 & Hstop).
  assert (H1 : (1 <= k)%nat).
  { destruct base as [|b base]; [done|]. injection Hhead as ->.
    apply (Hk1 1 base eq_refl). apply Z.leb_le. lia. }
  unfold defined_from_every_start in Hdef. rewrite forallb_forall in Hdef.
  specialize (Hdef k). rewrite in_seq in Hdef. specialize (Hdef ltac:(lia)).
  pose proof (take_while_Forall (fun b => b <=? m) base) as Hle.
  rewrite E in *. cbv zeta in Hdef.
  assert (HmB : m <= largest_bound base B k).
  { unfold largest_bound. destruct (base !! k) as [b|] eqn:Hb; [|lia].
    specialize (Hstop b eq_refl). apply Z.leb_gt in Hstop. lia. }
  destruct (extend_loop _ (largest_bound base B k) (take k base)) as [rB|] eqn:HB; [|done].
  apply sequence_ok_correct in Hdef as [Hinv _].
  pose proof (extend_loop_closed _ _ m _ _ HB HmB) as Hrun.
  rewrite Hrun. cbn [mbind option_bind].
  eexists. split; [done|]. cbn [gaps].
  apply (extend_loop_ok (room (take k base)) m (take k base)); [|exact Hrun].
  split; [exact Hinv|].
  eapply Forall_impl; [exact Hle|]. intros g Hg. cbv beta in *. apply Z.leb_le, Hg.
Qed.

Lemma table_generator_undefined label base T m :
  extend_loop (room base) T base = None ->
  Forall (fun b => b <= T) base -> T <= m ->
  table_generator label base m = None.
Proof.
  intros Hnone Hbase Hm. unfold table_generator.
  rewrite copy_base_take_while. cbn [app].
  rewrite take_while_all.
  - rewrite (extend_loop_undefined _ _ m _ Hnone Hm). done.
  - eapply Forall_impl; [exact Hbase|]. intros b Hb. cbv beta in *. apply Z.leb_le. lia.
Qed.

(** From the last gap of the table on, the sequence for a bound is the
    sequence for a larger bound cut at the smaller bound. *)
Lemma table_generator_cut label base m1 m2 s2 :
  Forall (fun b => b <= m1) base -> m1 <= m2 ->
  table_generator label base m2 = Some s2 ->
  table_generator label base m1
  = Some (mk_gap_sequence label (take_while (fun g => g <=? m1) (gaps s2))).
Proof.
  intros Hbase Hm. unfold table_generator.
  rewrite !copy_base_take_while. cbn [app].
  rewrite (take_while_all (fun b => b <=? m1) base),
    (take_while_all (fun b => b <=? m2) base);
    [|eapply Forall_impl; [exact Hbase|]; intros b Hb; cbv beta in *; apply Z.leb_le; lia..].
  destruct (extend_loop _ m2 base) as [r2|] eqn:E2; [|done].
  intros [= <-]. cbn [gaps mbind option_bind].
  rewrite (extend_loop_closed _ _ m1 _ _ E2 Hm). cbn [mbind option_bind].
  pose proof (extend_loop_prefix _ _ _ _ E2) as [tl ->].
  rewrite drop_app_length. do 2 f_equal.
  clear E2. induction Hbase as [|b base Hb _ IH]; [done|].
  simpl. destruct (Z.leb_spec b m1); [|lia]. rewrite IH. done.
Qed.

Lemma gaps_ciura_table m : gaps_ciura m = table_generator "Ciura" ciura_base m.
Proof. reflexivity. Qed.

Lemma gaps_ciura_extended_table m :
  gaps_ciura_extended m = table_generator "Ciura-Extended" ciura_ext_base m.
Proof. reflexivity. Qed.

Lemma gaps_evolved_table m :
  gaps_evolved m = table_generator "Evolved" Candidate.evolved_gaps m.
Proof. reflexivity. Qed.

Lemma ciura_defined :
  defined_from_every_start ciura_base 11117101561907005439 = true.
Proof. vm_compute. reflexivity. Qed.

Lemma ciura_extended_defined :
  defined_from_every_start ciura_ext_base 12335712331615666175 = true.
Proof. vm_compute. reflexivity. Qed.

Lemma evolved_defined :
  defined_from_every_start Candidate.evolved_gaps 15439779851877687295 = true.
Proof. vm_compute. reflexivity. Qed.

End ExtendFacts.

(** X10. The three generators that copy a table and extend it by the factor
    2.25 return a valid sequence within the bound for every bound from 1 up
    to the first extension gap whose multiple by 2.25 no longer fits
    [uint64_t]; from that gap on, the conversion of the next candidate is
    undefined. With the bound 0 nothing is copied and the extension reads
    [gaps[-1]]. *)
Theorem table_generators_domain :
  ((forall m, 1 <= m < 11117101561907005440 -> generated_ok m (gaps_ciura m))
   /\ (forall m, 11117101561907005440 <= m -> gaps_ciura m = None)
   /\ gaps_ciura 0 = None)
  /\ ((forall m, 1 <= m < 12335712331615666176 -> generated_ok m (gaps_ciura_extended m))
      /\ (forall m, 12335712331615666176 <= m -> gaps_ciura_extended m = None)
      /\ gaps_ciura_extended 0 = None)
  /\ ((forall m, 1 <= m < 15439779851877687296 -> generated_ok m (gaps_evolved m))
      /\ (forall m, 15439779851877687296 <= m -> gaps_evolved m = None)
      /\ gaps_evolved 0 = None).
Proof.
  split; [|split]; (split; [|split; [|reflexivity]]); intros m Hm.
  - rewrite ExtendFacts.gaps_ciura_table.
    apply (ExtendFacts.table_generator_ok _ _ 11117101561907005439);
      [exact ExtendFacts.ciura_defined|reflexivity|lia].
  - rewrite ExtendFacts.gaps_ciura_table.
    apply (ExtendFacts.table_generator_undefined _ _ 11117101561907005440);
      [vm_compute; reflexivity| |exact Hm].
    repeat constructor; intros H; discriminate H.
  - rewrite ExtendFacts.gaps_ciura_extended_table.
    apply (ExtendFacts.table_generator_ok _ _ 12335712331615666175);
      [exact ExtendFacts.ciura_extended_defined|reflexivity|lia].
  - rewrite ExtendFacts.gaps_ciura_extended_table.
    apply (ExtendFacts.table_generator_undefined _ _ 12335712331615666176);
      [vm_compute; reflexivity| |exact Hm].
    repeat constructor; intros H; discriminate H.
  - rewrite ExtendFacts.gaps_evolved_table.
    apply (ExtendFacts.table_generator_ok _ _ 15439779851877687295);
      [exact ExtendFacts.evolved_defined|reflexivity|lia].
  - rewrite ExtendFacts.gaps_evolved_table.
    apply (ExtendFacts.table_generator_undefined _ _ 15439779851877687296);
      [vm_compute; reflexivity| |exact Hm].
    repeat constructor; intros H; discriminate H.
Qed.

(** X11. The sequences for two bounds agree from the last gap of the table on:
    the sequence for the smaller bound is the sequence for the larger one
    cut at the smaller bound. Below the last gap of the table this fails:
    for the bound 130 the Ciura generator extends 57 to 128, which is a
    gap for no bound from 132 on. *)
Theorem table_generators_agree (m1 m2 : Z) (s2 : gap_sequence_t) :
  m1 <= m2 ->
  (701 <= m1 -> gaps_ciura m2 = Some s2 ->
     gaps_ciura m1
     = Some (mk_gap_sequence "Ciura" (take_while (fun g => g <=? m1) (gaps s2))))
  /\ (1750 <= m1 -> gaps_ciura_extended m2 = Some s2 ->
        gaps_ciura_extended m1
        = Some (mk_gap_sequence "Ciura-Extended"
                  (take_while (fun g => g <=? m1) (gaps s2))))
  /\ (3236462 <= m1 -> gaps_evolved m2 = Some s2 ->
        gaps_evolved m1
        = Some (mk_gap_sequence "Evolved" (take_while (fun g => g <=? m1) (gaps s2))))
  /\ option_map gaps (gaps_ciura 130) = Some [1; 4; 10; 23; 57; 128]
  /\ option_map gaps (gaps_ciura 132) = Some [1; 4; 10; 23; 57; 132].
Proof.
  intros Hm. split; [|split; [|split; [|split; vm_compute; reflexivity]]]; intros H1 H2.
  - rewrite ExtendFacts.gaps_ciura_table in *.
    apply (ExtendFacts.table_generator_cut _ _ _ m2); [|exact Hm|exact H2].
    repeat constructor; lia.
  - rewrite ExtendFacts.gaps_ciura_extended_table in *.
    apply (ExtendFacts.table_generator_cut _ _ _ m2); [|exact Hm|exact H2].
    repeat constructor; lia.
  - rewrite ExtendFacts.gaps_evolved_table in *.
    apply (ExtendFacts.table_generator_cut _ _ _ m2); [|exact Hm|exact H2].
    repeat constructor; lia.
Qed.

Lemma table_generators_agree_witness :
  1000 <= 10000
  /\ ((701 <= 1000 ->
       gaps_ciura 10000
       = Some (mk_gap_sequence "Ciura" [1; 4; 10; 23; 57; 132; 301; 701; 1577; 3548; 7983]) ->
       gaps_ciura 1000
       = Some (mk_gap_sequence "Ciura"
                 (take_while (fun g => g <=? 1000)
                    [1; 4; 10; 23; 57; 132; 301; 701; 1577; 3548; 7983])))
      /\ (1750 <= 1000 ->
          gaps_ciura_extended 10000
          = Some (mk_gap_sequence "Ciura"
                    [1; 4; 10; 23; 57; 132; 301; 701; 1577; 3548; 7983]) ->
          gaps_ciura_extended 1000
          = Some (mk_gap_sequence "Ciura-Extended"
                    (take_while (fun g => g <=? 1000)
                       [1; 4; 10; 23; 57; 132; 301; 701; 1577; 3548; 7983])))
      /\ (3236462 <= 1000 ->
          gaps_evolved 10000
          = Some (mk_gap_sequence "Ciura"
                    [1; 4; 10; 23; 57; 132; 301; 701; 1577; 3548; 7983]) ->
          gaps_evolved 1000
          = Some (mk_gap_sequence "Evolved"
                    (take_while (fun g => g <=? 1000)
                       [1; 4; 10; 23; 57; 132; 301; 701; 1577; 3548; 7983])))
      /\ option_map gaps (gaps_ciura 130) = Some [1; 4; 10; 23; 57; 128]
      /\ option_map gaps (gaps_ciura 132) = Some [1; 4; 10; 23; 57; 132]).
Proof.
  assert (H : 1000 <= 10000) by lia.
  split; [exact H|].
  exact (table_generators_agree 1000 10000
           (mk_gap_sequence "Ciura" [1; 4; 10; 23; 57; 132; 301; 701; 1577; 3548; 7983]) H).
Defined.

(** ** The generators that apply a formula *)

Module FormulaFacts.

Import Gaps.

Open Scope Z_scope.

Lemma defined_on_at gap_of (lo n k : Z) :
  defined_on gap_of (seqZ lo n) = true -> lo <= k < lo + n ->
  exists g, gap_of k = Some g.
Proof.
  intros H Hk. unfold defined_on in H. rewrite forallb_forall in H.
  specialize (H k). destruct (gap_of k) as [g|]; [eauto|].
  discriminate H. apply list_elem_of_In, elem_of_seqZ. exact Hk.
Qed.

(** The loop of [gaps_tokuda] and [gaps_lee] keeps a valid sequence valid. *)
Lemma bump_loop_ok gap_of todo k m gs r :
  m + 1 < 2 ^ 64 -> bounded_ok m gs ->
  bump_loop gap_of todo k m gs = Some r -> bounded_ok m r.
Proof.
  intros Hm. revert k gs. induction todo as [|todo IH]; intros k gs Hok Hrun.
  { injection Hrun as <-. exact Hok. }
  cbn [bump_loop] in Hrun.
  destruct (gap_of k) as [gap|]; [|done]. cbn [mbind option_bind] in Hrun.
  destruct (Z.ltb_spec m gap) as [|Hle]; [injection Hrun as <-; exact Hok|].
  destruct (last gs) as [prev|] eqn:Hlast.
  2:{ exfalso. destruct Hok as [[Hne _ _ _] _].
      apply last_None in Hlast. done. }
  assert (Hprev : 0 < prev <= m).
  { destruct Hok as [[_ _ _ Hpos] Hmax].
    apply last_Some_elem_of in Hlast.
    rewrite Forall_forall in Hpos, Hmax. split; [apply Hpos|apply Hmax]; exact Hlast. }
  destruct (Z.leb_spec gap prev) as [Hbump|Hgrow].
  - rewrite wrap64_small in Hrun by lia.
    destruct (Z.ltb_spec m (prev + 1)) as [|Hfit]; [injection Hrun as <-; exact Hok|].
    apply IH in Hrun; [exact Hrun|].
    apply (ExtendFacts.snoc_ok m gs prev); [exact Hok|exact Hlast|lia|lia].
  - apply IH in Hrun; [exact Hrun|].
    apply (ExtendFacts.snoc_ok m gs prev); [exact Hok|exact Hlast|lia|lia].
Qed.

(** The loop leaves at the exponent [K], where the gap exceeds the bound,
    at the latest: it meets no exponent above [K]. *)
Lemma bump_loop_defined gap_of (K g : Z) todo k m gs :
  (forall j, k <= j <= K -> exists gj, gap_of j = Some gj) ->
  gap_of K = Some g -> m < g -> k <= K ->
  exists r, bump_loop gap_of todo k m gs = Some r.
Proof.
  intros Hdef HK Hg. revert k gs Hdef.
  induction todo as [|todo IH]; intros k gs Hdef Hk; [simpl; eauto|].
  cbn [bump_loop]. destruct (Hdef k ltac:(lia)) as [gap Egap]. rewrite Egap.
  cbn [mbind option_bind].
  destruct (Z.ltb_spec m gap) as [|Hle]; [eauto|].
  assert (k <> K) by (intros ->; rewrite HK in Egap; injection Egap as ->; lia).
  assert (IH' : forall gs', exists r, bump_loop gap_of todo (k + 1) m gs' = Some r).
  { intros gs'. apply IH; [|lia]. intros j Hj. apply Hdef. lia. }
  destruct (last gs) as [prev|]; [|apply IH'].
  destruct (gap <=? prev); [|apply IH'].
  destruct (m <? wrap64 (prev + 1)); [eauto|apply IH'].
Qed.

(** The first iteration of [gaps_tokuda] and [gaps_lee], whose formula
    gives 1 for the exponent 1. *)
Lemma bump_loop_first gap_of todo m :
  gap_of 1 = Some 1 -> 1 <= m ->
  bump_loop gap_of (S todo) 1 m [] = bump_loop gap_of todo 2 m [1].
Proof.
  intros H1 Hm. cbn [bump_loop]. rewrite H1. cbn [mbind option_bind last].
  destruct (Z.ltb_spec m 1); [lia|]. done.
Qed.

Lemma one_ok m : 1 <= m -> bounded_ok m [1].
Proof.
  intros Hm. split; [split|]; [done|done|repeat constructor|repeat constructor..].
  exact Hm.
Qed.

Lemma bump_generator_ok gap_of (K g : Z) m label :
  gap_of 1 = Some 1 ->
  (forall j, 2 <= j <= K -> exists gj, gap_of j = Some gj) ->
  gap_of K = Some g -> m < g -> 2 <= K -> 1 <= m -> m + 1 < 2 ^ 64 ->
  generated_ok m
    (gaps ← bump_loop gap_of (room []) 1 m []; Some (mk_gap_sequence label gaps)).
Proof.
  intros H1 Hdef HK Hg HK2 Hm Hm64.
  change (room []) with (S 63).
  rewrite bump_loop_first by assumption.
  destruct (bump_loop_defined gap_of K g 63 2 m [1] Hdef HK Hg HK2) as [r Hr].
  rewrite Hr. cbn [mbind option_bind].
  exists (mk_gap_sequence label r). split; [done|].
  exact (bump_loop_ok _ _ _ _ _ _ Hm64 (one_ok m Hm) Hr).
Qed.

(** The loop of [gaps_skean]. *)
Lemma skip_loop_ok gap_of fuel k m gs r :
  bounded_ok m gs -> skip_loop gap_of fuel k m gs = Some r -> bounded_ok m r.
Proof.
  revert k gs. induction fuel as [|fuel IH]; intros k gs Hok Hrun; [done|].
  cbn [skip_loop] in Hrun.
  destruct (_ <? MAX_GAPS); [|injection Hrun as <-; exact Hok].
  destruct (gap_of k) as [gap|]; [|done]. cbn [mbind option_bind] in Hrun.
  destruct (Z.ltb_spec m gap) as [|Hle]; [injection Hrun as <-; exact Hok|].
  destruct (last gs) as [prev|] eqn:Hlast; [|done]. cbn [mbind option_bind] in Hrun.
  destruct (Z.leb_spec gap prev) as [Hskip|Hgrow].
  - apply IH in Hrun; [exact Hrun|exact Hok].
  - apply IH in Hrun; [exact Hrun|].
    apply (ExtendFacts.snoc_ok m gs prev); [exact Hok|exact Hlast|lia|lia].
Qed.

Lemma skip_loop_defined gap_of (K g : Z) fuel k m gs :
  (forall j, k <= j <= K -> exists gj, gap_of j = Some gj) ->
  gap_of K = Some g -> m < g -> k <= K -> gs <> [] ->
  (Z.to_nat (K - k) < fuel)%nat ->
  exists r, skip_loop gap_of fuel k m gs = Some r.
Proof.
  intros Hdef HK Hg. revert k gs Hdef.
  induction fuel as [|fuel IH]; intros k gs Hdef Hk Hne Hfuel; [lia|].
  cbn [skip_loop]. destruct (_ <? MAX_GAPS); [|eauto].
  destruct (Hdef k ltac:(lia)) as [gap Egap]. rewrite Egap.
  cbn [mbind option_bind].
  destruct (Z.ltb_spec m gap) as [|Hle]; [eauto|].
  assert (k <> K) by (intros ->; rewrite HK in Egap; injection Egap as ->; lia).
  destruct (last gs) as [prev|] eqn:Hlast.
  2:{ apply last_None in Hlast. done. }
  cbn [mbind option_bind].
  destruct (gap <=? prev); apply IH; try lia; try (intros j Hj; apply Hdef; lia).
  - exact Hne.
  - destruct gs; done.
Qed.

(** The loop of [gaps_sedgewick86]. *)
Lemma plain_loop_ok todo k m gs r :
  bounded_ok m gs ->
  (forall j g, k <= j -> sedgewick_gap j = Some g -> g <= m ->
     forall prev, In prev gs -> prev < g) ->
  (forall j j' g g', k <= j < j' -> sedgewick_gap j = Some g ->
     sedgewick_gap j' = Some g' -> g < g') ->
  plain_loop todo k m gs = Some r -> bounded_ok m r.
Proof.
  revert k gs. induction todo as [|todo IH]; intros k gs Hok Habove Hmono Hrun.
  { injection Hrun as <-. exact Hok. }
  cbn [plain_loop] in Hrun.
  destruct (sedgewick_gap k) as [gap|] eqn:Egap; [|done].
  cbn [mbind option_bind] in Hrun.
  destruct (Z.ltb_spec m gap) as [|Hle]; [injection Hrun as <-; exact Hok|].
  destruct (last gs) as [prev|] eqn:Hlast.
  2:{ exfalso. destruct Hok as [[Hne _ _ _] _]. apply last_None in Hlast. done. }
  apply IH in Hrun; [exact Hrun| | |].
  - apply (ExtendFacts.snoc_ok m gs prev); [exact Hok|exact Hlast| |exact Hle].
    apply (Habove k gap); [lia|exact Egap|exact Hle|].
    apply list_elem_of_In, last_Some_elem_of, Hlast.
  - intros j g Hj Eg Hg prev' Hin. apply in_app_or in Hin as [Hin|[<-|[]]].
    + apply (Habove j g); [lia|exact Eg|exact Hg|exact Hin].
    + apply (Hmono k j gap g); [lia|exact Egap|exact Eg].
  - intros j j' g g' Hj. apply Hmono. lia.
Qed.

Lemma plain_loop_defined (K g : Z) todo k m gs :
  (forall j, k <= j <= K -> exists gj, sedgewick_gap j = Some gj) ->
  sedgewick_gap K = Some g -> m < g -> k <= K ->
  exists r, plain_loop todo k m gs = Some r.
Proof.
  intros Hdef HK Hg. revert k gs Hdef.
  induction todo as [|todo IH]; intros k gs Hdef Hk; [simpl; eauto|].
  cbn [plain_loop]. destruct (Hdef k ltac:(lia)) as [gap Egap]. rewrite Egap.
  cbn [mbind option_bind].
  destruct (Z.ltb_spec m gap) as [|Hle]; [eauto|].
  assert (k <> K) by (intros ->; rewrite HK in Egap; injection Egap as ->; lia).
  apply IH; [|lia]. intros j Hj. apply Hdef. lia.
Qed.

(** The Sedgewick formula on its domain: the shifts are defined up to the
    exponent 31, nothing wraps, and the gaps increase. *)
Lemma sedgewick_gap_formula (k : Z) :
  1 <= k <= 31 -> sedgewick_gap k = Some (sedgewick_formula k).
Proof.
  intros Hk.
  assert (H : forallb (fun k => bool_decide (sedgewick_gap k = Some (sedgewick_formula k)))
                (seqZ 1 31) = true) by (vm_compute; reflexivity).
  rewrite forallb_forall in H. specialize (H k).
  eapply bool_decide_eq_true_1, H, list_elem_of_In, elem_of_seqZ. lia.
Qed.

Lemma sedgewick_gap_undefined (k : Z) : 32 <= k -> sedgewick_gap k = None.
Proof.
  intros Hk. unfold sedgewick_gap, shl1.
  destruct (Z.leb_spec 0 (2 * k)); [|lia].
  destruct (Z.ltb_spec (2 * k) 64); [lia|]. done.
Qed.

Lemma sedgewick_formula_mono (j j' : Z) :
  1 <= j < j' -> sedgewick_formula j < sedgewick_formula j'.
Proof.
  intros Hj. unfold sedgewick_formula.
  assert (4 ^ j < 4 ^ j') by (apply Z.pow_lt_mono_r; lia).
  assert (2 ^ (j - 1) < 2 ^ (j' - 1)) by (apply Z.pow_lt_mono_r; lia).
  lia.
Qed.

Lemma sedgewick_formula_above_1 (j : Z) : 1 <= j -> 1 < sedgewick_formula j.
Proof.
  intros Hj. unfold sedgewick_formula.
  assert (0 < 4 ^ j) by (apply Z.pow_pos_nonneg; lia).
  assert (0 < 2 ^ (j - 1)) by (apply Z.pow_pos_nonneg; lia).
  lia.
Qed.

(** The closed form of the loop, below the gap of the exponent 31. *)
Lemma plain_loop_closed todo k m gs :
  1 <= k <= 31 -> m < sedgewick_formula 31 -> (Z.to_nat (31 - k) < todo)%nat ->
  exists K, k - 1 <= K <= 30
    /\ plain_loop todo k m gs = Some (gs ++ map sedgewick_formula (seqZ k (K - k + 1)))
    /\ (forall j, k <= j <= K -> sedgewick_formula j <= m)
    /\ m < sedgewick_formula (K + 1).
Proof.
  intros Hk Hm. revert k gs Hk.
  induction todo as [|todo IH]; intros k gs Hk Htodo; [lia|].
  cbn [plain_loop]. rewrite sedgewick_gap_formula by lia. cbn [mbind option_bind].
  destruct (Z.ltb_spec m (sedgewick_formula k)) as [Hstop|Hgo].
  - exists (k - 1). split; [lia|].
    replace (k - 1 - k + 1) with 0 by lia. simpl. rewrite app_nil_r.
    split; [done|]. split; [intros j Hj; lia|].
    replace (k - 1 + 1) with k by lia. exact Hstop.
  - assert (Hk31 : k <> 31) by (intros ->; lia).
    assert (Hk' : 1 <= k + 1 <= 31) by lia.
    assert (Htodo' : (Z.to_nat (31 - (k + 1)) < todo)%nat) by lia.
    destruct (IH (k + 1) (gs ++ [sedgewick_formula k]) Hk' Htodo')
      as (K & HK & Hrun & Hall & Hnext).
    exists K. split; [lia|]. split.
    + rewrite Hrun, <- app_assoc. do 2 f_equal.
      replace (K - k + 1) with (Z.succ (K - (k + 1) + 1)) by lia.
      rewrite (seqZ_cons k) by lia. rewrite Z.pred_succ. cbn [map app].
      replace (Z.succ k) with (k + 1) by lia. done.
    + split; [|exact Hnext]. intros j Hj.
      destruct (decide (j = k)) as [->|Hne]; [exact Hgo|apply Hall; lia].
Qed.

End FormulaFacts.

Module SedgewickFacts.

Import Gaps FormulaFacts.

Open Scope Z_scope.

(** From the gap of the exponent 31 on, the loop reaches the exponent 32,
    whose shift by 64 is undefined. *)
Lemma plain_loop_undefined todo k m gs :
  1 <= k <= 32 -> sedgewick_formula 31 <= m -> (Z.to_nat (32 - k) < todo)%nat ->
  plain_loop todo k m gs = None.
Proof.
  intros Hk Hm. revert k gs Hk.
  induction todo as [|todo IH]; intros k gs Hk Htodo; [lia|].
  cbn [plain_loop]. destruct (decide (k = 32)) as [->|Hne].
  { rewrite sedgewick_gap_undefined by lia. done. }
  rewrite sedgewick_gap_formula by lia. cbn [mbind option_bind].
  assert (Hle : sedgewick_formula k <= sedgewick_formula 31).
  { destruct (decide (k = 31)) as [->|Hne']; [lia|].
    pose proof (sedgewick_formula_mono k 31). lia. }
  destruct (Z.ltb_spec m (sedgewick_formula k)); [lia|].
  apply IH; lia.
Qed.

Lemma sedgewick_ok m r :
  1 <= m -> plain_loop (room [1]) 1 m [1] = Some r -> bounded_ok m r.
Proof.
  intros Hm. apply plain_loop_ok; [apply one_ok, Hm| |].
  - intros j g Hj Eg _ prev [<-|[]].
    destruct (Z.le_gt_cases j 31) as [Hj31|Hj32].
    + rewrite sedgewick_gap_formula in Eg by lia. injection Eg as <-.
      apply sedgewick_formula_above_1. lia.
    + rewrite sedgewick_gap_undefined in Eg by lia. discriminate Eg.
  - intros j j' g g' Hj Eg Eg'.
    destruct (Z.le_gt_cases j' 31) as [Hj31|Hj32].
    + rewrite sedgewick_gap_formula in Eg, Eg' by lia.
      injection Eg as <-. injection Eg' as <-. apply sedgewick_formula_mono. lia.
    + rewrite sedgewick_gap_undefined in Eg' by lia. discriminate Eg'.
Qed.

End SedgewickFacts.

(** X12. [gaps_sedgewick86] returns 1 followed by the gaps
    [4^k + 3 * 2^(k-1) + 1] for [k = 1, 2, ...] that fit the bound, in
    closed form, for every bound below the gap of the exponent 31; the 1 is
    there whatever the bound. From that gap on, the loop reaches the
    exponent 32 and shifts by 64, which is undefined. *)
Theorem gaps_sedgewick86_closed_form (m : Z) :
  (m < sedgewick_formula 31 ->
     exists K, 0 <= K <= 30
       /\ gaps_sedgewick86 m
          = Some (mk_gap_sequence "Sedgewick-1986"
                    (1 :: map sedgewick_formula (seqZ 1 K)))
       /\ (forall j, 1 <= j <= K -> sedgewick_formula j <= m)
       /\ m < sedgewick_formula (K + 1)
       /\ (1 <= m -> generated_ok m (gaps_sedgewick86 m)))
  /\ (sedgewick_formula 31 <= m -> gaps_sedgewick86 m = None).
Proof.
  unfold gaps_sedgewick86. split; intros Hm.
  - destruct (FormulaFacts.plain_loop_closed (Gaps.room [1]) 1 m [1])
      as (K & HK & Hrun & Hall & Hnext); [lia|exact Hm|vm_compute; lia|].
    replace (K - 1 + 1) with K in Hrun by lia.
    exists K. split; [lia|]. rewrite Hrun. cbn [mbind option_bind app].
    split; [done|]. split; [exact Hall|]. split; [exact Hnext|].
    intros H1. eexists. split; [done|]. cbn [gaps].
    exact (SedgewickFacts.sedgewick_ok m _ H1 Hrun).
  - rewrite SedgewickFacts.plain_loop_undefined; [done|lia|exact Hm|vm_compute; lia].
Qed.

Module AllFacts.

Import Gaps FormulaFacts.

Open Scope Z_scope.

Lemma tokuda_defined : defined_on (tokuda_gap Libm.pow_ref) (seqZ 1 26) = true.
Proof. vm_compute. reflexivity. Qed.

Lemma lee_defined : defined_on (lee_gap Libm.pow_ref) (seqZ 1 26) = true.
Proof. vm_compute. reflexivity. Qed.

Lemma skean_defined : defined_on (skean_gap Libm.pow_ref) (seqZ 0 19) = true.
Proof. vm_compute. reflexivity. Qed.

Lemma tokuda_gap_1 : tokuda_gap Libm.pow_ref 1 = Some 1.
Proof. vm_compute. reflexivity. Qed.

Lemma lee_gap_1 : lee_gap Libm.pow_ref 1 = Some 1.
Proof. vm_compute. reflexivity. Qed.

Lemma skean_gap_0 : skean_gap Libm.pow_ref 0 = Some 4.
Proof. vm_compute. reflexivity. Qed.

Lemma bound_1e8 m : m <= 10 ^ 8 -> m < 123652334 /\ m + 1 < 2 ^ 64.
Proof.
  intros Hm. assert (10 ^ 8 < 123652334) by reflexivity.
  assert (123652334 + 1 < 2 ^ 64) by reflexivity. lia.
Qed.

Lemma gaps_tokuda_ok pow m :
  Libm.pow_faithful pow -> 1 <= m <= 10 ^ 8 -> generated_ok m (gaps_tokuda pow m).
Proof.
  intros Hpow Hm. destruct (bound_1e8 m ltac:(lia)) as [Hlt H64].
  rewrite GapsFacts.gaps_tokuda_ref by (assumption || lia). unfold gaps_tokuda.
  apply (bump_generator_ok _ 26 1147718700);
    [exact tokuda_gap_1| |exact GapsFacts.tokuda_gap_26|lia|lia|lia|exact H64].
  intros j Hj. apply (defined_on_at _ 1 26); [exact tokuda_defined|lia].
Qed.

Lemma gaps_lee_ok pow m :
  Libm.pow_faithful pow -> 1 <= m <= 10 ^ 8 -> generated_ok m (gaps_lee pow m).
Proof.
  intros Hpow Hm. destruct (bound_1e8 m ltac:(lia)) as [Hlt H64].
  rewrite GapsFacts.gaps_lee_ref by (assumption || lia). unfold gaps_lee.
  apply (bump_generator_ok _ 26 1071378535);
    [exact lee_gap_1| |exact GapsFacts.lee_gap_26|lia|lia|lia|exact H64].
  intros j Hj. apply (defined_on_at _ 1 26); [exact lee_defined|lia].
Qed.

Lemma gaps_skean_ok pow fuel m :
  Libm.pow_faithful pow -> (19 <= fuel)%nat -> 1 <= m <= 10 ^ 8 ->
  generated_ok m (gaps_skean pow fuel m).
Proof.
  intros Hpow Hfuel Hm. destruct (bound_1e8 m ltac:(lia)) as [Hlt H64].
  rewrite GapsFacts.gaps_skean_ref by (assumption || lia). unfold gaps_skean.
  destruct (skip_loop_defined (skean_gap Libm.pow_ref) 18 123652334 fuel 0 m [1])
    as [r Hr]; [|exact GapsFacts.skean_gap_18|exact Hlt|lia|done|lia|].
  { intros j Hj. apply (defined_on_at _ 0 19); [exact skean_defined|lia]. }
  rewrite Hr. cbn [mbind option_bind]. eexists. split; [done|]. cbn [gaps].
  exact (skip_loop_ok _ _ _ _ _ _ (one_ok m ltac:(lia)) Hr).
Qed.

Lemma gaps_sedgewick86_ok m :
  1 <= m <= 10 ^ 8 -> generated_ok m (gaps_sedgewick86 m).
Proof.
  intros Hm. unfold gaps_sedgewick86.
  destruct (plain_loop_defined 14 268460033 (room [1]) 1 m [1]) as [r Hr].
  - intros j Hj. rewrite sedgewick_gap_formula by lia. eauto.
  - reflexivity.
  - assert (10 ^ 8 < 268460033) by reflexivity. lia.
  - lia.
  - rewrite Hr. cbn [mbind option_bind]. eexists. split; [done|]. cbn [gaps].
    apply (SedgewickFacts.sedgewick_ok m r); [lia|exact Hr].
Qed.

End AllFacts.

(** X13. Every generator returns a valid sequence within the bound for every
    bound from 1 to 10^8, not only for the sizes the drivers use: the six
    baselines and the evolved sequence. [pow] stays within one unit in the
    last place, and [gaps_skean] has fuel for its iterations. *)
Theorem generators_valid_up_to_1e8 (pow : float -> float -> float) (fuel : nat) (m : Z) :
  Libm.pow_faithful pow -> (32 <= fuel)%nat -> 1 <= m <= 10 ^ 8 ->
  Forall (generated_ok m) (gaps_all_baselines pow fuel m)
  /\ generated_ok m (gaps_evolved m).
Proof.
  intros Hpow Hfuel Hm.
  assert (H8 : 10 ^ 8 < 11117101561907005439) by reflexivity.
  split.
  - unfold gaps_all_baselines. repeat apply Forall_cons_2; [..|apply Forall_nil_2].
    + rewrite ExtendFacts.gaps_ciura_table.
      apply (ExtendFacts.table_generator_ok _ _ 11117101561907005439);
        [exact ExtendFacts.ciura_defined|reflexivity|lia].
    + rewrite ExtendFacts.gaps_ciura_extended_table.
      assert (11117101561907005439 < 12335712331615666175) by reflexivity.
      apply (ExtendFacts.table_generator_ok _ _ 12335712331615666175);
        [exact ExtendFacts.ciura_extended_defined|reflexivity|lia].
    + apply AllFacts.gaps_tokuda_ok; assumption.
    + apply AllFacts.gaps_lee_ok; assumption.
    + apply AllFacts.gaps_skean_ok; [assumption|lia|assumption].
    + apply AllFacts.gaps_sedgewick86_ok; assumption.
  - rewrite ExtendFacts.gaps_evolved_table.
    assert (11117101561907005439 < 15439779851877687295) by reflexivity.
    apply (ExtendFacts.table_generator_ok _ _ 15439779851877687295);
      [exact ExtendFacts.evolved_defined|reflexivity|lia].
Qed.

Lemma generators_valid_up_to_1e8_witness :
  (Libm.pow_faithful Libm.pow_ref /\ (32 <= 32)%nat /\ 1 <= 31337 <= 10 ^ 8)
  /\ (Forall (generated_ok 31337) (gaps_all_baselines Libm.pow_ref 32 31337)
      /\ generated_ok 31337 (gaps_evolved 31337)).
Proof.
  assert (Hm : 1 <= 31337 <= 10 ^ 8) by (split; [lia|intros H; discriminate H]).
  split; [split; [exact GapsFacts.pow_ref_faithful|split; [exact (le_n 32)|exact Hm]]|].
  exact (generators_valid_up_to_1e8 Libm.pow_ref 32 31337
           GapsFacts.pow_ref_faithful (le_n 32) Hm).
Defined.

(** X14. With the bound 0 no generator returns a valid sequence and none reports
    it: the three that copy a table read [gaps[-1]], [gaps_tokuda] and
    [gaps_lee] return the empty sequence, and [gaps_skean] and
    [gaps_sedgewick86] return the gap 1, above the bound. *)
Theorem generators_at_bound_0 (pow : float -> float -> float) (fuel : nat) :
  Libm.pow_faithful pow -> (1 <= fuel)%nat ->
  gaps_all_baselines pow fuel 0
  = [ None; None;
      Some (mk_gap_sequence "Tokuda" []); Some (mk_gap_sequence "Lee-2021" []);
      Some (mk_gap_sequence "Skean-2023" [1]);
      Some (mk_gap_sequence "Sedgewick-1986" [1]) ]
  /\ gaps_evolved 0 = None.
Proof.
  intros Hpow Hfuel. split; [|reflexivity].
  assert (H0 : 0 <= 10 ^ 8) by (intros H; discriminate H).
  unfold gaps_all_baselines.
  rewrite GapsFacts.gaps_tokuda_ref, GapsFacts.gaps_lee_ref, GapsFacts.gaps_skean_ref
    by assumption.
  assert (Hskean : gaps_skean Libm.pow_ref fuel 0
                   = Some (mk_gap_sequence "Skean-2023" [1])).
  { destruct fuel as [|fuel]; [lia|]. unfold gaps_skean. cbn [Gaps.skip_loop].
    rewrite AllFacts.skean_gap_0. reflexivity. }
  rewrite Hskean. vm_compute. reflexivity.
Qed.

Lemma generators_at_bound_0_witness :
  (Libm.pow_faithful Libm.pow_ref /\ (1 <= 32)%nat)
  /\ (gaps_all_baselines Libm.pow_ref 32 0
      = [ None; None;
          Some (mk_gap_sequence "Tokuda" []); Some (mk_gap_sequence "Lee-2021" []);
          Some (mk_gap_sequence "Skean-2023" [1]);
          Some (mk_gap_sequence "Sedgewick-1986" [1]) ]
      /\ gaps_evolved 0 = None).
Proof.
  assert (Hf : (1 <= 32)%nat) by lia.
  split; [split; [exact GapsFacts.pow_ref_faithful|exact Hf]|].
  exact (generators_at_bound_0 Libm.pow_ref 32 GapsFacts.pow_ref_faithful Hf).
Defined.

(** ** gaps_ratio and gaps_split_ratio *)

Module RatioFacts.

Import Ratio.

Open Scope Z_scope.






End RatioFacts.



(** A run of each, as the loops go. *)
Example ratio_generators_run :
  option_map gaps (gaps_ratio (fun _ _ => ""%string) 2.25%float 1000 (Some "R"%string))
  = Some [1; 3; 7; 16; 36; 81; 183; 412; 927]
  /\ option_map gaps
       (gaps_split_ratio (fun _ _ => ""%string) 3.0%float 2.0%float 50 1000
          (Some "S"%string))
     = Some [1; 3; 9; 27; 81; 162; 324; 648]
  /\ option_map gaps (gaps_ratio (fun _ _ => ""%string) 0.5%float 10 (Some "R"%string))
     = Some [1; 2; 3; 4; 5; 6; 7; 8; 9; 10].
Proof. vm_compute. repeat split; reflexivity. Qed.

(** ** permgen.c: the command line *)

Module ArgsFacts.

Import Args.

(** The loop of [parse_uint64_list] when the tokens it reads are accepted:
    it stores their values from [count] on and stops at [max] tokens,
    whatever follows. *)
Lemma list_loop_ok strtoull toks max out count :
  0 <= count -> max <= Z.of_nat (length out) ->
  Forall (token_ok strtoull) (take (Z.to_nat (max - count)) toks) ->
  list_loop strtoull toks max out count
  = (0,
     take (Z.to_nat count) out
     ++ map (fun tok => fst (strtoull tok)) (take (Z.to_nat (max - count)) toks)
     ++ drop (Z.to_nat count + length (take (Z.to_nat (max - count)) toks)) out,
     count + Z.of_nat (length (take (Z.to_nat (max - count)) toks))).
Proof.
  revert out count. induction toks as [|tok toks IH]; intros out count Hc Hmax Hok.
  { rewrite take_nil. cbn [list_loop map length app].
    rewrite Nat.add_0_r, take_drop, Z.add_0_r. done. }
  cbn [list_loop]. destruct (Z.ltb_spec count max) as [Hlt|Hge].
  - replace (Z.to_nat (max - count)) with (S (Z.to_nat (max - (count + 1)))) in * by lia.
    cbn [take] in *. apply Forall_cons in Hok as [Htok Hok].
    destruct (strtoull tok) as [value rest] eqn:Etok.
    unfold token_ok in Htok. rewrite Etok in Htok. cbn [snd] in Htok. rewrite Htok.
    rewrite IH by (rewrite ?length_insert; first [lia | exact Hok]).
    cbn [map length fst]. f_equal; [|lia]. f_equal.
    rewrite (insert_take_drop out (Z.to_nat count)) by lia.
    replace (Z.to_nat (count + 1)) with (S (Z.to_nat count)) by lia.
    set (k := length (take (Z.to_nat (max - (count + 1))) toks)).
    rewrite take_app_ge by (rewrite length_take; lia).
    rewrite length_take, Nat.min_l by lia.
    replace (S (Z.to_nat count) - Z.to_nat count)%nat with 1%nat by lia.
    cbn [take]. rewrite take_0.
    rewrite drop_app_ge by (rewrite length_take; lia).
    rewrite length_take, Nat.min_l by lia.
    replace (S (Z.to_nat count) + k - Z.to_nat count)%nat with (S k) by lia.
    cbn [drop]. rewrite drop_drop, <- app_assoc. cbn [app].
    rewrite Etok. cbn [fst].
    replace (Z.to_nat count + S k)%nat with (S (Z.to_nat count) + k)%nat by lia. done.
  - replace (Z.to_nat (max - count)) with 0%nat by lia.
    cbn [take map length app]. rewrite Nat.add_0_r, take_drop, Z.add_0_r. done.
Qed.

(** The loop fails at the first token that is not accepted. *)
Lemma list_loop_fail strtoull toks max out count :
  0 <= count ->
  Exists (fun tok => ~ token_ok strtoull tok) (take (Z.to_nat (max - count)) toks) ->
  exists out' count', list_loop strtoull toks max out count = (-1, out', count').
Proof.
  revert out count. induction toks as [|tok toks IH]; intros out count Hc Hbad.
  { rewrite take_nil in Hbad. inversion Hbad. }
  cbn [list_loop]. destruct (Z.ltb_spec count max) as [Hlt|Hge].
  - replace (Z.to_nat (max - count)) with (S (Z.to_nat (max - (count + 1)))) in * by lia.
    cbn [take] in Hbad.
    destruct (strtoull tok) as [value rest] eqn:Etok.
    destruct (trailing_garbage rest) eqn:Egarbage; [eauto|].
    apply Exists_cons in Hbad as [Hbad|Hbad].
    + exfalso. apply Hbad. unfold token_ok. rewrite Etok. exact Egarbage.
    + apply IH; [lia|exact Hbad].
  - replace (Z.to_nat (max - count)) with 0%nat in Hbad by lia.
    rewrite take_0 in Hbad. inversion Hbad.
Qed.

(** Whatever the tokens, the loop keeps the array's length and the count
    within [max]. *)
Lemma list_loop_range strtoull toks max out count ret out' count' :
  0 <= count <= max ->
  list_loop strtoull toks max out count = (ret, out', count') ->
  length out' = length out /\ count <= count' <= max
  /\ (ret = 0 \/ ret = -1)
  /\ (ret = 0 -> toks <> [] -> count < max -> count < count').
Proof.
  revert out count. induction toks as [|tok toks IH]; intros out count Hc Hrun.
  { injection Hrun as <- <- <-.
    split; [done|]. split; [lia|]. split; [by left|]. done. }
  cbn [list_loop] in Hrun. destruct (Z.ltb_spec count max) as [Hlt|Hge].
  - destruct (strtoull tok) as [value rest].
    destruct (trailing_garbage rest).
    + injection Hrun as <- <- <-. rewrite length_insert.
      split; [done|]. split; [lia|]. split; [by right|]. done.
    + apply IH in Hrun; [|lia]. rewrite length_insert in Hrun.
      destruct Hrun as (Hlen & Hcount & Hret & _).
      split; [done|]. split; [lia|]. split; [exact Hret|]. lia.
  - injection Hrun as <- <- <-.
    split; [done|]. split; [lia|]. split; [by left|]. lia.
Qed.

Lemma length_substring_le n s : (String.length (substring 0 n s) <= n)%nat.
Proof.
  revert s. induction n as [|n IH]; intros [|c s]; simpl; try lia.
  specialize (IH s). lia.
Qed.

(** [strtok] gives no empty token. *)
Lemma tokens_from_nonempty s cur :
  Forall (fun tok => tok <> ""%string) (tokens_from s cur).
Proof.
  revert cur. induction s as [|c s IH]; intros cur; cbn [tokens_from].
  - destruct (String.eqb_spec cur ""); [constructor|].
    constructor; [done|constructor].
  - destruct (Ascii.eqb c ","); [|apply IH].
    destruct (String.eqb_spec cur ""); [apply IH|].
    constructor; [done|apply IH].
Qed.

Lemma parse_uint64_list_range strtoull strdup_ok str out ret out' count :
  parse_uint64_list strtoull strdup_ok str out MAX_SIZES = (ret, out', count) ->
  length out' = length out /\ 0 <= count <= 32
  /\ (ret = 0 \/ ret = -1)
  /\ (ret = 0 -> strtok str <> [] -> 0 < count).
Proof.
  unfold parse_uint64_list. destruct (strdup_ok str); cbn [negb].
  - intros Hrun. apply list_loop_range in Hrun; [|unfold MAX_SIZES; lia].
    unfold MAX_SIZES in Hrun. destruct Hrun as (Hlen & Hcount & Hret & Hpos).
    split; [done|]. split; [lia|]. split; [exact Hret|].
    intros H0 Hne. apply Hpos; [done|done|lia].
  - intros [= <- <- <-].
    split; [done|]. split; [lia|]. split; [by right|]. done.
Qed.

(** The loop of [parse_args] keeps the configuration well formed; it
    touches the trial counts only at a [--trials], and the master seed
    only at a [--seed]. *)
Lemma args_loop_keeps strtoull strdup_ok (n : nat) args cfg cfg' :
  (length args <= n)%nat ->
  config_wf cfg ->
  args_loop strtoull strdup_ok args cfg = Parsed cfg' ->
  config_wf cfg'
  /\ out_dir cfg' <> ""%string /\ 1 <= num_sizes cfg'
  /\ ("--trials"%string ∉ args -> trials cfg' = trials cfg)
  /\ ("--seed"%string ∉ args -> master_seed cfg' = master_seed cfg).
Proof.
  revert args cfg. induction n as [|n IH]; intros args cfg Hn Hwf Hrun.
  { destruct args; [|simpl in Hn; lia]. cbn [args_loop] in Hrun.
    destruct (String.eqb_spec (out_dir cfg) ""); [done|].
    destruct (Z.eqb_spec (num_sizes cfg) 0); [done|]. cbn [orb] in Hrun.
    injection Hrun as <-. pose proof (num_sizes_range cfg Hwf).
    split; [exact Hwf|]. split; [done|]. split; [lia|]. split; done. }
  destruct args as [|arg [|value args]].
  - apply (IH [] cfg); [simpl; lia|done|done].
  - cbn [args_loop] in Hrun. destruct (_ || _); done.
  - cbn [args_loop] in Hrun. cbn [length] in Hn.
    destruct Hwf as [Hdir Hsizes Htrials Hnum].
    destruct (String.eqb_spec arg "--out") as [->|Hout].
    { apply IH in Hrun; [|lia|].
      - destruct Hrun as (Hwf' & Hd & Hs & Ht & Hm). cbn in Ht, Hm.
        split; [exact Hwf'|]. split; [exact Hd|]. split; [exact Hs|]. split.
        + intros Hnot. do 2 apply not_elem_of_cons in Hnot as [_ Hnot]. auto.
        + intros Hnot. do 2 apply not_elem_of_cons in Hnot as [_ Hnot]. auto.
      - constructor; cbn; try done. apply length_substring_le. }
    destruct (String.eqb_spec arg "--seed") as [->|Hseed].
    { apply IH in Hrun; [|lia|].
      - destruct Hrun as (Hwf' & Hd & Hs & Ht & Hm). cbn in Ht, Hm.
        split; [exact Hwf'|]. split; [exact Hd|]. split; [exact Hs|]. split.
        + intros Hnot. do 2 apply not_elem_of_cons in Hnot as [_ Hnot]. auto.
        + intros Hnot. apply not_elem_of_cons in Hnot as [Hne _]. done.
      - constructor; cbn; done. }
    destruct (String.eqb_spec arg "--sizes") as [->|Hsz].
    { destruct (parse_uint64_list _ _ value (sizes cfg) _) as [[ret out] count] eqn:Eparse.
      apply parse_uint64_list_range in Eparse as (Hlen & Hcount & _ & _).
      destruct (ret <? 0); [done|].
      apply IH in Hrun; [|lia|].
      - destruct Hrun as (Hwf' & Hd & Hs & Ht & Hm). cbn in Ht, Hm.
        split; [exact Hwf'|]. split; [exact Hd|]. split; [exact Hs|]. split.
        + intros Hnot. do 2 apply not_elem_of_cons in Hnot as [_ Hnot]. auto.
        + intros Hnot. do 2 apply not_elem_of_cons in Hnot as [_ Hnot]. auto.
      - constructor; cbn; try done. congruence. }
    destruct (String.eqb_spec arg "--trials") as [->|Htr].
    { destruct (parse_uint64_list _ _ value (trials cfg) _) as [[ret out] count] eqn:Eparse.
      apply parse_uint64_list_range in Eparse as (Hlen & Hcount & _ & _).
      destruct (ret <? 0); [done|]. destruct (negb _); [done|].
      apply IH in Hrun; [|lia|].
      - destruct Hrun as (Hwf' & Hd & Hs & Ht & Hm). cbn in Ht, Hm.
        split; [exact Hwf'|]. split; [exact Hd|]. split; [exact Hs|]. split.
        + intros Hnot. apply not_elem_of_cons in Hnot as [Hne _]. done.
        + intros Hnot. do 2 apply not_elem_of_cons in Hnot as [_ Hnot]. auto.
      - constructor; cbn; try done. congruence. }
    destruct (_ || _); done.
Qed.

End ArgsFacts.

Module OrderFacts.

Import Args.

(** A [--trials] with a token, reached while no size has been read, is
    refused. *)
Lemma trials_without_sizes strtoull strdup_ok value rest cfg :
  num_sizes cfg = 0 -> strtok value <> [] ->
  args_loop strtoull strdup_ok ("--trials"%string :: value :: rest) cfg = ParseFailed.
Proof.
  intros Hnum Htoks. cbn [args_loop].
  change (String.eqb "--trials" "--out") with false.
  change (String.eqb "--trials" "--seed") with false.
  change (String.eqb "--trials" "--sizes") with false.
  change (String.eqb "--trials" "--trials") with true. cbv iota.
  destruct (parse_uint64_list _ _ value _ _) as [[ret out] count] eqn:Eparse.
  apply ArgsFacts.parse_uint64_list_range in Eparse as (_ & Hcount & Hret & Hpos).
  destruct Hret as [-> | ->]; [|done].
  specialize (Hpos eq_refl Htoks). cbn [Z.ltb Z.compare]. rewrite Hnum.
  destruct (Z.eqb_spec count 0); [lia|done].
Qed.

(** The options before it, none of them [--sizes], leave the number of
    sizes at 0. *)
Lemma options_before strtoull strdup_ok options value rest cfg :
  num_sizes cfg = 0 -> strtok value <> [] ->
  Forall (fun p => fst p <> "--sizes"%string) options ->
  (forall cfg',
     args_loop strtoull strdup_ok
       (option_args options ++ "--trials"%string :: value :: rest) cfg
     <> Parsed cfg')
  /\ (Forall (fun p => fst p = "--out"%string \/ fst p = "--seed"%string) options ->
      args_loop strtoull strdup_ok
        (option_args options ++ "--trials"%string :: value :: rest) cfg
      = ParseFailed).
Proof.
  intros Hnum Htoks Hopts. revert cfg Hnum.
  induction Hopts as [|[opt val] options Hopt _ IH]; intros cfg Hnum.
  { cbn [option_args flat_map app].
    rewrite trials_without_sizes by assumption. split; [done|done]. }
  cbn [fst] in Hopt.
  change (option_args ((opt, val) :: options)) with (opt :: val :: option_args options).
  cbn [app args_loop].
  destruct (String.eqb_spec opt "--out") as [->|Hout].
  { destruct (IH (mk_config (strncpy_out_dir val) (master_seed cfg) (sizes cfg)
                    (trials cfg) (num_sizes cfg)) Hnum) as [Hnot Hfail].
    split; [exact Hnot|]. intros Hall. apply Forall_cons in Hall as [_ Hall].
    apply Hfail, Hall. }
  destruct (String.eqb_spec opt "--seed") as [->|Hseed].
  { destruct (IH (mk_config (out_dir cfg) (fst (strtoull val)) (sizes cfg)
                    (trials cfg) (num_sizes cfg)) Hnum) as [Hnot Hfail].
    split; [exact Hnot|]. intros Hall. apply Forall_cons in Hall as [_ Hall].
    apply Hfail, Hall. }
  destruct (String.eqb_spec opt "--sizes") as [->|_]; [done|].
  split.
  - destruct (String.eqb_spec opt "--trials") as [->|_].
    + destruct (parse_uint64_list _ _ val _ _) as [[ret out] count].
      destruct (ret <? 0); [done|]. destruct (negb _); [done|].
      apply (IH (mk_config (out_dir cfg) (master_seed cfg) (sizes cfg) out
                   (num_sizes cfg)) Hnum).
    + destruct (_ || _); done.
  - intros Hall. apply Forall_cons in Hall as [[Ho|Hs] _]; cbn [fst] in *; done.
Qed.

End OrderFacts.

(** X16. [parse_uint64_list] reads at most [max] tokens and does not look at the
    rest. When the first [max] tokens are numbers, it returns 0 with the
    count of the tokens read and their values at the head of the array,
    the other elements being left as they were, whatever follows the
    [max]-th token; when one of the first [max] tokens is not a number it
    returns -1; and it returns -1 when the text is not copied. *)
Theorem parse_uint64_list_reads_max (strtoull : string -> Z * string)
    (strdup_ok : string -> bool) (str : string) (out : list Z) (max : Z) :
  0 <= max <= Z.of_nat (length out) ->
  (strdup_ok str = true ->
   Forall (token_ok strtoull) (take (Z.to_nat max) (Args.strtok str)) ->
   Args.parse_uint64_list strtoull strdup_ok str out max
   = (0,
      map (fun tok => fst (strtoull tok)) (take (Z.to_nat max) (Args.strtok str))
      ++ drop (length (take (Z.to_nat max) (Args.strtok str))) out,
      Z.of_nat (length (Args.strtok str)) `min` max))
  /\ (strdup_ok str = true ->
      Exists (fun tok => ~ token_ok strtoull tok) (take (Z.to_nat max) (Args.strtok str)) ->
      fst (fst (Args.parse_uint64_list strtoull strdup_ok str out max)) = -1)
  /\ (strdup_ok str = false ->
      Args.parse_uint64_list strtoull strdup_ok str out max = (-1, out, 0)).
Proof.
  intros Hmax. unfold Args.parse_uint64_list. split; [|split].
  - intros -> Hok. cbn [negb].
    rewrite ArgsFacts.list_loop_ok; rewrite ?Z.sub_0_r; try lia; try exact Hok.
    cbn [Z.to_nat take app Nat.add Z.add]. rewrite length_take. f_equal. lia.
  - intros -> Hbad. cbn [negb].
    destruct (ArgsFacts.list_loop_fail strtoull (Args.strtok str) max out 0)
      as (out' & count' & ->); [lia|rewrite Z.sub_0_r; exact Hbad|]. done.
  - intros ->. done.
Qed.

Lemma parse_uint64_list_reads_max_witness :
  (true = true ->
   Forall (token_ok decimal_strtoull) (take (Z.to_nat 2) (Args.strtok "10,,20,x,30")) ->
   Args.parse_uint64_list decimal_strtoull (fun _ => true) "10,,20,x,30" [7; 7; 7] 2
   = (0,
      map (fun tok => fst (decimal_strtoull tok))
        (take (Z.to_nat 2) (Args.strtok "10,,20,x,30"))
      ++ drop (length (take (Z.to_nat 2) (Args.strtok "10,,20,x,30"))) [7; 7; 7],
      Z.of_nat (length (Args.strtok "10,,20,x,30")) `min` 2))
  /\ (true = true ->
      Exists (fun tok => ~ token_ok decimal_strtoull tok)
        (take (Z.to_nat 2) (Args.strtok "10,,20,x,30")) ->
      fst (fst (Args.parse_uint64_list decimal_strtoull (fun _ => true) "10,,20,x,30"
                  [7; 7; 7] 2)) = -1)
  /\ (true = false ->
      Args.parse_uint64_list decimal_strtoull (fun _ => true) "10,,20,x,30" [7; 7; 7] 2
      = (-1, [7; 7; 7], 0)).
Proof.
  assert (Hmax : 0 <= 2 <= Z.of_nat (length [7; 7; 7])) by (simpl; lia).
  exact (parse_uint64_list_reads_max decimal_strtoull (fun _ => true) "10,,20,x,30"
           [7; 7; 7] 2 Hmax).
Defined.

(** X17. What [parse_args] accepts. A configuration it returns has an output
    directory that is not empty and fits its field, and from 1 to 32
    sizes. Nothing asks for [--trials]: on a command line without it the
    trial counts are all 0, and without [--seed] the master seed is the
    default. The number of trial counts is compared with the number of
    sizes read so far: a command line on which a [--trials] with at least
    one token comes after options none of which is [--sizes] is never
    accepted, whatever follows it, and it is refused with the failure code
    when those options are [--out] and [--seed] only. *)
Theorem parse_args_accepts (strtoull : string -> Z * string)
    (strdup_ok : string -> bool) (args : list string) :
  (forall cfg, parse_args strtoull strdup_ok args = Args.Parsed cfg ->
     config_wf cfg /\ Args.out_dir cfg <> ""%string /\ 1 <= Args.num_sizes cfg
     /\ ("--trials"%string ∉ args -> Args.trials cfg = replicate 32 0)
     /\ ("--seed"%string ∉ args -> Args.master_seed cfg = 0xC0FFEE1234))
  /\ (forall options value rest,
        args = option_args options ++ "--trials"%string :: value :: rest ->
        Forall (fun p => fst p <> "--sizes"%string) options ->
        Args.strtok value <> [] ->
        (forall cfg, parse_args strtoull strdup_ok args <> Args.Parsed cfg)
        /\ (Forall (fun p => fst p = "--out"%string \/ fst p = "--seed"%string) options ->
            parse_args strtoull strdup_ok args = Args.ParseFailed)).
Proof.
  split.
  - intros cfg Hrun. unfold parse_args in Hrun.
    apply (ArgsFacts.args_loop_keeps _ _ (length args)) in Hrun; [exact Hrun|lia|].
    constructor; cbn; try done. lia.
  - intros options value rest -> Hopts Htoks. unfold parse_args.
    apply OrderFacts.options_before; [reflexivity|exact Htoks|exact Hopts].
Qed.

(** A [--sizes] that comes after the [--trials] does not help. *)
Example parse_args_trials_before_sizes (strtoull : string -> Z * string)
    (strdup_ok : string -> bool) :
  parse_args strtoull strdup_ok ["--out"; "p"; "--trials"; "5"; "--sizes"; "1"]
  = Args.ParseFailed.
Proof.
  apply (OrderFacts.options_before strtoull strdup_ok [("--out", "p")] "5"
           ["--sizes"; "1"])%string.
  - reflexivity.
  - vm_compute. discriminate.
  - constructor; [cbn; discriminate|constructor].
  - constructor; [by left|constructor].
Qed.

(** Runs of [parse_args]: without [--trials]; with a [--sizes] that comes
    after the [--trials] and is not compared with it; with the options in
    the other order. *)
Example parse_args_run :
  parse_args decimal_strtoull (fun _ => true) ["--out"; "perms"; "--sizes"; "1000,2000"]
  = Args.Parsed
      (Args.mk_config "perms" 0xC0FFEE1234 ([1000; 2000] ++ replicate 30 0)
         (replicate 32 0) 2)
  /\ parse_args decimal_strtoull (fun _ => true)
       ["--out"; "perms"; "--sizes"; "1,2"; "--trials"; "5,5"; "--sizes"; "7,8,9"]
     = Args.Parsed
         (Args.mk_config "perms" 0xC0FFEE1234 ([7; 8; 9] ++ replicate 29 0)
            ([5; 5] ++ replicate 30 0) 3)
  /\ parse_args decimal_strtoull (fun _ => true)
       ["--trials"; "5,5"; "--out"; "perms"; "--sizes"; "1,2"]
     = Args.ParseFailed
  /\ parse_args decimal_strtoull (fun _ => true) ["--sizes"; "1,2"; "--out"]
     = Args.ParseFailed.
Proof. vm_compute. repeat split; reflexivity. Qed.

(** ** permgen.c: writing a dataset and reading it back *)

Module FileFacts.

Import File Writer.

Lemma length_encode_le w z : length (encode_le w z) = w.
Proof. revert z. induction w as [|w IH]; intros z; simpl; [done|]. rewrite IH. done. Qed.

(** What is written little-endian is read back. *)
Lemma decode_encode_le w z :
  0 <= z < 256 ^ Z.of_nat w -> decode_le (encode_le w z) = z.
Proof.
  revert z. induction w as [|w IH]; intros z Hz.
  - simpl in *. lia.
  - cbn [encode_le decode_le]. rewrite IH.
    + pose proof (Z.div_mod z 256 ltac:(lia)). lia.
    + rewrite Nat2Z.inj_succ, Z.pow_succ_r in Hz by lia.
      split; [apply Z.div_pos; lia|].
      apply Z.div_lt_upper_bound; lia.
Qed.

Lemma fread_u64_encode x rest :
  0 <= x < 2 ^ 64 -> fread_u64 (encode_le 8 x ++ rest) = (Some x, rest).
Proof.
  intros Hx. unfold fread_u64.
  rewrite length_app, length_encode_le.
  destruct (Nat.leb_spec 8 (8 + length rest)) as [_|]; [|lia].
  rewrite take_app_length', drop_app_length' by (rewrite length_encode_le; done).
  rewrite decode_encode_le; [done|]. exact Hx.
Qed.

Lemma fread_u64_short f : (length f < 8)%nat -> fread_u64 f = (None, []).
Proof.
  intros H. unfold fread_u64. destruct (Nat.leb_spec 8 (length f)); [lia|done].
Qed.

Lemma to_int32_encode x :
  - 2 ^ 31 <= x < 2 ^ 31 -> to_int32 (decode_le (encode_le 4 (x mod 2 ^ 32))) = x.
Proof.
  intros Hx.
  assert (H32 : 0 <= x mod 2 ^ 32 < 2 ^ 32) by (apply Z.mod_pos_bound; reflexivity).
  rewrite decode_encode_le by exact H32.
  unfold to_int32. rewrite Zplus_mod_idemp_l.
  rewrite Z.mod_small; [lia|].
  change (2 ^ 32) with (2 ^ 31 + 2 ^ 31). lia.
Qed.

(** The items written for an array are read back as the array. *)
Lemma fread_i32_items data rest :
  Forall (fun x => - 2 ^ 31 <= x < 2 ^ 31) data ->
  fread_i32 (length data)
    (concat (map (fun x => encode_le 4 (x mod 2 ^ 32)) data) ++ rest) = data.
Proof.
  induction 1 as [|x data Hx _ IH]; [done|].
  cbn [length map concat fread_i32].
  set (tail := concat (map _ data) ++ rest) in *.
  rewrite <- app_assoc. fold tail. rewrite length_app, length_encode_le.
  destruct (Nat.leb_spec 4 (4 + length tail)) as [_|]; [|lia].
  rewrite take_app_length', drop_app_length' by (rewrite length_encode_le; done).
  rewrite to_int32_encode by exact Hx. rewrite IH. done.
Qed.

Lemma payload_concat rows :
  payload rows = concat (map (fun x => encode_le 4 (x mod 2 ^ 32)) (concat rows)).
Proof.
  unfold payload. induction rows as [|row rows IH]; [done|].
  cbn [map concat]. rewrite IH, map_app, concat_app. done.
Qed.

Lemma payload_cons row rows :
  payload (row :: rows)
  = concat (map (fun x => encode_le 4 (x mod 2 ^ 32)) row) ++ payload rows.
Proof. reflexivity. Qed.

Lemma payload_app rows rows' : payload (rows ++ rows') = payload rows ++ payload rows'.
Proof. unfold payload. rewrite map_app, concat_app. done. Qed.

Lemma payload_snoc rows row :
  payload (rows ++ [row])
  = payload rows ++ concat (map (fun x => encode_le 4 (x mod 2 ^ 32)) row).
Proof.
  unfold payload. rewrite map_app, concat_app. simpl. rewrite app_nil_r. done.
Qed.

(** A word given to the stream. *)
Lemma fwrite_word room pushed sent x :
  fst (fwrite room pushed sent [encode_le 8 x]) = sent ++ encode_le 8 x.
Proof. unfold fwrite. cbn [fst concat]. rewrite app_nil_r. done. Qed.

(** A text that fits its buffer is not cut by [snprintf]. *)
Lemma snprintf_fits buf s : (String.length s < 1024)%nat -> snprintf buf 1024 s = s.
Proof.
  intros H. unfold snprintf. cbn [Z.eqb]. apply ValidFacts.substring_all.
  change (Z.to_nat (1024 - 1)) with 1023%nat. lia.
Qed.

Lemma length_append (a b : string) :
  String.length (a ++ b) = (String.length a + String.length b)%nat.
Proof. induction a as [|c a IH]; simpl; [done|]. rewrite IH. done. Qed.

Lemma append_inj (a b c : string) : (a ++ b = a ++ c)%string -> b = c.
Proof. induction a as [|x a IH]; simpl; [done|]. intros [= H]. apply IH, H. Qed.

Lemma paths_differ out_dir N :
  (out_dir ++ "/perm_" ++ fmt_lu N ++ ".bin")%string
  <> (out_dir ++ "/perm_" ++ fmt_lu N ++ ".meta")%string.
Proof. intros H. do 3 apply append_inj in H. discriminate H. Qed.

Lemma bin_path_fits out_dir N :
  (String.length (out_dir ++ "/perm_" ++ fmt_lu N ++ ".meta") < 1024)%nat ->
  (String.length (out_dir ++ "/perm_" ++ fmt_lu N ++ ".bin") < 1024)%nat.
Proof. rewrite !length_append. simpl. lia. Qed.

Lemma length_encoded (row : list Z) :
  length (concat (map (fun x => encode_le 4 (x mod 2 ^ 32)) row)) = (4 * length row)%nat.
Proof.
  induction row as [|x row IH]; [done|].
  cbn [map concat length]. rewrite length_app, length_encode_le, IH. lia.
Qed.

(** The write of the row of trial [t]: the bytes given to the stream, and
    the test that the call returns [N]. *)
Lemma fwrite_row room pushed sent row N t :
  1 <= N -> length row = Z.to_nat N ->
  Z.of_nat (length sent) = row_position N t ->
  fwrite room pushed sent (i32_items row N)
  = (sent ++ concat (map (fun x => encode_le 4 (x mod 2 ^ 32)) row),
     pushed (row_position N t) (row_position N (t + 1)) `min` row_position N (t + 1)
     <=? room)
  /\ Z.of_nat (length (sent ++ concat (map (fun x => encode_le 4 (x mod 2 ^ 32)) row)))
     = row_position N (t + 1).
Proof.
  intros HN Hrow Hsent.
  assert (Hlen : Z.of_nat (length (sent ++ concat (map (fun x => encode_le 4 (x mod 2 ^ 32))
                                                  row)))
                 = row_position N (t + 1)).
  { rewrite length_app, length_encoded. unfold row_position in *. lia. }
  split; [|exact Hlen].
  unfold fwrite, i32_items. rewrite take_ge by lia. rewrite Hlen, Hsent.
  destruct row as [|x row]; [simpl in Hrow; lia|]. reflexivity.
Qed.

(** One turn of the trial loop. *)
Lemma trial_step fuel todo room pushed master_seed N (t : nat) sent :
  1 <= N <= 2 ^ 31 ->
  Z.of_nat (length sent) = row_position N (Z.of_nat t) ->
  stream_accepts fuel N (rng_seed (derive_seed master_seed N (Z.of_nat t))) ->
  exists row,
    Permgen.generate_row fuel master_seed N (Z.of_nat t) = Ok row
    /\ row ≡ₚ seqZ 0 N
    /\ Z.of_nat (length (sent ++ payload [row])) = row_position N (Z.of_nat t + 1)
    /\ trial_loop fuel (S todo) room pushed master_seed N (Z.of_nat t) sent
       = if pushed (row_position N (Z.of_nat t)) (row_position N (Z.of_nat t + 1))
              `min` row_position N (Z.of_nat t + 1) <=? room
         then trial_loop fuel todo room pushed master_seed N (Z.of_nat t + 1)
                (sent ++ payload [row])
         else Ok (sent ++ payload [row], false).
Proof.
  intros HN Hsent Hacc.
  assert (H62 : 1 <= N < 2 ^ 62).
  { assert (2 ^ 31 < 2 ^ 62) by reflexivity. lia. }
  destruct (RowFacts.generate_row_total fuel master_seed N (Z.of_nat t) H62 Hacc)
    as (row & Erow).
  pose proof (PermgenFacts.generate_row_result fuel master_seed N (Z.of_nat t) H62) as Hrow.
  rewrite Erow in Hrow. rewrite PermgenFacts.identity_fits_int32 in Hrow by lia.
  assert (Hlen : length row = Z.to_nat N).
  { rewrite Hrow, length_seqZ. done. }
  destruct (fwrite_row room pushed sent row N (Z.of_nat t) ltac:(lia) Hlen Hsent)
    as (Hwrite & Hpos).
  assert (Hpay : payload [row] = concat (map (fun x => encode_le 4 (x mod 2 ^ 32)) row)).
  { unfold payload. cbn [map concat]. rewrite app_nil_r. done. }
  exists row. split; [exact Erow|]. split; [exact Hrow|]. split.
  { rewrite Hpay, Hpos. done. }
  cbn [trial_loop]. rewrite Erow. cbn [mbind outcome_bind]. rewrite Hwrite, Hpay.
  cbv iota. destruct (_ <=? room); reflexivity.
Qed.

(** The rows of the trials from [t] on, given to the stream after [sent],
    when no call of [fwrite] returns a short count. *)
Lemma trial_loop_rows fuel todo room pushed master_seed N (t : nat) sent :
  1 <= N <= 2 ^ 31 ->
  Z.of_nat (length sent) = row_position N (Z.of_nat t) ->
  (forall k : nat, (t <= k < t + todo)%nat ->
     stream_accepts fuel N (rng_seed (derive_seed master_seed N (Z.of_nat k)))) ->
  (forall k : nat, (t <= k < t + todo)%nat ->
     ~ row_write_fails room pushed N (Z.of_nat k)) ->
  exists rows,
    trial_loop fuel todo room pushed master_seed N (Z.of_nat t) sent
    = Ok (sent ++ payload rows, true)
    /\ length rows = todo
    /\ forall (i : nat) row, rows !! i = Some row ->
         Permgen.generate_row fuel master_seed N (Z.of_nat (t + i)) = Ok row
         /\ row ≡ₚ seqZ 0 N.
Proof.
  intros HN. revert t sent. induction todo as [|todo IH]; intros t sent Hsent Hacc Hok.
  { exists []. simpl. rewrite app_nil_r. split; [done|]. split; [done|].
    intros i row H. discriminate H. }
  destruct (trial_step fuel todo room pushed master_seed N t sent HN Hsent)
    as (row & Erow & Hrow & Hpos & ->).
  { apply Hacc. lia. }
  specialize (Hok t ltac:(lia)) as Hnow. unfold row_write_fails in Hnow.
  destruct (Z.leb_spec
              (pushed (row_position N (Z.of_nat t)) (row_position N (Z.of_nat t + 1))
               `min` row_position N (Z.of_nat t + 1)) room) as [_|Hfail]; [|lia].
  replace (Z.of_nat t + 1) with (Z.of_nat (S t)) in Hpos |- * by lia.
  destruct (IH (S t) (sent ++ payload [row]) Hpos) as (rows & Hrun & Hrows & Hall).
  { intros k Hk. apply Hacc. lia. }
  { intros k Hk. apply Hok. lia. }
  exists (row :: rows). split; [|split].
  - rewrite Hrun, <- app_assoc, <- payload_app. done.
  - simpl. lia.
  - intros [|i] r Hr; simpl in Hr.
    + injection Hr as <-. rewrite Nat.add_0_r. split; [exact Erow|exact Hrow].
    + replace (t + S i)%nat with (S t + i)%nat by lia. apply Hall, Hr.
Qed.

(** The loop leaves at the first call of [fwrite] that returns a short
    count, with the rows up to that one given to the stream. *)
Lemma trial_loop_fails fuel todo room pushed master_seed N (t first : nat) sent :
  1 <= N <= 2 ^ 31 ->
  Z.of_nat (length sent) = row_position N (Z.of_nat t) ->
  (t <= first < t + todo)%nat ->
  (forall k : nat, (t <= k <= first)%nat ->
     stream_accepts fuel N (rng_seed (derive_seed master_seed N (Z.of_nat k)))) ->
  (forall k : nat, (t <= k < first)%nat ->
     ~ row_write_fails room pushed N (Z.of_nat k)) ->
  row_write_fails room pushed N (Z.of_nat first) ->
  exists rows,
    trial_loop fuel todo room pushed master_seed N (Z.of_nat t) sent
    = Ok (sent ++ payload rows, false)
    /\ length rows = (first - t + 1)%nat
    /\ forall (i : nat) row, rows !! i = Some row ->
         Permgen.generate_row fuel master_seed N (Z.of_nat (t + i)) = Ok row
         /\ row ≡ₚ seqZ 0 N.
Proof.
  intros HN. revert t sent.
  induction todo as [|todo IH]; intros t sent Hsent Hfirst Hacc Hok Hfails; [lia|].
  destruct (trial_step fuel todo room pushed master_seed N t sent HN Hsent)
    as (row & Erow & Hrow & Hpos & ->).
  { apply Hacc. lia. }
  destruct (decide (t = first)) as [->|Hlater].
  - unfold row_write_fails in Hfails.
    destruct (Z.leb_spec
                (pushed (row_position N (Z.of_nat first))
                   (row_position N (Z.of_nat first + 1))
                 `min` row_position N (Z.of_nat first + 1)) room) as [Hfits|_]; [lia|].
    exists [row]. split; [done|]. split; [simpl; lia|].
    intros [|i] r Hr; simpl in Hr; [|done].
    injection Hr as <-. rewrite Nat.add_0_r. split; [exact Erow|exact Hrow].
  - specialize (Hok t ltac:(lia)) as Hnow. unfold row_write_fails in Hnow.
    destruct (Z.leb_spec
                (pushed (row_position N (Z.of_nat t)) (row_position N (Z.of_nat t + 1))
                 `min` row_position N (Z.of_nat t + 1)) room) as [_|Hfail]; [|lia].
    replace (Z.of_nat t + 1) with (Z.of_nat (S t)) in Hpos |- * by lia.
    destruct (IH (S t) (sent ++ payload [row]) Hpos) as (rows & Hrun & Hrows & Hall).
    + lia.
    + intros k Hk. apply Hacc. lia.
    + intros k Hk. apply Hok. lia.
    + exact Hfails.
    + exists (row :: rows). split; [|split].
      * rewrite Hrun, <- app_assoc, <- payload_app. done.
      * simpl. lia.
      * intros [|i] r Hr; simpl in Hr.
        -- injection Hr as <-. rewrite Nat.add_0_r. split; [exact Erow|exact Hrow].
        -- replace (t + S i)%nat with (S t + i)%nat by lia. apply Hall, Hr.
Qed.

End FileFacts.

Module RoundTrip.

Import File Writer FileFacts.

Lemma length_concat (n : nat) (rows : list (list Z)) :
  Forall (fun row => length row = n) rows ->
  length (concat rows) = (n * length rows)%nat.
Proof.
  induction 1 as [|row rows Hrow _ IH]; [simpl; lia|].
  cbn [concat length]. rewrite length_app, Hrow, IH. lia.
Qed.

(** The header as the four writes give it to the stream. *)
Lemma header_written room pushed N trials master_seed :
  fst (fwrite room pushed
         (fst (fwrite room pushed
                 (fst (fwrite room pushed
                         (fst (fwrite room pushed [] [encode_le 8 Permgen.MAGIC]))
                         [encode_le 8 N]))
                 [encode_le 8 trials]))
         [encode_le 8 master_seed])
  = header N trials master_seed.
Proof. unfold header. rewrite !fwrite_word, <- !app_assoc. done. Qed.

Lemma length_header N trials master_seed : length (header N trials master_seed) = 32%nat.
Proof. unfold header. rewrite !length_app, !length_encode_le. done. Qed.

(** The four reads of a header that is there. *)
Lemma read_header N trials master_seed rest :
  0 <= N < 2 ^ 64 -> 0 <= trials < 2 ^ 64 -> 0 <= master_seed < 2 ^ 64 ->
  fread_u64 (header N trials master_seed ++ rest)
  = (Some Permgen.MAGIC,
     encode_le 8 N ++ encode_le 8 trials ++ encode_le 8 master_seed ++ rest)
  /\ fread_u64 (encode_le 8 N ++ encode_le 8 trials ++ encode_le 8 master_seed ++ rest)
     = (Some N, encode_le 8 trials ++ encode_le 8 master_seed ++ rest)
  /\ fread_u64 (encode_le 8 trials ++ encode_le 8 master_seed ++ rest)
     = (Some trials, encode_le 8 master_seed ++ rest)
  /\ fread_u64 (encode_le 8 master_seed ++ rest) = (Some master_seed, rest).
Proof.
  intros HN Ht Hs. unfold header. rewrite <- !app_assoc.
  assert (Hmagic : 0 <= Permgen.MAGIC < 2 ^ 64)
    by (unfold Permgen.MAGIC; split; [lia|reflexivity]).
  repeat split; apply fread_u64_encode; assumption.
Qed.

(** The four loaders on a file that holds a header and [N * trials]
    numbers after it. *)
Lemma loaders_read fs malloc_ok dir N trials master_seed data :
  0 <= N < 2 ^ 64 -> 0 <= trials < 2 ^ 64 -> 0 <= master_seed < 2 ^ 64 ->
  N * trials < 2 ^ 62 ->
  Z.of_nat (length data) = N * trials ->
  Forall (fun x => - 2 ^ 31 <= x < 2 ^ 31) data ->
  fs (perm_path dir N)
  = Some (header N trials master_seed
          ++ concat (map (fun x => encode_le 4 (x mod 2 ^ 32)) data)) ->
  malloc_ok (N * trials * 4) = true ->
  Bench.load_dataset fs malloc_ok dir N
  = Loaded (Bench.mk_dataset N trials master_seed data)
  /\ Validate.load_dataset fs malloc_ok dir N = Loaded (mk_dataset N trials data)
  /\ FullBench.load_dataset fs malloc_ok dir N = Loaded (mk_dataset N trials data)
  /\ AllBaselines.load_dataset fs malloc_ok dir N = Loaded (mk_dataset N trials data).
Proof.
  intros HN Ht Hs H62 Hlen Hdata Hfile Hmalloc.
  destruct (read_header N trials master_seed
              (concat (map (fun x => encode_le 4 (x mod 2 ^ 32)) data)) HN Ht Hs)
    as (R1 & R2 & R3 & R4).
  assert (Htotal : wrap64 (trials * N) = N * trials).
  { rewrite wrap64_small; [lia|]. assert (2 ^ 62 < 2 ^ 64) by reflexivity. nia. }
  assert (Hsize : wrap64 (N * trials * 4) = N * trials * 4).
  { apply wrap64_small. change (2 ^ 64) with (2 ^ 62 * 4). nia. }
  assert (Hread : fread_i32 (Z.to_nat (N * trials))
                    (concat (map (fun x => encode_le 4 (x mod 2 ^ 32)) data)) = data).
  { rewrite <- Hlen, Nat2Z.id.
    rewrite <- (app_nil_r (concat _)). apply fread_i32_items, Hdata. }
  unfold Bench.load_dataset, Validate.load_dataset, FullBench.load_dataset,
    AllBaselines.load_dataset.
  rewrite Hfile, R1.
  change (Permgen.MAGIC =? Bench.MAGIC) with true.
  change (Permgen.MAGIC =? Validate.MAGIC) with true.
  change (Permgen.MAGIC =? FullBench.MAGIC) with true.
  change (Permgen.MAGIC =? AllBaselines.MAGIC) with true.
  cbn [negb]. rewrite R2, R3, R4. cbn [snd].
  rewrite Z.eqb_refl. cbn [negb].
  rewrite Htotal, Hsize, Hmalloc, Hread. cbn [negb].
  rewrite Hlen, Z.eqb_refl. cbn [negb]. repeat split.
Qed.

End RoundTrip.

Module RunFacts.

Import File Writer FileFacts.

(** The bytes of a dataset. *)
Lemma length_dataset N trials master_seed rows :
  0 <= N -> Forall (fun row => row ≡ₚ seqZ 0 N) rows ->
  Z.of_nat (length (header N trials master_seed ++ payload rows))
  = 32 + 4 * N * Z.of_nat (length rows).
Proof.
  intros HN Hrows.
  rewrite length_app, RoundTrip.length_header, payload_concat, length_encoded.
  rewrite (RoundTrip.length_concat (Z.to_nat N)); [nia|].
  eapply Forall_impl; [exact Hrows|].
  intros row Hrow. cbv beta in Hrow. rewrite Hrow. apply length_seqZ.
Qed.

Lemma fwrite_text room pushed items : fst (fwrite room pushed [] items) = concat items.
Proof. reflexivity. Qed.

(** The run in which no write of a row returns a short count. *)
Lemma run_unnoticed fuel malloc_ok fopen_ok room pushed time_str fs out_dir
    master_seed N trials :
  1 <= N <= 2 ^ 31 -> 0 <= trials ->
  (String.length (out_dir ++ "/perm_" ++ fmt_lu N ++ ".meta") < 1024)%nat ->
  malloc_ok (N * 4) = true ->
  fopen_ok (out_dir ++ "/perm_" ++ fmt_lu N ++ ".bin")%string = true ->
  fopen_ok (out_dir ++ "/perm_" ++ fmt_lu N ++ ".meta")%string = true ->
  (forall t, 0 <= t < trials ->
     stream_accepts fuel N (rng_seed (derive_seed master_seed N t))) ->
  (forall t, 0 <= t < trials ->
     ~ row_write_fails (room (out_dir ++ "/perm_" ++ fmt_lu N ++ ".bin")%string) (pushed (out_dir ++ "/perm_" ++ fmt_lu N ++ ".bin")%string) N t) ->
  exists rows,
    generate_permutations fuel malloc_ok fopen_ok room pushed time_str fs out_dir
      master_seed N trials
    = Ok (0,
          fs_write
            (fs_write fs (out_dir ++ "/perm_" ++ fmt_lu N ++ ".bin")%string
               (fclose (room (out_dir ++ "/perm_" ++ fmt_lu N ++ ".bin")%string) (header N trials master_seed ++ payload rows)))
            (out_dir ++ "/perm_" ++ fmt_lu N ++ ".meta")%string
            (fclose (room (out_dir ++ "/perm_" ++ fmt_lu N ++ ".meta")%string)
               (concat (text_items (meta_text N trials master_seed time_str)))))
    /\ Z.of_nat (length rows) = trials
    /\ forall (t : nat) row, rows !! t = Some row ->
         Permgen.generate_row fuel master_seed N (Z.of_nat t) = Ok row
         /\ row ≡ₚ seqZ 0 N.
Proof.
  intros HN Htrials Hfit Hmalloc Hbin Hmeta Hacc Hok.
  pose proof (bin_path_fits out_dir N Hfit) as Hfitb.
  assert (H64 : 2 ^ 31 * 4 < 2 ^ 64) by reflexivity.
  set (bin := (out_dir ++ "/perm_" ++ fmt_lu N ++ ".bin")%string) in *.
  set (meta := (out_dir ++ "/perm_" ++ fmt_lu N ++ ".meta")%string) in *.
  destruct (trial_loop_rows fuel (Z.to_nat trials) (room bin) (pushed bin) master_seed N 0
              (header N trials master_seed) HN) as (rows & Hrun & Hlen & Hrows).
  { rewrite RoundTrip.length_header. unfold row_position. simpl. lia. }
  { intros k Hk. apply Hacc. lia. }
  { intros k Hk. apply Hok. lia. }
  exists rows. split; [|split; [lia|exact Hrows]].
  unfold generate_permutations.
  rewrite wrap64_small by lia. rewrite Hmalloc. cbn [negb].
  rewrite !snprintf_fits by assumption.
  fold bin meta. rewrite Hbin. cbn [negb]. cbv zeta.
  rewrite RoundTrip.header_written.
  change (Z.of_nat 0) with 0 in Hrun. rewrite Hrun. cbn [mbind outcome_bind negb].
  rewrite Hmeta. cbn [negb]. rewrite fwrite_text. reflexivity.
Qed.

(** The run in which the write of the row of trial [first] is the first
    to return a short count. *)
Lemma run_noticed fuel malloc_ok fopen_ok room pushed time_str fs out_dir
    master_seed N trials first :
  1 <= N <= 2 ^ 31 -> 0 <= first < trials ->
  (String.length (out_dir ++ "/perm_" ++ fmt_lu N ++ ".meta") < 1024)%nat ->
  malloc_ok (N * 4) = true ->
  fopen_ok (out_dir ++ "/perm_" ++ fmt_lu N ++ ".bin")%string = true ->
  (forall t, 0 <= t <= first ->
     stream_accepts fuel N (rng_seed (derive_seed master_seed N t))) ->
  (forall t, 0 <= t < first ->
     ~ row_write_fails (room (out_dir ++ "/perm_" ++ fmt_lu N ++ ".bin")%string) (pushed (out_dir ++ "/perm_" ++ fmt_lu N ++ ".bin")%string) N t) ->
  row_write_fails (room (out_dir ++ "/perm_" ++ fmt_lu N ++ ".bin")%string) (pushed (out_dir ++ "/perm_" ++ fmt_lu N ++ ".bin")%string) N first ->
  exists rows,
    generate_permutations fuel malloc_ok fopen_ok room pushed time_str fs out_dir
      master_seed N trials
    = Ok (-1,
          fs_write fs (out_dir ++ "/perm_" ++ fmt_lu N ++ ".bin")%string
            (fclose (room (out_dir ++ "/perm_" ++ fmt_lu N ++ ".bin")%string) (header N trials master_seed ++ payload rows)))
    /\ Z.of_nat (length rows) = first + 1
    /\ forall (t : nat) row, rows !! t = Some row ->
         Permgen.generate_row fuel master_seed N (Z.of_nat t) = Ok row
         /\ row ≡ₚ seqZ 0 N.
Proof.
  intros HN Hfirst Hfit Hmalloc Hbin Hacc Hok Hfails.
  pose proof (bin_path_fits out_dir N Hfit) as Hfitb.
  assert (H64 : 2 ^ 31 * 4 < 2 ^ 64) by reflexivity.
  set (bin := (out_dir ++ "/perm_" ++ fmt_lu N ++ ".bin")%string) in *.
  destruct (trial_loop_fails fuel (Z.to_nat trials) (room bin) (pushed bin) master_seed N
              0 (Z.to_nat first) (header N trials master_seed) HN)
    as (rows & Hrun & Hlen & Hrows).
  { rewrite RoundTrip.length_header. unfold row_position. simpl. lia. }
  { lia. }
  { intros k Hk. apply Hacc. lia. }
  { intros k Hk. apply Hok. lia. }
  { rewrite Z2Nat.id by lia. exact Hfails. }
  exists rows. split; [|split; [lia|exact Hrows]].
  unfold generate_permutations.
  rewrite wrap64_small by lia. rewrite Hmalloc. cbn [negb].
  rewrite !snprintf_fits by assumption.
  fold bin. rewrite Hbin. cbn [negb]. cbv zeta.
  rewrite RoundTrip.header_written.
  change (Z.of_nat 0) with 0 in Hrun. rewrite Hrun. cbn [mbind outcome_bind negb].
  reflexivity.
Qed.

End RunFacts.

(** X18. A dataset written whole is read back by the four loaders. For a size
    from 1 to 2^31 and a number of trials with fewer than 2^62 numbers in
    all, when the row block is allocated, the two files open, the path
    fits its buffer, the device takes the 32 bytes of the header and the 4
    bytes of every number, and the generator of each trial accepts within
    the fuel, [generate_permutations] returns 0, whenever the library puts
    the bytes on the device, and leaves, under the path the loaders open,
    the header followed by the rows of the trials in order; each row is
    the one of its trial and a permutation of 0 .. N-1; the files of other
    paths are left as they were; and each loader that gets its block gives
    back the size, the number of trials and the numbers of the rows. *)
Theorem generate_permutations_round_trip (fuel : nat) (malloc_ok : Z -> bool)
    (fopen_ok : string -> bool) (room : string -> Z) (pushed : string -> Z -> Z -> Z)
    (time_str : string) (fs : file_system) (out_dir : string)
    (master_seed N trials : Z) :
  1 <= N <= 2 ^ 31 -> 0 <= trials -> N * trials < 2 ^ 62 ->
  0 <= master_seed < 2 ^ 64 ->
  (String.length (out_dir ++ "/perm_" ++ fmt_lu N ++ ".meta") < 1024)%nat ->
  malloc_ok (N * 4) = true ->
  fopen_ok (out_dir ++ "/perm_" ++ fmt_lu N ++ ".bin")%string = true ->
  fopen_ok (out_dir ++ "/perm_" ++ fmt_lu N ++ ".meta")%string = true ->
  32 + 4 * N * trials <= room (out_dir ++ "/perm_" ++ fmt_lu N ++ ".bin")%string ->
  (forall t, 0 <= t < trials ->
     stream_accepts fuel N (rng_seed (derive_seed master_seed N t))) ->
  exists rows fs',
    generate_permutations fuel malloc_ok fopen_ok room pushed time_str fs out_dir
      master_seed N trials = Ok (0, fs')
    /\ fs' (File.perm_path out_dir N)
       = Some (File.header N trials master_seed ++ File.payload rows)
    /\ Z.of_nat (length rows) = trials
    /\ (forall (t : nat) row, rows !! t = Some row ->
          Permgen.generate_row fuel master_seed N (Z.of_nat t) = Ok row
          /\ row ≡ₚ seqZ 0 N)
    /\ (forall path,
          path <> (out_dir ++ "/perm_" ++ fmt_lu N ++ ".bin")%string ->
          path <> (out_dir ++ "/perm_" ++ fmt_lu N ++ ".meta")%string ->
          fs' path = fs path)
    /\ forall malloc_ok' : Z -> bool,
         malloc_ok' (N * trials * 4) = true ->
         Bench.load_dataset fs' malloc_ok' out_dir N
         = Loaded (Bench.mk_dataset N trials master_seed (concat rows))
         /\ Validate.load_dataset fs' malloc_ok' out_dir N
            = Loaded (mk_dataset N trials (concat rows))
         /\ FullBench.load_dataset fs' malloc_ok' out_dir N
            = Loaded (mk_dataset N trials (concat rows))
         /\ AllBaselines.load_dataset fs' malloc_ok' out_dir N
            = Loaded (mk_dataset N trials (concat rows)).
Proof.
  intros HN Htrials H62 Hseed Hfit Hmalloc Hbin Hmeta Hroom Hacc.
  pose proof (FileFacts.bin_path_fits out_dir N Hfit) as Hfitb.
  assert (Ht64 : trials < 2 ^ 64).
  { assert (2 ^ 62 < 2 ^ 64) by reflexivity. nia. }
  destruct (RunFacts.run_unnoticed fuel malloc_ok fopen_ok room pushed time_str fs out_dir
              master_seed N trials HN Htrials Hfit Hmalloc Hbin Hmeta Hacc)
    as (rows & Hrun & Hlen & Hrows).
  { intros t Ht. unfold row_write_fails, row_position.
    assert (4 * N * (t + 1) <= 4 * N * trials) by nia. lia. }
  set (bin := (out_dir ++ "/perm_" ++ fmt_lu N ++ ".bin")%string) in *.
  set (meta := (out_dir ++ "/perm_" ++ fmt_lu N ++ ".meta")%string) in *.
  assert (Hall : Forall (fun row => row ≡ₚ seqZ 0 N) rows).
  { apply Forall_lookup. intros t row Hrow. apply (Hrows t row Hrow). }
  assert (Hwhole : Writer.fclose (room bin)
                     (File.header N trials master_seed ++ File.payload rows)
                   = File.header N trials master_seed ++ File.payload rows).
  { unfold Writer.fclose. apply take_ge.
    pose proof (RunFacts.length_dataset N trials master_seed rows ltac:(lia) Hall). lia. }
  rewrite Hwhole in Hrun.
  eexists rows, _. split; [exact Hrun|]. split; [|split; [|split; [|split]]].
  - unfold File.perm_path. rewrite FileFacts.snprintf_fits by assumption. fold bin.
    unfold Writer.fs_write.
    destruct (String.eqb_spec bin meta) as [E|_];
      [exfalso; exact (FileFacts.paths_differ out_dir N E)|].
    rewrite String.eqb_refl. reflexivity.
  - exact Hlen.
  - exact Hrows.
  - intros path Hb Hm. unfold Writer.fs_write.
    destruct (String.eqb_spec path meta); [done|].
    destruct (String.eqb_spec path bin); [done|]. reflexivity.
  - intros malloc_ok' Hmalloc'.
    apply RoundTrip.loaders_read; try lia.
    + rewrite (RoundTrip.length_concat (Z.to_nat N)); [nia|].
      eapply Forall_impl; [exact Hall|].
      intros row Hrow. cbv beta in Hrow. rewrite Hrow. apply length_seqZ.
    + apply Forall_concat. eapply Forall_impl; [exact Hall|].
      intros row Hrow. cbv beta in Hrow. rewrite Hrow.
      apply Forall_forall. intros x Hx. apply elem_of_seqZ in Hx. lia.
    + unfold File.perm_path. rewrite FileFacts.snprintf_fits by assumption. fold bin.
      unfold Writer.fs_write.
      destruct (String.eqb_spec bin meta) as [E|_];
        [exfalso; exact (FileFacts.paths_differ out_dir N E)|].
      rewrite String.eqb_refl. rewrite FileFacts.payload_concat. reflexivity.
    + exact Hmalloc'.
Qed.

Lemma generate_permutations_round_trip_witness :
  exists rows fs',
    generate_permutations 2 (fun _ => true) (fun _ => true) (fun _ => 64)
      (fun _ p0 p1 => p1 / 4096 * 4096) "2026" (fun _ => None) "perms" 42 4 2
    = Ok (0, fs')
    /\ fs' (File.perm_path "perms" 4) = Some (File.header 4 2 42 ++ File.payload rows)
    /\ Z.of_nat (length rows) = 2
    /\ (forall (t : nat) row, rows !! t = Some row ->
          Permgen.generate_row 2 42 4 (Z.of_nat t) = Ok row /\ row ≡ₚ seqZ 0 4)
    /\ (forall path,
          path <> ("perms" ++ "/perm_" ++ fmt_lu 4 ++ ".bin")%string ->
          path <> ("perms" ++ "/perm_" ++ fmt_lu 4 ++ ".meta")%string ->
          fs' path = None)
    /\ forall malloc_ok' : Z -> bool,
         malloc_ok' (4 * 2 * 4) = true ->
         Bench.load_dataset fs' malloc_ok' "perms" 4
         = Loaded (Bench.mk_dataset 4 2 42 (concat rows))
         /\ Validate.load_dataset fs' malloc_ok' "perms" 4
            = Loaded (mk_dataset 4 2 (concat rows))
         /\ FullBench.load_dataset fs' malloc_ok' "perms" 4
            = Loaded (mk_dataset 4 2 (concat rows))
         /\ AllBaselines.load_dataset fs' malloc_ok' "perms" 4
            = Loaded (mk_dataset 4 2 (concat rows)).
Proof.
  assert (HN : 1 <= 4 <= 2 ^ 31) by (split; [lia|discriminate]).
  assert (Ht : 0 <= 2) by lia.
  assert (H62 : 4 * 2 < 2 ^ 62) by reflexivity.
  assert (Hs : 0 <= 42 < 2 ^ 64) by (split; [lia|reflexivity]).
  assert (Hfit : (String.length ("perms" ++ "/perm_" ++ fmt_lu 4 ++ ".meta") < 1024)%nat)
    by (apply Nat.ltb_lt; vm_compute; reflexivity).
  assert (Hroom : 32 + 4 * 4 * 2 <= 64) by lia.
  assert (Hacc : forall t, 0 <= t < 2 ->
            stream_accepts 2 4 (rng_seed (derive_seed 42 4 t))).
  { intros t H. assert (E : t = 0 \/ t = 1) by lia.
    destruct E as [-> | ->]; apply StreamFacts.stream_acceptsb_correct;
      vm_compute; reflexivity. }
  exact (generate_permutations_round_trip 2 (fun _ => true) (fun _ => true)
           (fun _ => 64) (fun _ p0 p1 => p1 / 4096 * 4096) "2026" (fun _ => None)
           "perms" 42 4 2 HN Ht H62 Hs Hfit eq_refl eq_refl eq_refl Hroom Hacc).
Defined.

Module ShortDevice.

Import File Writer FileFacts.

(** [fread] gives as many numbers as the stream holds whole. *)
Lemma length_fread_i32 total f :
  length (fread_i32 total f) = (total `min` (length f / 4))%nat.
Proof.
  revert f. induction total as [|total IH]; intros f; [done|].
  cbn [fread_i32].
  destruct (Nat.leb_spec 4 (length f)) as [Hle|Hlt].
  - cbn [length]. rewrite IH, length_drop.
    replace (length f) with (4 + (length f - 4))%nat at 2 by lia.
    replace (4 + (length f - 4))%nat with ((length f - 4) + 1 * 4)%nat by lia.
    rewrite Nat.div_add by lia. lia.
  - rewrite Nat.div_small by lia. simpl. lia.
Qed.

(** A word is read from eight bytes and leaves eight bytes fewer. *)
Lemma fread_u64_length f x rest :
  fread_u64 f = (Some x, rest) -> length f = (8 + length rest)%nat.
Proof.
  unfold fread_u64. destruct (Nat.leb_spec 8 (length f)); [|done].
  intros [= _ <-]. rewrite length_drop. lia.
Qed.

(** [load_dataset] of [bench.c] fails on a file shorter than a header. *)
Lemma bench_short_header fs malloc_ok dir N f :
  fs (perm_path dir N) = Some f -> (length f < 32)%nat ->
  Bench.load_dataset fs malloc_ok dir N = LoadFailed.
Proof.
  intros Hf Hlen. unfold Bench.load_dataset. rewrite Hf.
  destruct (fread_u64 f) as [[magic|] f1] eqn:E1; [|done].
  destruct (negb _); [done|].
  destruct (fread_u64 f1) as [[stored|] f2] eqn:E2; [|done].
  destruct (fread_u64 f2) as [[trials|] f3] eqn:E3; [|done].
  destruct (fread_u64 f3) as [[seed|] f4] eqn:E4; [|done].
  apply fread_u64_length in E1, E2, E3, E4. lia.
Qed.

(** The loaders on a file whose header is whole and whose numbers are
    fewer than the header tells. *)
Lemma loaders_short_payload fs malloc_ok dir N trials master_seed bytes :
  0 <= N < 2 ^ 64 -> 0 <= trials < 2 ^ 64 -> 0 <= master_seed < 2 ^ 64 ->
  N * trials < 2 ^ 62 ->
  Z.of_nat (length bytes) < 4 * N * trials ->
  fs (perm_path dir N) = Some (header N trials master_seed ++ bytes) ->
  Bench.load_dataset fs malloc_ok dir N = LoadFailed
  /\ (malloc_ok (N * trials * 4) = true ->
      let data := fread_i32 (Z.to_nat (N * trials)) bytes in
      (length data = length bytes / 4)%nat
      /\ Validate.load_dataset fs malloc_ok dir N = Loaded (mk_dataset N trials data)
      /\ FullBench.load_dataset fs malloc_ok dir N = Loaded (mk_dataset N trials data)
      /\ AllBaselines.load_dataset fs malloc_ok dir N = Loaded (mk_dataset N trials data)).
Proof.
  intros HN Ht Hs H62 Hlen Hfile.
  destruct (RoundTrip.read_header N trials master_seed bytes HN Ht Hs)
    as (R1 & R2 & R3 & R4).
  assert (Htotal : wrap64 (trials * N) = N * trials).
  { rewrite wrap64_small; [lia|]. assert (2 ^ 62 < 2 ^ 64) by reflexivity. nia. }
  assert (Hsize : wrap64 (N * trials * 4) = N * trials * 4).
  { apply wrap64_small. change (2 ^ 64) with (2 ^ 62 * 4). nia. }
  assert (Hdata : (length (fread_i32 (Z.to_nat (N * trials)) bytes)
                   = length bytes / 4)%nat).
  { rewrite length_fread_i32. apply Nat.min_r.
    apply Nat.Div0.div_le_upper_bound. lia. }
  assert (Hfew : Z.of_nat (length bytes / 4) < N * trials).
  { pose proof (Nat.Div0.mul_div_le (length bytes) 4). lia. }
  unfold Bench.load_dataset, Validate.load_dataset, FullBench.load_dataset,
    AllBaselines.load_dataset.
  rewrite Hfile, R1.
  change (Permgen.MAGIC =? Bench.MAGIC) with true.
  change (Permgen.MAGIC =? Validate.MAGIC) with true.
  change (Permgen.MAGIC =? FullBench.MAGIC) with true.
  change (Permgen.MAGIC =? AllBaselines.MAGIC) with true.
  cbn [negb]. rewrite R2, R3, R4. cbn [snd].
  rewrite Z.eqb_refl. cbn [negb]. rewrite Htotal, Hsize. split.
  - destruct (malloc_ok _); [|done]. cbn [negb]. rewrite Hdata.
    destruct (Z.eqb_spec (Z.of_nat (length bytes / 4)) (N * trials)); [lia|done].
  - intros Hmalloc. rewrite Hmalloc. cbn [negb]. repeat split. exact Hdata.
Qed.


(** The loaders that do not look at what [fread] returns, on a header cut
    within its first three words. *)
Lemma loaders_cut_header fs malloc_ok dir N trials master_seed (k : nat) :
  0 <= N < 2 ^ 64 -> 0 <= trials < 2 ^ 64 ->
  (k < 24)%nat ->
  fs (perm_path dir N) = Some (take k (header N trials master_seed)) ->
  Validate.load_dataset fs malloc_ok dir N = LoadUndefined
  /\ FullBench.load_dataset fs malloc_ok dir N = LoadUndefined
  /\ AllBaselines.load_dataset fs malloc_ok dir N = LoadUndefined.
Proof.
  intros HN Ht Hk Hfile.
  assert (Hmagic : 0 <= Permgen.MAGIC < 2 ^ 64)
    by (unfold Permgen.MAGIC; split; [lia|reflexivity]).
  unfold Validate.load_dataset, FullBench.load_dataset, AllBaselines.load_dataset.
  rewrite Hfile. unfold header.
  destruct (decide (k < 8)%nat) as [H8|H8].
  { rewrite fread_u64_short by (rewrite length_take; lia). done. }
  rewrite take_app, (take_ge (encode_le 8 Permgen.MAGIC))
    by (rewrite length_encode_le; lia).
  rewrite length_encode_le, (fread_u64_encode _ _ Hmagic).
  change (Permgen.MAGIC =? Validate.MAGIC) with true.
  change (Permgen.MAGIC =? FullBench.MAGIC) with true.
  change (Permgen.MAGIC =? AllBaselines.MAGIC) with true.
  cbn [negb].
  destruct (decide (k - 8 < 8)%nat) as [H16|H16].
  { rewrite fread_u64_short by (rewrite length_take; lia). done. }
  rewrite take_app, (take_ge (encode_le 8 N)) by (rewrite length_encode_le; lia).
  rewrite length_encode_le, (fread_u64_encode _ _ HN).
  rewrite fread_u64_short by (rewrite length_take; lia). done.
Qed.

End ShortDevice.



(** A library that does not buffer, on the same device: the write of the
    second row returns a short count, the call returns -1 and there is no
    metadata file. *)
Example generate_permutations_unbuffered_run :
  exists rows fs',
    generate_permutations 2 (fun _ => true) (fun _ => true) (fun _ => 50)
      (fun _ _ p1 => p1) "2026" (fun _ => None) "perms" 42 4 2 = Ok (-1, fs')
    /\ fs' "perms/perm_4.bin"%string
       = Some (take 50 (File.header 4 2 42 ++ File.payload rows))
    /\ length rows = 2%nat
    /\ fs' "perms/perm_4.meta"%string = None.
Proof.
  assert (HN : 1 <= 4 <= 2 ^ 31) by (split; [lia|discriminate]).
  assert (Hfit : (String.length ("perms" ++ "/perm_" ++ fmt_lu 4 ++ ".meta") < 1024)%nat)
    by (apply Nat.ltb_lt; vm_compute; reflexivity).
  destruct (RunFacts.run_noticed 2 (fun _ => true) (fun _ => true) (fun _ => 50)
              (fun _ _ p1 => p1) "2026" (fun _ => None) "perms" 42 4 2 1 HN
              ltac:(lia) Hfit eq_refl eq_refl) as (rows & Hrun & Hlen & _).
  - intros t H. assert (E : t = 0 \/ t = 1) by lia.
    destruct E as [-> | ->]; apply StreamFacts.stream_acceptsb_correct;
      vm_compute; reflexivity.
  - intros t H. assert (t = 0) as -> by lia. vm_compute. discriminate.
  - vm_compute. reflexivity.
  - eexists rows, _. split; [exact Hrun|]. split; [reflexivity|]. split; [lia|].
    reflexivity.
Qed.

(** X20. With no trials, which is what a run without [--trials] asks for,
    nothing tells [generate_permutations] that the device is full: it
    returns 0 whatever the device takes, and leaves the part of the header
    that the device took. On less than a whole header the loader of
    [bench.c] fails; on less than its first three words the loaders of
    [validate.c], [full_bench.c] and [all_baselines_bench.c] use a value
    that was never read. *)
Theorem generate_permutations_no_trials (fuel : nat) (malloc_ok : Z -> bool)
    (fopen_ok : string -> bool) (room : string -> Z) (pushed : string -> Z -> Z -> Z)
    (time_str : string) (fs : file_system) (out_dir : string) (master_seed N : Z) :
  0 <= N < 2 ^ 64 ->
  (String.length (out_dir ++ "/perm_" ++ fmt_lu N ++ ".meta") < 1024)%nat ->
  malloc_ok (wrap64 (N * 4)) = true ->
  fopen_ok (out_dir ++ "/perm_" ++ fmt_lu N ++ ".bin")%string = true ->
  fopen_ok (out_dir ++ "/perm_" ++ fmt_lu N ++ ".meta")%string = true ->
  exists fs',
    generate_permutations fuel malloc_ok fopen_ok room pushed time_str fs out_dir
      master_seed N 0 = Ok (0, fs')
    /\ fs' (File.perm_path out_dir N)
       = Some (take (Z.to_nat (room (out_dir ++ "/perm_" ++ fmt_lu N ++ ".bin")%string))
                 (File.header N 0 master_seed))
    /\ (room (out_dir ++ "/perm_" ++ fmt_lu N ++ ".bin")%string < 32 ->
        forall malloc_ok' : Z -> bool,
          Bench.load_dataset fs' malloc_ok' out_dir N = LoadFailed)
    /\ (room (out_dir ++ "/perm_" ++ fmt_lu N ++ ".bin")%string < 24 ->
        forall malloc_ok' : Z -> bool,
          Validate.load_dataset fs' malloc_ok' out_dir N = LoadUndefined
          /\ FullBench.load_dataset fs' malloc_ok' out_dir N = LoadUndefined
          /\ AllBaselines.load_dataset fs' malloc_ok' out_dir N = LoadUndefined).
Proof.
  intros HN Hfit Hmalloc Hbin Hmeta.
  pose proof (FileFacts.bin_path_fits out_dir N Hfit) as Hfitb.
  set (bin := (out_dir ++ "/perm_" ++ fmt_lu N ++ ".bin")%string) in *.
  set (meta := (out_dir ++ "/perm_" ++ fmt_lu N ++ ".meta")%string) in *.
  assert (Hpath : File.perm_path out_dir N = bin).
  { unfold File.perm_path. rewrite FileFacts.snprintf_fits by assumption. done. }
  assert (Hfile : forall text,
            Writer.fs_write
              (Writer.fs_write fs bin
                 (take (Z.to_nat (room bin)) (File.header N 0 master_seed)))
              meta text (File.perm_path out_dir N)
            = Some (take (Z.to_nat (room bin)) (File.header N 0 master_seed))).
  { intros text. rewrite Hpath. unfold Writer.fs_write.
    destruct (String.eqb_spec bin meta) as [E|_];
      [exfalso; exact (FileFacts.paths_differ out_dir N E)|].
    rewrite String.eqb_refl. reflexivity. }
  eexists. split; [|split; [|split]].
  - unfold generate_permutations. rewrite Hmalloc. cbn [negb].
    rewrite !FileFacts.snprintf_fits by assumption.
    fold bin meta. rewrite Hbin. cbn [negb]. cbv zeta.
    rewrite RoundTrip.header_written.
    cbn [Z.to_nat Writer.trial_loop mbind outcome_bind negb].
    rewrite Hmeta. cbn [negb]. reflexivity.
  - apply Hfile.
  - intros Hroom malloc_ok'.
    apply (ShortDevice.bench_short_header _ _ _ _ _ (Hfile _)).
    rewrite length_take. lia.
  - intros Hroom malloc_ok'.
    apply (ShortDevice.loaders_cut_header _ _ _ _ 0 master_seed
             (Z.to_nat (room bin))); try lia.
    apply Hfile.
Qed.

Lemma generate_permutations_no_trials_witness :
  exists fs',
    generate_permutations 0 (fun _ => true) (fun _ => true) (fun _ => 20)
      (fun _ p0 p1 => p1) "2026" (fun _ => None) "perms" 42 1000 0 = Ok (0, fs')
    /\ fs' (File.perm_path "perms" 1000)
       = Some (take (Z.to_nat 20) (File.header 1000 0 42))
    /\ (20 < 32 ->
        forall malloc_ok' : Z -> bool,
          Bench.load_dataset fs' malloc_ok' "perms" 1000 = LoadFailed)
    /\ (20 < 24 ->
        forall malloc_ok' : Z -> bool,
          Validate.load_dataset fs' malloc_ok' "perms" 1000 = LoadUndefined
          /\ FullBench.load_dataset fs' malloc_ok' "perms" 1000 = LoadUndefined
          /\ AllBaselines.load_dataset fs' malloc_ok' "perms" 1000 = LoadUndefined).
Proof.
  assert (HN : 0 <= 1000 < 2 ^ 64) by (split; [lia|reflexivity]).
  assert (Hfit : (String.length ("perms" ++ "/perm_" ++ fmt_lu 1000 ++ ".meta") < 1024)%nat)
    by (apply Nat.ltb_lt; vm_compute; reflexivity).
  exact (generate_permutations_no_trials 0 (fun _ => true) (fun _ => true)
           (fun _ => 20) (fun _ p0 p1 => p1) "2026" (fun _ => None) "perms" 42 1000
           HN Hfit eq_refl eq_refl eq_refl).
Defined.

(** X21. A file whose header is whole and whose numbers are fewer than the
    [N * trials] it tells is refused by the loader of [bench.c] only: the
    loaders of [validate.c], [full_bench.c] and [all_baselines_bench.c]
    return a dataset with the [N] and the trials of the header and with
    the numbers that were there, one for every four bytes, so fewer than
    [N * trials]. *)
Theorem load_dataset_short_file (fs : file_system) (malloc_ok : Z -> bool)
    (dir : string) (N trials master_seed : Z) (bytes : list Z) :
  0 <= N < 2 ^ 64 -> 0 <= trials < 2 ^ 64 -> 0 <= master_seed < 2 ^ 64 ->
  N * trials < 2 ^ 62 ->
  Z.of_nat (length bytes) < 4 * N * trials ->
  fs (File.perm_path dir N) = Some (File.header N trials master_seed ++ bytes) ->
  malloc_ok (N * trials * 4) = true ->
  exists data,
    Z.of_nat (length data) < N * trials
    /\ (length data = length bytes / 4)%nat
    /\ Bench.load_dataset fs malloc_ok dir N = LoadFailed
    /\ Validate.load_dataset fs malloc_ok dir N = Loaded (mk_dataset N trials data)
    /\ FullBench.load_dataset fs malloc_ok dir N = Loaded (mk_dataset N trials data)
    /\ AllBaselines.load_dataset fs malloc_ok dir N = Loaded (mk_dataset N trials data).
Proof.
  intros HN Ht Hs H62 Hlen Hfile Hmalloc.
  destruct (ShortDevice.loaders_short_payload fs malloc_ok dir N trials master_seed bytes
              HN Ht Hs H62 Hlen Hfile) as (Hbench & Hrest).
  destruct (Hrest Hmalloc) as (Hdata & Hv & Hf & Ha).
  eexists. split; [|split; [exact Hdata|]].
  - rewrite Hdata. pose proof (Nat.Div0.mul_div_le (length bytes) 4). lia.
  - split; [exact Hbench|]. split; [exact Hv|]. split; [exact Hf|exact Ha].
Qed.

Lemma load_dataset_short_file_witness :
  exists data,
    Z.of_nat (length data) < 2 * 3
    /\ length data = Nat.div (length (File.payload [[1; 0]; [0; 1]; [1]])) 4
    /\ Bench.load_dataset
         (fun _ => Some (File.header 2 3 7 ++ File.payload [[1; 0]; [0; 1]; [1]]))
         (fun _ => true) "perms" 2 = LoadFailed
    /\ Validate.load_dataset
         (fun _ => Some (File.header 2 3 7 ++ File.payload [[1; 0]; [0; 1]; [1]]))
         (fun _ => true) "perms" 2 = Loaded (mk_dataset 2 3 data)
    /\ FullBench.load_dataset
         (fun _ => Some (File.header 2 3 7 ++ File.payload [[1; 0]; [0; 1]; [1]]))
         (fun _ => true) "perms" 2 = Loaded (mk_dataset 2 3 data)
    /\ AllBaselines.load_dataset
         (fun _ => Some (File.header 2 3 7 ++ File.payload [[1; 0]; [0; 1]; [1]]))
         (fun _ => true) "perms" 2 = Loaded (mk_dataset 2 3 data).
Proof.
  assert (HN : 0 <= 2 < 2 ^ 64) by (split; [lia|reflexivity]).
  assert (Ht : 0 <= 3 < 2 ^ 64) by (split; [lia|reflexivity]).
  assert (Hs : 0 <= 7 < 2 ^ 64) by (split; [lia|reflexivity]).
  assert (H62 : 2 * 3 < 2 ^ 62) by reflexivity.
  assert (Hlen : Z.of_nat (length (File.payload [[1; 0]; [0; 1]; [1]])) < 4 * 2 * 3)
    by (vm_compute; reflexivity).
  exact (load_dataset_short_file
           (fun _ => Some (File.header 2 3 7 ++ File.payload [[1; 0]; [0; 1]; [1]]))
           (fun _ => true) "perms" 2 3 7 (File.payload [[1; 0]; [0; 1]; [1]])
           HN Ht Hs H62 Hlen eq_refl eq_refl).
Defined.

(** ** evaluate and benchmark *)

Module OmpFacts.

Import Omp.

Lemma wrap64_add_r a b : wrap64 (a + wrap64 b) = wrap64 (a + b).
Proof. unfold wrap64. apply Zplus_mod_idemp_r. Qed.

(** A thread adds the sum of its counts, modulo 2^64. *)
Lemma thread_total_sum body iterations total :
  thread_total body iterations (wrap64 total)
  = s ← sum_counts_of body iterations; Some (wrap64 (total + s)).
Proof.
  revert total. induction iterations as [|t iterations IH]; intros total.
  { simpl. rewrite Z.add_0_r. done. }
  cbn [thread_total sum_counts_of].
  destruct (body t) as [count|]; [|done]. cbn [mbind option_bind].
  rewrite wrap64_add_l, IH.
  destruct (sum_counts_of body iterations) as [rest|]; [|done]. cbn [mbind option_bind].
  rewrite Z.add_assoc. done.
Qed.

(** The reduction adds the sum of the counts of every thread. *)
Lemma reduction_sum body schedule total :
  reduction body schedule (wrap64 total)
  = s ← sum_counts_of body (concat schedule); Some (wrap64 (total + s)).
Proof.
  revert total. induction schedule as [|iterations schedule IH]; intros total.
  { simpl. rewrite Z.add_0_r. done. }
  cbn [reduction concat].
  change 0 with (wrap64 0) at 1. rewrite thread_total_sum.
  assert (Happ : forall l1 l2,
            sum_counts_of body (l1 ++ l2)
            = a ← sum_counts_of body l1; b ← sum_counts_of body l2; Some (a + b)).
  { clear. induction l1 as [|t l1 IH1]; intros l2.
    - cbn [app sum_counts_of mbind option_bind]. destruct (sum_counts_of body l2); done.
    - cbn [app sum_counts_of]. destruct (body t) as [c|]; [|done].
      cbn [mbind option_bind]. rewrite IH1.
      destruct (sum_counts_of body l1) as [a|]; [|done]. cbn [mbind option_bind].
      destruct (sum_counts_of body l2) as [b|]; [|done]. cbn [mbind option_bind].
      rewrite Z.add_assoc. done. }
  rewrite Happ.
  destruct (sum_counts_of body iterations) as [a|]; [|done]. cbn [mbind option_bind].
  rewrite wrap64_add_r, IH.
  destruct (sum_counts_of body (concat schedule)) as [b|]; cbn [mbind option_bind];
    [|done].
  rewrite Z.add_0_l, <- (Z.add_assoc (wrap64 total)), wrap64_add_l. done.
Qed.

(** The sum of the counts does not depend on the order. *)
Lemma sum_counts_of_perm body l1 l2 :
  l1 ≡ₚ l2 -> sum_counts_of body l1 = sum_counts_of body l2.
Proof.
  induction 1 as [|x l1 l2 _ IH|x y l|l1 l2 l3 _ IH1 _ IH2].
  - done.
  - cbn [sum_counts_of]. rewrite IH. done.
  - cbn [sum_counts_of].
    destruct (body x) as [a|], (body y) as [b|]; try done. cbn [mbind option_bind].
    destruct (sum_counts_of body l) as [c|]; [|done]. cbn [mbind option_bind].
    f_equal. lia.
  - congruence.
Qed.

(** The shared total starts at 0. *)
Lemma reduction_total body schedule :
  reduction body schedule 0
  = s ← sum_counts_of body (concat schedule); Some (wrap64 s).
Proof. change 0 with (wrap64 0) at 1. apply reduction_sum. Qed.

Lemma reduction_perm body schedule1 schedule2 :
  concat schedule1 ≡ₚ concat schedule2 ->
  reduction body schedule1 0 = reduction body schedule2 0.
Proof.
  intros Hperm. change 0 with (wrap64 0).
  rewrite !reduction_sum, (sum_counts_of_perm body _ _ Hperm). done.
Qed.

End OmpFacts.

(** X22. The means of [evaluate] and [benchmark] do not depend on the threads.
    Under every schedule that runs each trial once, whatever the number of
    threads, the way the trials are dealt to them and the order in which
    their totals are added, the two functions give what the loop without
    threads gives: the total is the sum of the counts of the trials modulo
    2^64, divided by the number of trials. With no trials the value is
    NaN. *)
Theorem evaluate_schedule_independent (ds : perm_dataset_t) (seq : gap_sequence_t)
    (malloc_ok : Z -> bool) (schedule : list (list Z)) :
  concat schedule ≡ₚ seqZ 0 (ds_trials ds) ->
  evaluate ds seq malloc_ok schedule
  = evaluate ds seq malloc_ok (Omp.sequential (ds_trials ds))
  /\ benchmark ds seq malloc_ok schedule
     = benchmark ds seq malloc_ok (Omp.sequential (ds_trials ds))
  /\ evaluate ds seq malloc_ok schedule
     = (s ← sum_counts_of (Evaluate.evaluate_trial ds seq malloc_ok)
              (seqZ 0 (ds_trials ds));
        Some (Double.of_Z (wrap64 s) / Double.of_Z (ds_trials ds))%float)
  /\ (ds_trials ds = 0 ->
      exists mean, evaluate ds seq malloc_ok schedule = Some mean
                   /\ benchmark ds seq malloc_ok schedule = Some mean
                   /\ PrimFloat.is_nan mean = true).
Proof.
  intros Hperm.
  assert (Hseq : concat schedule ≡ₚ concat (Omp.sequential (ds_trials ds))).
  { unfold Omp.sequential. simpl. rewrite app_nil_r. exact Hperm. }
  split; [|split; [|split]].
  - unfold evaluate. rewrite (OmpFacts.reduction_perm _ _ _ Hseq). done.
  - unfold benchmark. rewrite (OmpFacts.reduction_perm _ _ _ Hseq). done.
  - unfold evaluate.
    rewrite OmpFacts.reduction_total, (OmpFacts.sum_counts_of_perm _ _ _ Hperm).
    destruct (sum_counts_of _ _) as [s|]; done.
  - intros Hzero. unfold evaluate, benchmark.
    rewrite !OmpFacts.reduction_total, !(OmpFacts.sum_counts_of_perm _ _ _ Hperm).
    rewrite Hzero. change (seqZ 0 0) with (@nil Z).
    cbn [sum_counts_of mbind option_bind].
    eexists. split; [reflexivity|]. split; [reflexivity|]. vm_compute. reflexivity.
Qed.

Lemma evaluate_schedule_independent_witness :
  evaluate (mk_dataset 3 4 [2; 1; 0; 0; 1; 2; 1; 0; 2; 2; 0; 1])
    (mk_gap_sequence "g" [1]) (fun _ => true) [[2; 3]; []; [1; 0]]
  = evaluate (mk_dataset 3 4 [2; 1; 0; 0; 1; 2; 1; 0; 2; 2; 0; 1])
      (mk_gap_sequence "g" [1]) (fun _ => true) (Omp.sequential 4)
  /\ benchmark (mk_dataset 3 4 [2; 1; 0; 0; 1; 2; 1; 0; 2; 2; 0; 1])
       (mk_gap_sequence "g" [1]) (fun _ => true) [[2; 3]; []; [1; 0]]
     = benchmark (mk_dataset 3 4 [2; 1; 0; 0; 1; 2; 1; 0; 2; 2; 0; 1])
         (mk_gap_sequence "g" [1]) (fun _ => true) (Omp.sequential 4)
  /\ evaluate (mk_dataset 3 4 [2; 1; 0; 0; 1; 2; 1; 0; 2; 2; 0; 1])
       (mk_gap_sequence "g" [1]) (fun _ => true) [[2; 3]; []; [1; 0]]
     = (s ← sum_counts_of
              (Evaluate.evaluate_trial
                 (mk_dataset 3 4 [2; 1; 0; 0; 1; 2; 1; 0; 2; 2; 0; 1])
                 (mk_gap_sequence "g" [1]) (fun _ => true))
              (seqZ 0 4);
        Some (Double.of_Z (wrap64 s) / Double.of_Z 4)%float)
  /\ (4 = 0 ->
      exists mean,
        evaluate (mk_dataset 3 4 [2; 1; 0; 0; 1; 2; 1; 0; 2; 2; 0; 1])
          (mk_gap_sequence "g" [1]) (fun _ => true) [[2; 3]; []; [1; 0]] = Some mean
        /\ benchmark (mk_dataset 3 4 [2; 1; 0; 0; 1; 2; 1; 0; 2; 2; 0; 1])
             (mk_gap_sequence "g" [1]) (fun _ => true) [[2; 3]; []; [1; 0]] = Some mean
        /\ PrimFloat.is_nan mean = true).
Proof.
  assert (Hperm : concat [[2; 3]; []; [1; 0]] ≡ₚ seqZ 0 4).
  { change (seqZ 0 4) with [0; 1; 2; 3]. simpl.
    change [2; 3; 1; 0] with ([2; 3] ++ [1; 0]).
    rewrite (Permutation_app_comm [2; 3] [1; 0]). simpl.
    apply perm_swap. }
  exact (evaluate_schedule_independent
           (mk_dataset 3 4 [2; 1; 0; 0; 1; 2; 1; 0; 2; 2; 0; 1])
           (mk_gap_sequence "g" [1]) (fun _ => true) [[2; 3]; []; [1; 0]] Hperm).
Defined.

(** A run of [evaluate] under three threads and without threads. *)
Example evaluate_run :
  evaluate (mk_dataset 3 4 [2; 1; 0; 0; 1; 2; 1; 0; 2; 2; 0; 1])
    (mk_gap_sequence "g" [1]) (fun _ => true) [[2; 3]; []; [1; 0]] = Some 2.5%float
  /\ evaluate (mk_dataset 3 4 [2; 1; 0; 0; 1; 2; 1; 0; 2; 2; 0; 1])
       (mk_gap_sequence "g" [1]) (fun t => negb (t =? 0)) (Omp.sequential 4)
     = Some 1.75%float.
Proof. vm_compute. split; reflexivity. Qed.

(** ** From permgen to the means *)

Module PipelineFacts.

(** Row [t] of a dataset whose rows have [n] numbers each. *)
Lemma row_of_concat (n : nat) (rows : list (list Z)) (t : nat) :
  Forall (fun row => length row = n) rows -> (t < length rows)%nat ->
  take n (drop (t * n) (concat rows)) = rows !!! t.
Proof.
  intros Hrows. revert t. induction Hrows as [|row rows Hrow _ IH]; intros t Ht.
  { simpl in Ht. lia. }
  destruct t as [|t]; cbn [concat].
  - rewrite Nat.mul_0_l, drop_0, take_app_length' by (symmetry; exact Hrow). done.
  - replace (S t * n)%nat with (length row + t * n)%nat by lia.
    rewrite drop_app_add. cbn [length] in Ht. rewrite IH by lia. done.
Qed.

Lemma seqZ_StronglySorted (k : nat) (m : Z) : StronglySorted Z.le (seqZ m (Z.of_nat k)).
Proof.
  revert m. induction k as [|k IH]; intros m.
  { change (seqZ m (Z.of_nat 0)) with (@nil Z). constructor. }
  rewrite (seqZ_cons m) by lia.
  replace (Z.pred (Z.of_nat (S k))) with (Z.of_nat k) by lia.
  constructor; [apply IH|].
  apply Forall_forall. intros x Hx. apply elem_of_seqZ in Hx. lia.
Qed.

(** [shellsort] on a permutation of [0 .. N-1]: it returns, and with a
    gap 1 in the sequence it returns [0 .. N-1]. *)
Lemma shellsort_permutation (row : list Z) (N : Z) (seq : gap_sequence_t) :
  0 <= N -> row ≡ₚ seqZ 0 N -> Forall (fun g => 0 <= g) (gaps seq) ->
  exists arr' count,
    shellsort row N seq = Some (arr', count)
    /\ (In 1 (gaps seq) -> arr' = seqZ 0 N).
Proof.
  intros HN Hrow Hpos.
  assert (Hlen : Z.of_nat (length row) = N).
  { rewrite Hrow, length_seqZ. lia. }
  assert (Hg : forall k : nat, (k < length (gaps seq))%nat -> 0 <= gaps seq !!! k).
  { intros k Hk. rewrite Forall_lookup in Hpos.
    apply (Hpos k). apply list_lookup_lookup_total_lt. exact Hk. }
  destruct (SortMore.gap_loop_stats_any _ seq row (mk_sort_stats 0 0) Hg)
    as (arr' & stats & Hrun & _ & Hperm & Hsorted).
  rewrite Hlen in Hrun.
  exists arr', (comparisons stats). split.
  - rewrite SortFacts.shellsort_stats_sim. unfold shellsort_stats. rewrite Hrun. done.
  - intros H1. apply (StronglySorted_unique Z.le).
    + apply sorted_below_StronglySorted, Hsorted. right.
      apply list_elem_of_In, list_elem_of_lookup_1 in H1 as [k Hk].
      exists k. split; [exact (lookup_lt_Some _ _ _ Hk)|].
      apply list_lookup_total_correct. exact Hk.
    + rewrite <- (Z2Nat.id N) by lia. apply seqZ_StronglySorted.
    + rewrite Hperm. exact Hrow.
Qed.

(** A sum of counts that are all there is there. *)
Lemma sum_counts_of_defined body iterations :
  Forall (fun t => body t <> None) iterations ->
  exists s, sum_counts_of body iterations = Some s.
Proof.
  induction 1 as [|t iterations Ht _ [s IH]]; [by exists 0|].
  cbn [sum_counts_of]. destruct (body t) as [count|]; [|done].
  rewrite IH. by exists (count + s).
Qed.

End PipelineFacts.

(** X23. The datasets of [permgen] are evaluated without a fault. On a dataset
    of [trials] rows that are permutations of [0 .. N-1], as
    [generate_permutations] writes them and the loaders read them, with
    fewer than 2^62 numbers in all, and for every sequence of unsigned
    gaps: every trial copies a row that lies within the data and
    [shellsort] returns on it, its count being that of the row; with a gap
    1 in the sequence the sorted row is [0 .. N-1]; and [evaluate] returns
    a mean under every schedule and whatever blocks are allocated, as
    [benchmark] does when every block is allocated. *)
Theorem dataset_evaluation_defined (rows : list (list Z)) (N trials : Z)
    (seq : gap_sequence_t) (malloc_ok : Z -> bool) (schedule : list (list Z)) :
  0 <= N -> N * trials < 2 ^ 62 -> Z.of_nat (length rows) = trials ->
  Forall (fun row => row ≡ₚ seqZ 0 N) rows ->
  Forall (fun g => 0 <= g) (gaps seq) ->
  concat schedule ≡ₚ seqZ 0 trials ->
  (forall t : nat, (t < length rows)%nat ->
     exists arr' count,
       Evaluate.sort_row (mk_dataset N trials (concat rows)) seq (Z.of_nat t) = Some count
       /\ shellsort (rows !!! t) N seq = Some (arr', count)
       /\ (In 1 (gaps seq) -> arr' = seqZ 0 N))
  /\ (exists mean,
        evaluate (mk_dataset N trials (concat rows)) seq malloc_ok schedule = Some mean)
  /\ ((forall t, malloc_ok t = true) ->
      exists mean,
        benchmark (mk_dataset N trials (concat rows)) seq malloc_ok schedule = Some mean).
Proof.
  intros HN H62 Hlen Hrows Hpos Hperm.
  assert (Hsize : Forall (fun row => length row = Z.to_nat N) rows).
  { eapply Forall_impl; [exact Hrows|]. intros row Hrow. cbv beta in Hrow.
    rewrite Hrow. apply length_seqZ. }
  assert (Hdata : length (concat rows) = (Z.to_nat N * length rows)%nat).
  { apply RoundTrip.length_concat, Hsize. }
  assert (Htrial : forall t : nat, (t < length rows)%nat ->
            exists arr' count,
              Evaluate.sort_row (mk_dataset N trials (concat rows)) seq (Z.of_nat t)
              = Some count
              /\ shellsort (rows !!! t) N seq = Some (arr', count)
              /\ (In 1 (gaps seq) -> arr' = seqZ 0 N)).
  { intros t Ht.
    assert (Hrow : rows !!! t ≡ₚ seqZ 0 N).
    { rewrite Forall_lookup in Hrows. apply (Hrows t).
      apply list_lookup_lookup_total_lt. exact Ht. }
    destruct (PipelineFacts.shellsort_permutation (rows !!! t) N seq HN Hrow Hpos)
      as (arr' & count & Hsort & Hid).
    exists arr', count. split; [|split; [exact Hsort|exact Hid]].
    unfold Evaluate.sort_row. cbn [ds_N ds_data].
    assert (Hfirst : wrap64 (Z.of_nat t * N) = Z.of_nat t * N).
    { apply wrap64_small. assert (2 ^ 62 < 2 ^ 64) by reflexivity. nia. }
    rewrite Hfirst.
    assert (H4 : N * 4 < 2 ^ 64).
    { change (2 ^ 64) with (2 ^ 62 * 4). nia. }
    destruct (Z.ltb_spec (N * 4) (2 ^ 64)) as [_|]; [|lia].
    destruct (Z.leb_spec (Z.of_nat t * N + N) (Z.of_nat (length (concat rows))))
      as [_|Hout]; [|rewrite Hdata in Hout; nia].
    cbn [andb].
    replace (Z.to_nat (Z.of_nat t * N)) with (t * Z.to_nat N)%nat by nia.
    rewrite (PipelineFacts.row_of_concat _ _ _ Hsize Ht), Hsort. done. }
  split; [exact Htrial|].
  assert (Hin : forall t, t ∈ concat schedule -> exists k : nat,
            t = Z.of_nat k /\ (k < length rows)%nat).
  { intros t Ht. rewrite Hperm in Ht. apply elem_of_seqZ in Ht.
    exists (Z.to_nat t). lia. }
  split.
  - unfold evaluate. rewrite OmpFacts.reduction_total.
    destruct (PipelineFacts.sum_counts_of_defined
                (Evaluate.evaluate_trial (mk_dataset N trials (concat rows)) seq malloc_ok)
                (concat schedule)) as [s ->]; [|by eexists].
    apply Forall_forall. intros t Ht. destruct (Hin t Ht) as (k & -> & Hk).
    unfold Evaluate.evaluate_trial. destruct (malloc_ok _); cbn [negb]; [|done].
    destruct (Htrial k Hk) as (arr' & count & -> & _). done.
  - intros Hmalloc. unfold benchmark. rewrite OmpFacts.reduction_total.
    destruct (PipelineFacts.sum_counts_of_defined
                (Evaluate.benchmark_trial (mk_dataset N trials (concat rows)) seq malloc_ok)
                (concat schedule)) as [s ->]; [|by eexists].
    apply Forall_forall. intros t Ht. destruct (Hin t Ht) as (k & -> & Hk).
    unfold Evaluate.benchmark_trial. rewrite Hmalloc. cbn [negb].
    destruct (Htrial k Hk) as (arr' & count & -> & _). done.
Qed.

Lemma dataset_evaluation_defined_witness :
  (forall t : nat, (t < length [[2; 0; 1]; [1; 2; 0]])%nat ->
     exists arr' count,
       Evaluate.sort_row (mk_dataset 3 2 (concat [[2; 0; 1]; [1; 2; 0]]))
         (mk_gap_sequence "g" [1; 2]) (Z.of_nat t) = Some count
       /\ shellsort ([[2; 0; 1]; [1; 2; 0]] !!! t) 3 (mk_gap_sequence "g" [1; 2])
          = Some (arr', count)
       /\ (In 1 (gaps (mk_gap_sequence "g" [1; 2])) -> arr' = seqZ 0 3))
  /\ (exists mean,
        evaluate (mk_dataset 3 2 (concat [[2; 0; 1]; [1; 2; 0]]))
          (mk_gap_sequence "g" [1; 2]) (fun _ => true) [[1]; [0]] = Some mean)
  /\ ((forall t, (fun _ : Z => true) t = true) ->
      exists mean,
        benchmark (mk_dataset 3 2 (concat [[2; 0; 1]; [1; 2; 0]]))
          (mk_gap_sequence "g" [1; 2]) (fun _ => true) [[1]; [0]] = Some mean).
Proof.
  assert (HN : 0 <= 3) by lia.
  assert (H62 : 3 * 2 < 2 ^ 62) by reflexivity.
  assert (Hrows : Forall (fun row => row ≡ₚ seqZ 0 3) [[2; 0; 1]; [1; 2; 0]]).
  { change (seqZ 0 3) with [0; 1; 2]. repeat constructor.
    - change [2; 0; 1] with ([2] ++ [0; 1]). rewrite Permutation_app_comm. done.
    - change [1; 2; 0] with ([1; 2] ++ [0]). rewrite Permutation_app_comm. done. }
  assert (Hpos : Forall (fun g => 0 <= g) (gaps (mk_gap_sequence "g" [1; 2]))).
  { simpl. repeat constructor; lia. }
  assert (Hperm : concat [[1]; [0]] ≡ₚ seqZ 0 2).
  { change (seqZ 0 2) with [0; 1]. simpl. apply perm_swap. }
  exact (dataset_evaluation_defined [[2; 0; 1]; [1; 2; 0]] 3 2
           (mk_gap_sequence "g" [1; 2]) (fun _ => true) [[1]; [0]]
           HN H62 eq_refl Hrows Hpos Hperm).
Defined.
